(** * Nevira voice assistant: the browser session controller and the token server

    A shallow embedding of [nevira-ui/src/App.jsx] (the room session
    controller, the data-channel protocol, the microphone level meter and
    the stored preferences), of [token-server/server.js] (the [/token] route
    and the CORS policy) and of the contact manager component, with the
    properties the specification states about them and further properties
    that the code shows.

    Conventions.
    - A JavaScript string is the list of its UTF-16 code units ([jsstring]);
      a [Uint8Array] is a [list byte].
    - The platform functions the source calls ([TextEncoder], [TextDecoder],
      [JSON.parse], [JSON.stringify], [String.prototype.trim], [parseInt])
      are written out after their standards (WHATWG Encoding, ECMA-262,
      ECMA-404) so that the handlers can be run on concrete payloads.
    - React state is one record [App]; a handler is a computation in the
      monad [M], which threads the state, the clock read by [Date.now()],
      the trace of calls made to the outside (network, room, animation
      frames) and JavaScript exceptions.
    - A handler runs to completion: the outcome of every promise it awaits
      (the token response, the room connection, the microphone, the room
      query of the server) is an input of the run, and a state setter takes
      effect where it is called. Two handlers never interleave.
    - Numbers are integers ([Z]) wherever the source only counts, compares
      or prints them; the level meter, which divides and takes a square
      root, is computed in IEEE binary64 ([SpecFloat]).
    - Limits of an engine (stack depth, string length, memory) are not
      modelled. *)

From Stdlib Require Import String Ascii.
From Stdlib.Strings Require Import Byte.
From Stdlib Require Import ZArith List Lia Bool.
From Stdlib Require Import SpecFloat.
Import ListNotations.
Open Scope Z_scope.
Set Warnings "-register-all".

(* ================================================================== *)
(** * Strings and bytes *)

(** A JavaScript string: its UTF-16 code units, each in [0, 65535]. *)
Definition jsstring := list Z.

Definition is_code_unit (u : Z) : Prop := 0 <= u < 65536.

Definition Z_of_byte (b : byte) : Z := Z.of_N (Byte.to_N b).

Definition byte_of_Z (z : Z) : byte :=
  match Byte.of_N (Z.to_N z) with
  | Some b => b
  | None => x00
  end.

(** An ASCII literal of the source as a [jsstring]. *)
Definition lit (s : string) : jsstring := map Z_of_byte (list_byte_of_string s).

(** The same, with every apostrophe of [s] standing for a double quote (code
    unit 34): JSON texts are written ['{'type':'x'}'] in this file. *)
Definition litq (s : string) : jsstring :=
  map (fun u => if u =? 39 then 34 else u) (lit s).

(** A payload given by the ASCII text of its bytes (apostrophes as above). *)
Definition bytes_of (s : string) : list byte := map byte_of_Z (litq s).

Fixpoint jsstring_eqb (a b : jsstring) : bool :=
  match a, b with
  | [], [] => true
  | x :: a', y :: b' => (x =? y) && jsstring_eqb a' b'
  | _, _ => false
  end.

Fixpoint starts_with (p s : jsstring) : bool :=
  match p, s with
  | [], _ => true
  | x :: p', y :: s' => (x =? y) && starts_with p' s'
  | _ :: _, [] => false
  end.

(** [String.prototype.includes]: [p] occurs in [s]. *)
Fixpoint includes (s p : jsstring) : bool :=
  starts_with p s ||
  match s with
  | [] => false
  | _ :: s' => includes s' p
  end.

(** [p] occurs in [s] as a run of consecutive code units. *)
Definition occurs_in (p s : jsstring) : Prop := exists a b, s = a ++ p ++ b.

(** WhiteSpace and LineTerminator of ECMA-262, the code points that
    [String.prototype.trim] strips. *)
Definition is_js_whitespace (u : Z) : bool :=
  ((9 <=? u) && (u <=? 13)) || (u =? 32) || (u =? 160) || (u =? 5760) ||
  ((8192 <=? u) && (u <=? 8202)) || (u =? 8232) || (u =? 8233) ||
  (u =? 8239) || (u =? 8287) || (u =? 12288) || (u =? 65279).

Fixpoint trim_start (s : jsstring) : jsstring :=
  match s with
  | [] => []
  | u :: s' => if is_js_whitespace u then trim_start s' else s
  end.

Definition trim (s : jsstring) : jsstring :=
  rev (trim_start (rev (trim_start s))).

(** Decimal numeral of a natural number, most significant digit first:
    [Number::toString] on a non-negative integer below 10^21. *)
Fixpoint digits_fuel (fuel : nat) (n : Z) (acc : jsstring) : jsstring :=
  match fuel with
  | O => acc
  | S f =>
      let acc' := (48 + n mod 10) :: acc in
      if n <? 10 then acc' else digits_fuel f (n / 10) acc'
  end.

Definition digits (n : Z) : jsstring :=
  digits_fuel (S (Z.to_nat (Z.log2 n))) n [].

(** [Number::toString] on an integer (the only numbers the source prints:
    [Date.now()] and [Math.floor(Math.random() * 10000)]). *)
Definition Number_toString (n : Z) : jsstring :=
  if n <? 0 then 45 :: digits (- n) else digits n.

(* ------------------------------------------------------------------ *)
(** ** UTF-8 (WHATWG Encoding) *)

Definition is_high_surrogate (u : Z) : bool := (55296 <=? u) && (u <=? 56319).
Definition is_low_surrogate (u : Z) : bool := (56320 <=? u) && (u <=? 57343).

(** The code point of a surrogate pair. *)
Definition pair_code_point (hi lo : Z) : Z :=
  65536 + (hi - 55296) * 1024 + (lo - 56320).

(** UTF-16 encoding of a code point. *)
Definition utf16_of_code_point (c : Z) : jsstring :=
  if c <? 65536 then [c]
  else [55296 + (c - 65536) / 1024; 56320 + (c - 65536) mod 1024].

Module TextEncoder.

(** The UTF-8 encoder on one code point ([c / 64] is [c >> 6],
    [c mod 64] is [c & 0x3F]). *)
Definition encode_code_point (c : Z) : list byte :=
  if c <? 128 then [byte_of_Z c]
  else if c <? 2048 then
    [byte_of_Z (192 + c / 64); byte_of_Z (128 + c mod 64)]
  else if c <? 65536 then
    [byte_of_Z (224 + c / 4096); byte_of_Z (128 + (c / 64) mod 64);
     byte_of_Z (128 + c mod 64)]
  else
    [byte_of_Z (240 + c / 262144); byte_of_Z (128 + (c / 4096) mod 64);
     byte_of_Z (128 + (c / 64) mod 64); byte_of_Z (128 + c mod 64)].

(** [new TextEncoder().encode(s)]: the string is read by code points, a
    lone surrogate becomes U+FFFD, each code point is UTF-8 encoded. *)
Fixpoint encode (s : jsstring) : list byte :=
  match s with
  | [] => []
  | u :: rest =>
      if is_high_surrogate u then
        match rest with
        | v :: rest' =>
            if is_low_surrogate v
            then encode_code_point (pair_code_point u v) ++ encode rest'
            else encode_code_point 65533 ++ encode rest
        | [] => encode_code_point 65533
        end
      else if is_low_surrogate u then encode_code_point 65533 ++ encode rest
      else encode_code_point u ++ encode rest
  end.

End TextEncoder.

Module TextDecoder.

(** State of the UTF-8 decoder between two bytes: the code point being
    assembled, the number of continuation bytes still expected, and the
    range the next byte must lie in. *)
Record state := mkState {
  code_point : Z;
  bytes_needed : nat;
  lower_boundary : Z;
  upper_boundary : Z
}.

Definition initial : state := mkState 0 0 128 191.

(** A byte read when no sequence is open. *)
Definition lead (b : Z) : state * list Z :=
  if b <=? 127 then (initial, [b])
  else if (194 <=? b) && (b <=? 223) then
    (mkState (b - 192) 1 128 191, [])
  else if (224 <=? b) && (b <=? 239) then
    (mkState (b - 224) 2 (if b =? 224 then 160 else 128)
                          (if b =? 237 then 159 else 191), [])
  else if (240 <=? b) && (b <=? 244) then
    (mkState (b - 240) 3 (if b =? 240 then 144 else 128)
                          (if b =? 244 then 143 else 191), [])
  else (initial, [65533]).

(** One byte: the new state and the code points emitted.  A byte outside
    the expected range closes the open sequence with U+FFFD and is read
    again as a lead byte. *)
Definition step (st : state) (b : Z) : state * list Z :=
  match bytes_needed st with
  | O => lead b
  | S k =>
      if (lower_boundary st <=? b) && (b <=? upper_boundary st) then
        let cp := code_point st * 64 + (b - 128) in
        match k with
        | O => (initial, [cp])
        | S _ => (mkState cp k 128 191, [])
        end
      else
        let (st', out) := lead b in (st', 65533 :: out)
  end.

Fixpoint run (st : state) (bs : list byte) : list Z :=
  match bs with
  | [] => match bytes_needed st with O => [] | S _ => [65533] end
  | b :: bs' => let (st', out) := step st (Z_of_byte b) in out ++ run st' bs'
  end.

(** A leading byte order mark is dropped (the decoder is created with the
    default [ignoreBOM = false]). *)
Definition strip_bom (cps : list Z) : list Z :=
  match cps with
  | c :: cps' => if c =? 65279 then cps' else cps
  | [] => []
  end.

(** [new TextDecoder().decode(payload)]: UTF-8, replacement on error. *)
Definition decode (payload : list byte) : jsstring :=
  flat_map utf16_of_code_point (strip_bom (run initial payload)).

End TextDecoder.

(** A string all of whose code units are in range and whose surrogates all
    come in pairs. *)
Fixpoint well_formed (s : jsstring) : bool :=
  match s with
  | [] => true
  | u :: rest =>
      if is_high_surrogate u then
        match rest with
        | v :: rest' => is_low_surrogate v && well_formed rest'
        | [] => false
        end
      else if is_low_surrogate u then false
      else (0 <=? u) && (u <? 65536) && well_formed rest
  end.

(* ================================================================== *)
(** * JSON (ECMA-404, and [JSON.parse] / [JSON.stringify] of ECMA-262) *)

(** A JSON number [(-1)^neg * mantissa * 10^exponent], kept as the exact
    decimal the numeral denotes. *)
Record number := mkNumber {
  negative : bool;
  mantissa : Z;
  exponent : Z
}.

Inductive json : Type :=
| JNull
| JBool (b : bool)
| JNumber (n : number)
| JString (s : jsstring)
| JArray (items : list json)
| JObject (members : list (jsstring * json)).

(** The outcome of a parser on a string: a value and the remaining input,
    a [SyntaxError], or recursion budget exhausted. *)
Inductive presult (A : Type) : Type :=
| POk (a : A) (rest : jsstring)
| PSyntaxError
| PFuel.
Arguments POk {A} a rest.
Arguments PSyntaxError {A}.
Arguments PFuel {A}.

Module JSON.

(** JSON white space: tab, line feed, carriage return, space. *)
Definition is_ws (u : Z) : bool :=
  (u =? 9) || (u =? 10) || (u =? 13) || (u =? 32).

Fixpoint skip_ws (s : jsstring) : jsstring :=
  match s with
  | [] => []
  | u :: s' => if is_ws u then skip_ws s' else s
  end.

Definition is_digit (u : Z) : bool := (48 <=? u) && (u <=? 57).

(** Longest prefix of decimal digits, and what follows it. *)
Fixpoint take_digits (s : jsstring) : jsstring * jsstring :=
  match s with
  | [] => ([], [])
  | u :: s' =>
      if is_digit u
      then let (ds, r) := take_digits s' in (u :: ds, r)
      else ([], s)
  end.

Definition digits_value (ds : jsstring) : Z :=
  fold_left (fun a d => 10 * a + (d - 48)) ds 0.

Definition hex_value (u : Z) : option Z :=
  if (48 <=? u) && (u <=? 57) then Some (u - 48)
  else if (65 <=? u) && (u <=? 70) then Some (u - 55)
  else if (97 <=? u) && (u <=? 102) then Some (u - 87)
  else None.

Definition hex4 (a b c d : Z) : option Z :=
  match hex_value a, hex_value b, hex_value c, hex_value d with
  | Some x, Some y, Some z, Some w => Some (x * 4096 + y * 256 + z * 16 + w)
  | _, _, _, _ => None
  end.

(** The character a two-character escape stands for. *)
Definition simple_escape (e : Z) : option Z :=
  if e =? 34 then Some 34          (* quotation mark *)
  else if e =? 92 then Some 92     (* reverse solidus *)
  else if e =? 47 then Some 47     (* solidus *)
  else if e =? 98 then Some 8      (* b: backspace *)
  else if e =? 102 then Some 12    (* f: form feed *)
  else if e =? 110 then Some 10    (* n: line feed *)
  else if e =? 114 then Some 13    (* r: carriage return *)
  else if e =? 116 then Some 9     (* t: tab *)
  else None.

Definition cons_char (u : Z) (r : option (jsstring * jsstring)) :
  option (jsstring * jsstring) :=
  match r with
  | Some (s, rest) => Some (u :: s, rest)
  | None => None
  end.

(** A string after its opening quote: the characters up to the closing
    quote, and what follows it. *)
Fixpoint lex_string (s : jsstring) : option (jsstring * jsstring) :=
  match s with
  | [] => None
  | c :: r =>
      if c =? 34 then Some ([], r)
      else if c =? 92 then
        match r with
        | [] => None
        | e :: r1 =>
            if e =? 117 then
              match r1 with
              | h1 :: h2 :: h3 :: h4 :: r2 =>
                  match hex4 h1 h2 h3 h4 with
                  | Some u => cons_char u (lex_string r2)
                  | None => None
                  end
              | _ => None
              end
            else
              match simple_escape e with
              | Some u => cons_char u (lex_string r1)
              | None => None
              end
        end
      else if c <? 32 then None
      else cons_char c (lex_string r)
  end.

(** The rest of [s] after the character [c], when [s] starts with it. *)
Definition eat (c : Z) (s : jsstring) : option jsstring :=
  match s with
  | x :: r => if x =? c then Some r else None
  | [] => None
  end.

(** Optional fraction: the digits after the point (none if no point). *)
Definition lex_fraction (s : jsstring) : option (jsstring * jsstring) :=
  match eat 46 s with
  | Some s1 =>
      match take_digits s1 with
      | ([], _) => None
      | (fs, r) => Some (fs, r)
      end
  | None => Some ([], s)
  end.

(** Optional exponent part. *)
Definition lex_exponent (s : jsstring) : option (Z * jsstring) :=
  match s with
  | e :: s1 =>
      if (e =? 101) || (e =? 69) then
        let (neg, s2) :=
          match eat 43 s1, eat 45 s1 with
          | Some s2, _ => (false, s2)
          | None, Some s2 => (true, s2)
          | None, None => (false, s1)
          end in
        match take_digits s2 with
        | ([], _) => None
        | (es, r) =>
            Some ((if neg then - digits_value es else digits_value es), r)
        end
      else Some (0, s)
  | [] => Some (0, s)
  end.

(** A number: [-? (0 | [1-9][0-9]* ) (. [0-9]+)? ([eE] [+-]? [0-9]+)?]. *)
Definition lex_number (s : jsstring) : option (number * jsstring) :=
  let (neg, s1) :=
    match eat 45 s with
    | Some s1 => (true, s1)
    | None => (false, s)
    end in
  match take_digits s1 with
  | ([], _) => None
  | (d :: ds, r) =>
      if (d =? 48) && negb (match ds with [] => true | _ => false end)
      then
        (* a leading zero ends the integer part: the digits after it are
           not part of the number, and every caller rejects them *)
        match lex_fraction (ds ++ r) with
        | Some (fs, r1) =>
            match lex_exponent r1 with
            | Some (e, r2) =>
                Some (mkNumber neg (digits_value fs) (e - Z.of_nat (length fs)), r2)
            | None => None
            end
        | None => None
        end
      else
        match lex_fraction r with
        | Some (fs, r1) =>
            match lex_exponent r1 with
            | Some (e, r2) =>
                Some (mkNumber neg (digits_value ((d :: ds) ++ fs))
                               (e - Z.of_nat (length fs)), r2)
            | None => None
            end
        | None => None
        end
  end.

(** Recursive descent.  [parse_value] reads one value after optional
    white space; [parse_elements] reads the elements of a non-empty array
    after its bracket, [parse_members] the members of a non-empty object
    after its brace; [acc] holds what was read so far, last first. *)
Fixpoint parse_value (fuel : nat) (s : jsstring) {struct fuel} : presult json :=
  match fuel with
  | O => PFuel
  | S f =>
      match skip_ws s with
      | [] => PSyntaxError
      | c :: r =>
          if c =? 123 then
            match eat 125 (skip_ws r) with
            | Some r' => POk (JObject []) r'
            | None => parse_members f r []
            end
          else if c =? 91 then
            match eat 93 (skip_ws r) with
            | Some r' => POk (JArray []) r'
            | None => parse_elements f r []
            end
          else if c =? 34 then
            match lex_string r with
            | Some (str, r') => POk (JString str) r'
            | None => PSyntaxError
            end
          else if starts_with (lit "null") (c :: r) then POk JNull (skipn 4 (c :: r))
          else if starts_with (lit "true") (c :: r) then POk (JBool true) (skipn 4 (c :: r))
          else if starts_with (lit "false") (c :: r) then POk (JBool false) (skipn 5 (c :: r))
          else
            match lex_number (c :: r) with
            | Some (n, r') => POk (JNumber n) r'
            | None => PSyntaxError
            end
      end
  end
with parse_elements (fuel : nat) (s : jsstring) (acc : list json)
       {struct fuel} : presult json :=
  match fuel with
  | O => PFuel
  | S f =>
      match parse_value f s with
      | POk v r =>
          match skip_ws r with
          | c :: r' =>
              if c =? 44 then parse_elements f r' (v :: acc)
              else if c =? 93 then POk (JArray (rev (v :: acc))) r'
              else PSyntaxError
          | [] => PSyntaxError
          end
      | PSyntaxError => PSyntaxError
      | PFuel => PFuel
      end
  end
with parse_members (fuel : nat) (s : jsstring) (acc : list (jsstring * json))
       {struct fuel} : presult json :=
  match fuel with
  | O => PFuel
  | S f =>
      match eat 34 (skip_ws s) with
      | Some r =>
          match lex_string r with
          | Some (k, r1) =>
              match eat 58 (skip_ws r1) with
              | Some r2 =>
                  match parse_value f r2 with
                  | POk v r3 =>
                      match skip_ws r3 with
                      | c :: r4 =>
                          if c =? 44 then parse_members f r4 ((k, v) :: acc)
                          else if c =? 125 then POk (JObject (rev ((k, v) :: acc))) r4
                          else PSyntaxError
                      | [] => PSyntaxError
                      end
                  | PSyntaxError => PSyntaxError
                  | PFuel => PFuel
                  end
              | None => PSyntaxError
              end
          | None => PSyntaxError
          end
      | None => PSyntaxError
      end
  end.

(** A whole text: one value between optional white space. *)
Definition parse_text (fuel : nat) (s : jsstring) : presult json :=
  match parse_value fuel s with
  | POk v r =>
      match skip_ws r with
      | [] => POk v []
      | _ => PSyntaxError
      end
  | e => e
  end.

(** [JSON.parse(s)]: [None] is the [SyntaxError] it throws.  The budget
    [2 * length s + 1] is never exhausted ([parse_text_fuel]). *)
Definition parse (s : jsstring) : option json :=
  match parse_text (S (2 * length s)) s with
  | POk v _ => Some v
  | _ => None
  end.

Definition hex_digit (d : Z) : Z := if d <? 10 then 48 + d else 87 + d.

(** [UnicodeEscape]: backslash, [u], four lower-case hexadecimal digits. *)
Definition unicode_escape (u : Z) : jsstring :=
  [92; 117; hex_digit (u / 4096); hex_digit ((u / 256) mod 16);
   hex_digit ((u / 16) mod 16); hex_digit (u mod 16)].

(** [QuoteJSONString] without the enclosing quotes: the string is read by
    code points; the seven characters with a short escape use it, other
    control characters and lone surrogates are written [\uXXXX],
    everything else is copied. *)
Fixpoint quote_body (s : jsstring) : jsstring :=
  match s with
  | [] => []
  | u :: rest =>
      if u =? 8 then 92 :: 98 :: quote_body rest
      else if u =? 9 then 92 :: 116 :: quote_body rest
      else if u =? 10 then 92 :: 110 :: quote_body rest
      else if u =? 12 then 92 :: 102 :: quote_body rest
      else if u =? 13 then 92 :: 114 :: quote_body rest
      else if u =? 34 then 92 :: 34 :: quote_body rest
      else if u =? 92 then 92 :: 92 :: quote_body rest
      else if u <? 32 then unicode_escape u ++ quote_body rest
      else if is_high_surrogate u then
        match rest with
        | v :: rest' =>
            if is_low_surrogate v then u :: v :: quote_body rest'
            else unicode_escape u ++ quote_body rest
        | [] => unicode_escape u
        end
      else if is_low_surrogate u then unicode_escape u ++ quote_body rest
      else u :: quote_body rest
  end.

Definition quote (s : jsstring) : jsstring := 34 :: quote_body s ++ [34].

(** The property values the source serialises: strings, and the integers
    [Date.now()] returns. *)
Inductive scalar : Type :=
| SString (s : jsstring)
| SInteger (n : Z).

Definition stringify_scalar (v : scalar) : jsstring :=
  match v with
  | SString s => quote s
  | SInteger n => Number_toString n
  end.

Fixpoint stringify_members (ms : list (jsstring * scalar)) : jsstring :=
  match ms with
  | [] => []
  | [(k, v)] => quote k ++ 58 :: stringify_scalar v
  | (k, v) :: ms' =>
      quote k ++ 58 :: stringify_scalar v ++ 44 :: stringify_members ms'
  end.

(** [JSON.stringify] of an object literal whose properties are strings
    and integers, in the order they are written. *)
Definition stringify (ms : list (jsstring * scalar)) : jsstring :=
  123 :: stringify_members ms ++ [125].

(** What [JSON.parse] is to give back for a serialised property. *)
Definition value_of (v : scalar) : json :=
  match v with
  | SString s => JString s
  | SInteger n => JNumber (mkNumber (n <? 0) (Z.abs n) 0)
  end.

Definition member_of (m : jsstring * scalar) : jsstring * json :=
  (fst m, value_of (snd m)).

Definition scalar_ok (v : scalar) : Prop :=
  match v with
  | SString s => Forall is_code_unit s
  | SInteger _ => True
  end.

(** A property whose name and value are strings of code units. *)
Definition member_ok (m : jsstring * scalar) : Prop :=
  Forall is_code_unit (fst m) /\ scalar_ok (snd m).

End JSON.

(** Predicates used to state what the serialiser writes. *)

Definition is_decimal (ds : jsstring) : Prop :=
  Forall (fun d => 48 <= d <= 57) ds.

(** What may follow a value inside an object: a comma or the closing
    brace. *)
Definition follows (rest : jsstring) : Prop :=
  exists c r, rest = c :: r /\ (c = 44 \/ c = 125).

Definition low (c : Z) : Prop := 0 <= c < 55296.

(* ================================================================== *)
(** * JavaScript values and exceptions *)

(** A value read from parsed JSON: [undefined], or a JSON value. *)
Inductive jsval : Type :=
| Undefined
| Val (v : json).

(** A numeral that denotes zero, or a non-zero one whose binary64 value is
    zero: at most 2^-1075 in magnitude. *)
Definition number_is_zero (n : number) : bool :=
  (mantissa n =? 0) ||
  ((exponent n <? 0) && (mantissa n * 2 ^ 1075 <=? 10 ^ (- exponent n))).

(** [ToBoolean]. *)
Definition truthy (v : jsval) : bool :=
  match v with
  | Undefined => false
  | Val JNull => false
  | Val (JBool b) => b
  | Val (JNumber n) => negb (number_is_zero n)
  | Val (JString s) => match s with [] => false | _ => true end
  | Val (JArray _) => true
  | Val (JObject _) => true
  end.

(** [a || b]. *)
Definition or_else (a b : jsval) : jsval := if truthy a then a else b.

(** [v === s] for a string literal [s]. *)
Definition is_string (v : jsval) (s : jsstring) : bool :=
  match v with
  | Val (JString t) => jsstring_eqb t s
  | _ => false
  end.

(** The own property [k] of an object [JSON.parse] built: a later duplicate
    of a key replaces an earlier one. *)
Fixpoint lookup (k : jsstring) (ms : list (jsstring * json)) : jsval :=
  match ms with
  | [] => Undefined
  | (k', v) :: ms' =>
      match lookup k ms' with
      | Undefined => if jsstring_eqb k' k then Val v else Undefined
      | found => found
      end
  end.

Inductive exn : Type :=
| SyntaxError                   (* raised by [JSON.parse] *)
| TypeError                     (* raised by a property read on [null] *)
| Error (message : jsstring).   (* [new Error(message)], or the rejection of
                                   an outside call with that message *)

(** A text given to [setError]: a string of the source, or [err.message]
    (the message of an engine error is the engine's wording). *)
Inductive errtext : Type :=
| Text (s : jsstring)
| MessageOf (e : exn).

Definition message_of (e : exn) : errtext :=
  match e with
  | Error m => Text m
  | _ => MessageOf e
  end.

(* ================================================================== *)
(** * The state of the [App] component *)

(** A [Room] object of the client library, by the order of its creation. *)
Inductive Room : Type := RoomRef (n : nat).

Inductive Sender : Type := user | assistant.

Module ChatEntry.
Record t : Type := mk {
  id : Z;
  sender : Sender;
  text : jsval;
  images : jsval;
  timestamp : Z
}.
End ChatEntry.

Module LogEntry.
Record t : Type := mk { ts : Z; msg : jsstring }.
End LogEntry.

Module Participant.
Record t : Type := mk { identity : jsstring; isAgent : bool }.
End Participant.

Module EmailForm.
Record t : Type := mk { to : jsstring; subject : jsstring; body : jsstring }.
End EmailForm.

(** The [useState] cells of [App] that the session controller, the protocol
    layer and the meter read or write, and the ref [levelRafRef]. *)
Record App : Type := mkApp {
  room : option Room;
  connected : bool;
  connecting : bool;
  muted : bool;
  speaking : bool;
  participants : list Participant.t;
  agentSpeaking : bool;
  error : option errtext;
  quality : jsstring;
  logs : list LogEntry.t;
  autoConnect : bool;
  micLevel : spec_float;
  showEmailPopup : bool;
  showEmailSentPopup : bool;
  emailForm : EmailForm.t;
  emailSending : bool;
  messages : list ChatEntry.t;
  inputMessage : jsstring;
  levelRafRef : option Z
}.

(** [setX(v)] on the record. *)
Definition setRoom_in (v : option Room) (a : App) : App :=
  mkApp
    v (connected a) (connecting a) (muted a) (speaking a) (participants a)
    (agentSpeaking a) (error a) (quality a) (logs a) (autoConnect a)
    (micLevel a) (showEmailPopup a) (showEmailSentPopup a) (emailForm a)
    (emailSending a) (messages a) (inputMessage a) (levelRafRef a).

Definition setConnected_in (v : bool) (a : App) : App :=
  mkApp
    (room a) v (connecting a) (muted a) (speaking a) (participants a)
    (agentSpeaking a) (error a) (quality a) (logs a) (autoConnect a)
    (micLevel a) (showEmailPopup a) (showEmailSentPopup a) (emailForm a)
    (emailSending a) (messages a) (inputMessage a) (levelRafRef a).

Definition setConnecting_in (v : bool) (a : App) : App :=
  mkApp
    (room a) (connected a) v (muted a) (speaking a) (participants a)
    (agentSpeaking a) (error a) (quality a) (logs a) (autoConnect a)
    (micLevel a) (showEmailPopup a) (showEmailSentPopup a) (emailForm a)
    (emailSending a) (messages a) (inputMessage a) (levelRafRef a).

Definition setMuted_in (v : bool) (a : App) : App :=
  mkApp
    (room a) (connected a) (connecting a) v (speaking a) (participants a)
    (agentSpeaking a) (error a) (quality a) (logs a) (autoConnect a)
    (micLevel a) (showEmailPopup a) (showEmailSentPopup a) (emailForm a)
    (emailSending a) (messages a) (inputMessage a) (levelRafRef a).

Definition setSpeaking_in (v : bool) (a : App) : App :=
  mkApp
    (room a) (connected a) (connecting a) (muted a) v (participants a)
    (agentSpeaking a) (error a) (quality a) (logs a) (autoConnect a)
    (micLevel a) (showEmailPopup a) (showEmailSentPopup a) (emailForm a)
    (emailSending a) (messages a) (inputMessage a) (levelRafRef a).

Definition setParticipants_in (v : list Participant.t) (a : App) : App :=
  mkApp
    (room a) (connected a) (connecting a) (muted a) (speaking a) v
    (agentSpeaking a) (error a) (quality a) (logs a) (autoConnect a)
    (micLevel a) (showEmailPopup a) (showEmailSentPopup a) (emailForm a)
    (emailSending a) (messages a) (inputMessage a) (levelRafRef a).

Definition setAgentSpeaking_in (v : bool) (a : App) : App :=
  mkApp
    (room a) (connected a) (connecting a) (muted a) (speaking a)
    (participants a) v (error a) (quality a) (logs a) (autoConnect a)
    (micLevel a) (showEmailPopup a) (showEmailSentPopup a) (emailForm a)
    (emailSending a) (messages a) (inputMessage a) (levelRafRef a).

Definition setError_in (v : option errtext) (a : App) : App :=
  mkApp
    (room a) (connected a) (connecting a) (muted a) (speaking a)
    (participants a) (agentSpeaking a) v (quality a) (logs a) (autoConnect a)
    (micLevel a) (showEmailPopup a) (showEmailSentPopup a) (emailForm a)
    (emailSending a) (messages a) (inputMessage a) (levelRafRef a).

Definition setQuality_in (v : jsstring) (a : App) : App :=
  mkApp
    (room a) (connected a) (connecting a) (muted a) (speaking a)
    (participants a) (agentSpeaking a) (error a) v (logs a) (autoConnect a)
    (micLevel a) (showEmailPopup a) (showEmailSentPopup a) (emailForm a)
    (emailSending a) (messages a) (inputMessage a) (levelRafRef a).

Definition setLogs_in (v : list LogEntry.t) (a : App) : App :=
  mkApp
    (room a) (connected a) (connecting a) (muted a) (speaking a)
    (participants a) (agentSpeaking a) (error a) (quality a) v
    (autoConnect a) (micLevel a) (showEmailPopup a) (showEmailSentPopup a)
    (emailForm a) (emailSending a) (messages a) (inputMessage a)
    (levelRafRef a).

Definition setAutoConnect_in (v : bool) (a : App) : App :=
  mkApp
    (room a) (connected a) (connecting a) (muted a) (speaking a)
    (participants a) (agentSpeaking a) (error a) (quality a) (logs a) v
    (micLevel a) (showEmailPopup a) (showEmailSentPopup a) (emailForm a)
    (emailSending a) (messages a) (inputMessage a) (levelRafRef a).

Definition setMicLevel_in (v : spec_float) (a : App) : App :=
  mkApp
    (room a) (connected a) (connecting a) (muted a) (speaking a)
    (participants a) (agentSpeaking a) (error a) (quality a) (logs a)
    (autoConnect a) v (showEmailPopup a) (showEmailSentPopup a) (emailForm a)
    (emailSending a) (messages a) (inputMessage a) (levelRafRef a).

Definition setShowEmailPopup_in (v : bool) (a : App) : App :=
  mkApp
    (room a) (connected a) (connecting a) (muted a) (speaking a)
    (participants a) (agentSpeaking a) (error a) (quality a) (logs a)
    (autoConnect a) (micLevel a) v (showEmailSentPopup a) (emailForm a)
    (emailSending a) (messages a) (inputMessage a) (levelRafRef a).

Definition setShowEmailSentPopup_in (v : bool) (a : App) : App :=
  mkApp
    (room a) (connected a) (connecting a) (muted a) (speaking a)
    (participants a) (agentSpeaking a) (error a) (quality a) (logs a)
    (autoConnect a) (micLevel a) (showEmailPopup a) v (emailForm a)
    (emailSending a) (messages a) (inputMessage a) (levelRafRef a).

Definition setEmailForm_in (v : EmailForm.t) (a : App) : App :=
  mkApp
    (room a) (connected a) (connecting a) (muted a) (speaking a)
    (participants a) (agentSpeaking a) (error a) (quality a) (logs a)
    (autoConnect a) (micLevel a) (showEmailPopup a) (showEmailSentPopup a) v
    (emailSending a) (messages a) (inputMessage a) (levelRafRef a).

Definition setEmailSending_in (v : bool) (a : App) : App :=
  mkApp
    (room a) (connected a) (connecting a) (muted a) (speaking a)
    (participants a) (agentSpeaking a) (error a) (quality a) (logs a)
    (autoConnect a) (micLevel a) (showEmailPopup a) (showEmailSentPopup a)
    (emailForm a) v (messages a) (inputMessage a) (levelRafRef a).

Definition setMessages_in (v : list ChatEntry.t) (a : App) : App :=
  mkApp
    (room a) (connected a) (connecting a) (muted a) (speaking a)
    (participants a) (agentSpeaking a) (error a) (quality a) (logs a)
    (autoConnect a) (micLevel a) (showEmailPopup a) (showEmailSentPopup a)
    (emailForm a) (emailSending a) v (inputMessage a) (levelRafRef a).

Definition setInputMessage_in (v : jsstring) (a : App) : App :=
  mkApp
    (room a) (connected a) (connecting a) (muted a) (speaking a)
    (participants a) (agentSpeaking a) (error a) (quality a) (logs a)
    (autoConnect a) (micLevel a) (showEmailPopup a) (showEmailSentPopup a)
    (emailForm a) (emailSending a) (messages a) v (levelRafRef a).

Definition setLevelRafRef_in (v : option Z) (a : App) : App :=
  mkApp
    (room a) (connected a) (connecting a) (muted a) (speaking a)
    (participants a) (agentSpeaking a) (error a) (quality a) (logs a)
    (autoConnect a) (micLevel a) (showEmailPopup a) (showEmailSentPopup a)
    (emailForm a) (emailSending a) (messages a) (inputMessage a) v.

(** A call made to the outside, in the order the handlers make them. *)
Inductive Call : Type :=
| fetch (url body : jsstring)
| Room_new (r : Room)
| Room_on (r : Room)
| Room_connect (r : Room) (url : jsstring) (token : jsval)
| Room_disconnect (r : Room)
| setMicrophoneEnabled (r : Room) (enabled : bool)
| publishData (r : Room) (data : list byte) (options : bool)
| track_attach
| setTimeout_agentSpeaking (ms : Z)
| setTimeout_emailSent (ms : Z)
| requestAnimationFrame (handle : Z)
| cancelAnimationFrame (handle : Z).

(** The component and its surroundings: the state, the successive readings
    of the clock, how many were taken, and the calls made so far (latest
    first). *)
Record World : Type := mkWorld {
  app : App;
  clock : nat -> Z;
  reads : nat;
  calls : list Call
}.

(** How a computation ends: normally with a value, or by throwing. *)
Inductive completion (A : Type) : Type :=
| Normal (a : A)
| Throw (e : exn).
Arguments Normal {A} a.
Arguments Throw {A} e.

Definition M (A : Type) : Type := World -> completion A * World.

Definition ret {A} (a : A) : M A := fun w => (Normal a, w).

Definition bind {A B} (c : M A) (k : A -> M B) : M B :=
  fun w =>
    match c w with
    | (Normal a, w') => k a w'
    | (Throw e, w') => (Throw e, w')
    end.

Definition throw {A} (e : exn) : M A := fun w => (Throw e, w).

(** [try { c } catch (e) { h e }]. *)
Definition try_catch {A} (c : M A) (h : exn -> M A) : M A :=
  fun w =>
    match c w with
    | (Normal a, w') => (Normal a, w')
    | (Throw e, w') => h e w'
    end.

(** [try { c } finally { f }], for an [f] that completes normally. *)
Definition try_finally {A} (c : M A) (f : M unit) : M A :=
  fun w =>
    match c w with
    | (r, w') =>
        match f w' with
        | (Normal _, w'') => (r, w'')
        | (Throw e, w'') => (Throw e, w'')
        end
    end.

Declare Scope monad_scope.
Delimit Scope monad_scope with monad.
Notation "x <- c ;; k" := (bind c (fun x => k))
  (at level 61, c at next level, right associativity) : monad_scope.
Notation "c ;; k" := (bind c (fun _ => k))
  (at level 61, right associativity) : monad_scope.
Open Scope monad_scope.

(** The state as the running handler sees it. *)
Definition get : M App := fun w => (Normal (app w), w).

Definition modify (f : App -> App) : M unit :=
  fun w => (Normal tt, mkWorld (f (app w)) (clock w) (reads w) (calls w)).

Definition call (c : Call) : M unit :=
  fun w => (Normal tt, mkWorld (app w) (clock w) (reads w) (c :: calls w)).

(** [Date.now()]: the next reading of the clock. *)
Definition Date_now : M Z :=
  fun w => (Normal (clock w (reads w)),
            mkWorld (app w) (clock w) (S (reads w)) (calls w)).

(** The result of an awaited outside call: fulfilled, or rejected with the
    message of the error. *)
Inductive settled (A : Type) : Type :=
| Fulfilled (a : A)
| Rejected (message : jsstring).
Arguments Fulfilled {A} a.
Arguments Rejected {A} message.

Definition await {A} (r : settled A) : M A :=
  match r with
  | Fulfilled a => ret a
  | Rejected m => throw (Error m)
  end.

(** The setters.  A functional update ([setLogs(l => ...)]) is applied to
    the state current when the setter is called. *)
Definition setRoom (v : option Room) : M unit := modify (setRoom_in v).
Definition setConnected (v : bool) : M unit := modify (setConnected_in v).
Definition setConnecting (v : bool) : M unit := modify (setConnecting_in v).
Definition setMuted (v : bool) : M unit := modify (setMuted_in v).
Definition setSpeaking (v : bool) : M unit := modify (setSpeaking_in v).
Definition setParticipants (v : list Participant.t) : M unit := modify (setParticipants_in v).
Definition setAgentSpeaking (v : bool) : M unit := modify (setAgentSpeaking_in v).
Definition setError (v : option errtext) : M unit := modify (setError_in v).
Definition setQuality (v : jsstring) : M unit := modify (setQuality_in v).
Definition setLogs (v : list LogEntry.t) : M unit := modify (setLogs_in v).
Definition setAutoConnect (v : bool) : M unit := modify (setAutoConnect_in v).
Definition setMicLevel (v : spec_float) : M unit := modify (setMicLevel_in v).
Definition setShowEmailPopup (v : bool) : M unit := modify (setShowEmailPopup_in v).
Definition setShowEmailSentPopup (v : bool) : M unit := modify (setShowEmailSentPopup_in v).
Definition setEmailForm (v : EmailForm.t) : M unit := modify (setEmailForm_in v).
Definition setEmailSending (v : bool) : M unit := modify (setEmailSending_in v).
Definition setMessages (v : list ChatEntry.t) : M unit := modify (setMessages_in v).
Definition setInputMessage (v : jsstring) : M unit := modify (setInputMessage_in v).
Definition setLevelRafRef (v : option Z) : M unit := modify (setLevelRafRef_in v).

(* ================================================================== *)
(** * [App.jsx] *)

Definition TOKEN_SERVER : jsstring := lit "http://localhost:3001/token".
Definition LIVEKIT_URL : jsstring := lit "wss://deskto-ai-zog435cw.livekit.cloud".
Definition ROOM_NAME : jsstring := lit "nevira-room".

Module Tool.
Record t : Type := mk {
  key : jsstring;
  label : jsstring;
  desc : jsstring;
  prompt : jsstring
}.
End Tool.

Definition tools : list Tool.t :=
  [ Tool.mk (lit "get_weather") (lit "Weather") (lit "Get weather for a city")
      (lit "What is the weather in London?");
    Tool.mk (lit "search_web") (lit "Web Search") (lit "Search the internet")
      (lit "Search the web for latest AI news");
    Tool.mk (lit "send_email") (lit "Send Email") (lit "Compose and send an email")
      (lit "Send an email to hr saying I will be late by 15 minutes");
    Tool.mk (lit "open_application") (lit "Open App") (lit "Open common applications")
      (lit "Open calculator");
    Tool.mk (lit "close_application") (lit "Close App") (lit "Close an application")
      (lit "Close calculator");
    Tool.mk (lit "open_website") (lit "Open Website") (lit "Open popular websites")
      (lit "Open YouTube");
    Tool.mk (lit "search_google") (lit "Google Search") (lit "Search in browser")
      (lit "Search Google for LiveKit agents");
    Tool.mk (lit "get_system_status") (lit "System Status")
      (lit "CPU, memory, disk, battery") (lit "What is my system status?");
    Tool.mk (lit "get_time_and_date") (lit "Time & Date") (lit "Current time and date")
      (lit "What is the time and date?");
    Tool.mk (lit "take_screenshot") (lit "Screenshot") (lit "Capture your screen")
      (lit "Take a screenshot") ].

(** The state of a freshly mounted component. *)
Definition initial_app : App :=
  mkApp None false false false false [] false None (lit "Unknown") [] false
        (S754_zero false) false false (EmailForm.mk [] [] []) false [] [] None.

(** [[entry, ...l].slice(0, 50)]. *)
Definition pushLog (e : LogEntry.t) (l : list LogEntry.t) : list LogEntry.t :=
  firstn 50 (e :: l).

(** [setLogs((l) => [{ ts: Date.now(), msg }, ...l].slice(0, 50))]. *)
Definition addLog (msg : jsstring) : M unit :=
  now <- Date_now ;;
  modify (fun a => setLogs_in (pushLog (LogEntry.mk now msg) (logs a)) a).

(** [setMessages((prev) => [...prev, entry])]. *)
Definition addMessage (entry : ChatEntry.t) : M unit :=
  modify (fun a => setMessages_in (messages a ++ [entry]) a).

(** [if (levelRafRef.current) cancelAnimationFrame(levelRafRef.current)]. *)
Definition cancelLevelRaf : M unit :=
  a <- get ;;
  match levelRafRef a with
  | Some h => if h =? 0 then ret tt else call (cancelAnimationFrame h)
  | None => ret tt
  end.

(* ------------------------------------------------------------------ *)
(** ** The microphone level meter *)

Definition binary64_of_Z (n : Z) : spec_float := binary_normalize 53 1024 n 0 false.

(** The binary64 number nearest to [n * 2 ^ e]. *)
Definition float_of (n e : Z) : spec_float := binary_normalize 53 1024 n e false.

(** [x] is the number [n * 2 ^ e], exactly. *)
Definition is_dyadic (x : spec_float) (n e : Z) : Prop :=
  match x with
  | S754_zero _ => n = 0
  | S754_finite false m em => em <= e /\ Zpos m = n * 2 ^ (e - em)
  | _ => False
  end.

Definition fadd := SFadd 53 1024.
Definition fsub := SFsub 53 1024.
Definition fmul := SFmul 53 1024.
Definition fdiv := SFdiv 53 1024.
Definition fsqrt := SFsqrt 53 1024.

Module Math.

Definition sqrt := fsqrt.

(** [Math.round]: the nearest integer, a tie going up; an integer, a zero,
    an infinity or NaN is returned as it is, and a result of zero keeps
    the sign of the argument. *)
Definition round (x : spec_float) : spec_float :=
  match x with
  | S754_finite s m e =>
      if 0 <=? e then x
      else
        let n := (2 * cond_Zopp s (Zpos m) + 2 ^ (- e)) / 2 ^ (- e + 1) in
        if n =? 0 then S754_zero s else binary64_of_Z n
  | _ => x
  end.

(** [Math.max(a, b)]: NaN if either is, and +0 above -0. *)
Definition max (a b : spec_float) : spec_float :=
  match SFcompare a b with
  | None => S754_nan
  | Some Lt => b
  | Some Gt => a
  | Some Eq =>
      match a with
      | S754_zero true => b
      | _ => a
      end
  end.

Definition min (a b : spec_float) : spec_float :=
  match SFcompare a b with
  | None => S754_nan
  | Some Lt => a
  | Some Gt => b
  | Some Eq =>
      match a with
      | S754_zero true => a
      | _ => b
      end
  end.

End Math.

(** [analyser.frequencyBinCount] for [analyser.fftSize = 2048]. *)
Definition frequencyBinCount : nat := 1024.

(** The loop of [tick]: [v = (dataArray[i] - 128) / 128; sum += v * v]. *)
Definition sample (b : byte) : spec_float :=
  fdiv (fsub (binary64_of_Z (Z_of_byte b)) (binary64_of_Z 128)) (binary64_of_Z 128).

Definition sum_squares (dataArray : list byte) : spec_float :=
  fold_left (fun sum b => fadd sum (fmul (sample b) (sample b)))
            dataArray (binary64_of_Z 0).

Definition rms (dataArray : list byte) : spec_float :=
  Math.sqrt (fdiv (sum_squares dataArray)
                  (binary64_of_Z (Z.of_nat (length dataArray)))).

(** The sum of the squares of the samples before they are normalised:
    [(dataArray[i] - 128) ^ 2], summed over the window. The mean of the
    squares of the normalised samples is this number over
    [128 ^ 2 * 1024 = 2 ^ 24]. *)
Definition energy (dataArray : list byte) : Z :=
  fold_left (fun sum b => sum + (Z_of_byte b - 128) ^ 2) dataArray 0.

(** [Math.min(100, Math.max(0, Math.round(rms * 220)))]. *)
Definition level (dataArray : list byte) : spec_float :=
  Math.min (binary64_of_Z 100)
           (Math.max (binary64_of_Z 0)
                     (Math.round (fmul (rms dataArray) (binary64_of_Z 220)))).

(** The same computation, from a mean square of [n / 2 ^ 24]. *)
Definition level_of_energy (n : Z) : spec_float :=
  Math.min (binary64_of_Z 100)
    (Math.max (binary64_of_Z 0)
       (Math.round (fmul (Math.sqrt (float_of n (-24))) (binary64_of_Z 220)))).

(** The specification's words, for comparison: the root-mean-square
    [sqrt (energy / 2 ^ 24)] scaled by 220 and rounded to the nearest
    integer, a tie going up, in integer arithmetic. It is [55 * sqrt energy
    / 1024]; the nearest integer [L] is the largest with
    [2 * L - 1 <= 55 * sqrt energy / 512], that is with
    [(2 * L - 1) ^ 2 <= 3025 * energy / 2 ^ 18]. *)
Definition nearest_level_of (energy : Z) : Z :=
  (Z.sqrt (3025 * energy / 2 ^ 18) + 1) / 2.

(** One animation frame: [dataArray] is what [getByteTimeDomainData] wrote,
    [next] the handle of the frame requested for the next tick. *)
Definition tick (dataArray : list byte) (next : Z) : M unit :=
  setMicLevel (level dataArray) ;;
  call (requestAnimationFrame next) ;;
  setLevelRafRef (Some next).

(** What happens inside [setupMicLevelAnalyser]: a failure (ignored), no
    published audio track yet (a capture is requested and the meter starts
    when it arrives), or the analyser is wired and the first frame requested
    with the handle given. *)
Inductive MeterSetup : Type :=
| MeterFails
| MeterPending
| MeterStarts (handle : Z).

Definition setupWithStream (handle : Z) : M unit :=
  cancelLevelRaf ;;
  call (requestAnimationFrame handle) ;;
  setLevelRafRef (Some handle).

Definition setupMicLevelAnalyser (m : MeterSetup) : M unit :=
  match m with
  | MeterStarts handle => setupWithStream handle
  | MeterPending => ret tt
  | MeterFails => ret tt
  end.

(** Not NaN and not negative: a zero, a positive number or +infinity. *)
Definition nonneg (x : spec_float) : Prop :=
  match x with
  | S754_zero _ => True
  | S754_finite s _ _ => s = false
  | S754_infinity s => s = false
  | S754_nan => False
  end.

(** A zero or a positive number. *)
Definition nonneg_finite (x : spec_float) : bool :=
  match x with
  | S754_zero _ => true
  | S754_finite s _ _ => negb s
  | _ => false
  end.

(* ------------------------------------------------------------------ *)
(** ** Room listeners ([setupRoomListeners]) *)

Inductive TrackKind : Type := audio | video.

Definition kind_name (k : TrackKind) : jsstring :=
  match k with
  | audio => lit "audio"
  | video => lit "video"
  end.

(** [identity.includes('agent') || identity.includes('nevira')]. *)
Definition isAgentIdentity (identity : jsstring) : bool :=
  includes identity (lit "agent") || includes identity (lit "nevira").

Definition onTrackSubscribed (kind : TrackKind) (identity : jsstring) : M unit :=
  addLog (lit "Subscribed " ++ kind_name kind ++ lit " from " ++ identity) ;;
  match kind with
  | audio =>
      call track_attach ;;
      if isAgentIdentity identity
      then setAgentSpeaking true ;; call (setTimeout_agentSpeaking 3000)
      else ret tt
  | video => ret tt
  end.

(** The timer set by [onTrackSubscribed] fires. *)
Definition onAgentSpeakingTimeout : M unit := setAgentSpeaking false.

Definition onLocalTrackPublished (isLocal : bool) (m : MeterSetup) : M unit :=
  try_catch (if isLocal then setupMicLevelAnalyser m else ret tt)
            (fun _ => ret tt).

(** [remote] is [room.remoteParticipants] at the time of the call. *)
Definition updateParticipants (remote : list jsstring) : M unit :=
  setParticipants
    (map (fun i => Participant.mk i (isAgentIdentity i)) remote).

Definition onParticipantConnected (identity : jsstring) (remote : list jsstring) : M unit :=
  addLog (lit "+ " ++ identity) ;;
  updateParticipants remote.

Definition onParticipantDisconnected (identity : jsstring) (remote : list jsstring) : M unit :=
  addLog (lit "- " ++ identity) ;;
  updateParticipants remote.

(** [speakers.some(s => s.isLocal)]. *)
Definition onActiveSpeakersChanged (speakers : list bool) : M unit :=
  setSpeaking (existsb (fun isLocal => isLocal) speakers).

Definition onDisconnected : M unit :=
  addLog (lit "Disconnected from room") ;;
  setConnected false ;;
  setRoom None ;;
  cancelLevelRaf.

Definition onConnectionQualityChanged (q : jsstring) (isLocal : bool) : M unit :=
  if isLocal then setQuality q else ret tt.

(** [JSON.parse(s)] as a computation. *)
Definition JSON_parse (s : jsstring) : M json :=
  match JSON.parse s with
  | Some v => ret v
  | None => throw SyntaxError
  end.

(** [data.k], for a property name [k] that no prototype defines ([type],
    [message], [text], [images], [token]): reading it on [null] throws, on
    an object it is the own property, on anything else it is [undefined]. *)
Definition prop (data : json) (k : jsstring) : M jsval :=
  match data with
  | JNull => throw TypeError
  | JObject ms => ret (lookup k ms)
  | _ => ret Undefined
  end.

Definition onDataReceived (payload : list byte) : M unit :=
  try_catch
    (data <- JSON_parse (TextDecoder.decode payload) ;;
     type <- prop data (lit "type") ;;
     if is_string type (lit "email_popup_trigger") then
       setShowEmailPopup true ;;
       addLog (lit "Email popup opened via voice command")
     else if is_string type (lit "assistant_message") then
       id <- Date_now ;;
       message <- prop data (lit "message") ;;
       text <- prop data (lit "text") ;;
       images <- prop data (lit "images") ;;
       timestamp <- Date_now ;;
       addMessage (ChatEntry.mk id assistant (or_else message text)
                                (or_else images (Val (JArray []))) timestamp)
     else ret tt)
    (fun _ =>
       let text := TextDecoder.decode payload in
       match text, trim text with
       | _ :: _, _ :: _ =>
           id <- Date_now ;;
           timestamp <- Date_now ;;
           addMessage (ChatEntry.mk id assistant (Val (JString text))
                                    (Val (JArray [])) timestamp)
       | _, _ => ret tt
       end).

(** The specification's words, for comparison: a payload parses as the
    [ControlMessage] union when it is the JSON text of an object whose
    [type] is one of the three tags. *)
Definition parses_as_ControlMessage (payload : list byte) : bool :=
  match JSON.parse (TextDecoder.decode payload) with
  | Some (JObject ms) =>
      let type := lookup (lit "type") ms in
      is_string type (lit "user_command") ||
      is_string type (lit "assistant_message") ||
      is_string type (lit "email_popup_trigger")
  | _ => false
  end.

(* ------------------------------------------------------------------ *)
(** ** Operations *)

Definition disconnectFromRoom (disconnected : settled unit) : M unit :=
  a <- get ;;
  match room a with
  | Some r =>
      call (Room_disconnect r) ;;
      await disconnected ;;
      setRoom None ;;
      setConnected false ;;
      setParticipants [] ;;
      cancelLevelRaf
  | None => ret tt
  end.

Definition toggleMute (enabled : settled unit) : M unit :=
  a <- get ;;
  match room a with
  | Some r =>
      let newMuted := negb (muted a) in
      call (setMicrophoneEnabled r (negb newMuted)) ;;
      await enabled ;;
      setMuted newMuted
  | None => ret tt
  end.

(** [new TextEncoder().encode(JSON.stringify({ type: 'user_command', text,
    ts }))], the two lines shared by [triggerTool], [handleEmailSubmit] and
    [sendMessage]. *)
Definition user_command (text : jsstring) (ts : Z) : list byte :=
  TextEncoder.encode
    (JSON.stringify [(lit "type", JSON.SString (lit "user_command"));
                     (lit "text", JSON.SString text);
                     (lit "ts", JSON.SInteger ts)]).

(** The third line the three handlers share is
    [await room.localParticipant.publishData(data, true)]. In the
    livekit-client interface the component is written against (the one
    with [room.remoteParticipants] and [getTrackPublications()]) the second
    parameter of [publishData] is an options object, and the packet is sent
    as [options.reliable ? DataPacket_Kind.RELIABLE : DataPacket_Kind.LOSSY].
    The library is not among the sources; the next three definitions follow
    its documented interface. *)
Inductive DataPacket_Kind : Type := RELIABLE | LOSSY.

(** [options.reliable], for an [options] other than [null]: the own
    property of an object, and [undefined] on a boolean, a number or a
    string, none of whose prototypes has such a property. *)
Definition options_reliable (options : json) : jsval :=
  match options with
  | JObject ms => lookup (lit "reliable") ms
  | _ => Undefined
  end.

Definition packet_kind (options : json) : DataPacket_Kind :=
  if truthy (options_reliable options) then RELIABLE else LOSSY.

(** How a call of [publishData] sends its packet. *)
Definition sent_as (c : Call) : option DataPacket_Kind :=
  match c with
  | publishData _ _ options => Some (packet_kind (JBool options))
  | _ => None
  end.

(** [published] is how [publishData] settles. *)
Definition triggerTool (t : Tool.t) (published : settled unit) : M unit :=
  a <- get ;;
  match connected a, room a with
  | true, Some r =>
      if jsstring_eqb (Tool.key t) (lit "send_email") then
        setShowEmailPopup true
      else
        try_catch
          (ts <- Date_now ;;
           call (publishData r (user_command (Tool.prompt t) ts) true) ;;
           await published ;;
           addLog (lit "Triggered tool: " ++ Tool.label t))
          (fun _ =>
             setError (Some (Text (lit
               "Failed to send command to assistant. Please speak the request."))))
  | _, _ => ret tt
  end.

Definition handleEmailSubmit (published : settled unit) : M unit :=
  a <- get ;;
  let form := emailForm a in
  match EmailForm.to form, EmailForm.subject form, EmailForm.body form with
  | _ :: _, _ :: _, _ :: _ =>
      match connected a, room a with
      | true, Some r =>
          setEmailSending true ;;
          try_catch
            (let emailCommand :=
               lit "Send an email to " ++ EmailForm.to form ++
               litq " with subject '" ++ EmailForm.subject form ++
               litq "' and message '" ++ EmailForm.body form ++ litq "'" in
             ts <- Date_now ;;
             call (publishData r (user_command emailCommand ts) true) ;;
             await published ;;
             addLog (lit "Sending email to " ++ EmailForm.to form) ;;
             setShowEmailPopup false ;;
             setEmailForm (EmailForm.mk [] [] []) ;;
             call (setTimeout_emailSent 1000))
            (fun _ =>
               setError (Some (Text (lit "Failed to send email command to assistant"))) ;;
               setEmailSending false)
      | _, _ => setError (Some (Text (lit "Not connected to assistant")))
      end
  | _, _, _ => setError (Some (Text (lit "Please fill in all email fields")))
  end.

(** The timer set by [handleEmailSubmit] fires. *)
Definition onEmailSentTimeout : M unit :=
  setShowEmailSentPopup true ;;
  setEmailSending false.

Definition handleEmailClose : M unit :=
  setShowEmailPopup false ;;
  setEmailForm (EmailForm.mk [] [] []).

Definition handleEmailSentClose : M unit := setShowEmailSentPopup false.

Definition sendMessage (published : settled unit) : M unit :=
  a <- get ;;
  match trim (inputMessage a), connected a, room a with
  | _ :: _, true, Some r =>
      id <- Date_now ;;
      timestamp <- Date_now ;;
      addMessage (ChatEntry.mk id user (Val (JString (inputMessage a)))
                               (Val (JArray [])) timestamp) ;;
      setInputMessage [] ;;
      try_catch
        (ts <- Date_now ;;
         call (publishData r (user_command (inputMessage a) ts) true) ;;
         await published)
        (fun _ =>
           setError (Some (Text (lit
             "Failed to send message. Please speak the request."))))
  | _, _, _ => ret tt
  end.

(* ------------------------------------------------------------------ *)
(** ** Connecting *)

(** What [fetch] resolves to. *)
Module Response.
Record t : Type := mk {
  status : Z;
  statusText : jsstring;
  body : jsstring
}.
Definition ok (r : t) : bool := (200 <=? status r) && (status r <=? 299).
End Response.

(** What the outside answers during one run of [connectToRoom]. *)
Record ConnectEnv : Type := mkConnectEnv {
  random : Z;                       (* Math.floor(Math.random() * 10000) *)
  newRoom : Room;                   (* new Room(...) *)
  fetched : settled Response.t;     (* fetch(TOKEN_SERVER, ...) *)
  room_connected : settled unit;    (* newRoom.connect(LIVEKIT_URL, token) *)
  microphone : settled unit;        (* setMicrophoneEnabled(true, ...) *)
  meter : MeterSetup                (* setupMicLevelAnalyser(newRoom) *)
}.

(** The body of the token request. *)
Definition token_request (identity : jsstring) : jsstring :=
  JSON.stringify [(lit "identity", JSON.SString identity);
                  (lit "roomName", JSON.SString ROOM_NAME)].

Definition getToken (identity : jsstring) (fetched : settled Response.t) : M jsval :=
  try_catch
    (call (fetch TOKEN_SERVER (token_request identity)) ;;
     response <- await fetched ;;
     if negb (Response.ok response) then
       throw (Error (lit "Token request failed: " ++ Response.statusText response))
     else
       data <- JSON_parse (Response.body response) ;;
       prop data (lit "token"))
    (fun err => throw err).

(** [setupRoomListeners(room)]: the eight listeners above are registered. *)
Definition setupRoomListeners (r : Room) : M unit := call (Room_on r).

(** The inner [try] around the audio context only logs a warning; it makes
    no call and changes no state that is modelled here. *)
Definition connectToRoom (env : ConnectEnv) : M unit :=
  setConnecting true ;;
  setError None ;;
  try_finally
    (try_catch
       (let identity := lit "user_" ++ Number_toString (random env) in
        token <- getToken identity (fetched env) ;;
        call (Room_new (newRoom env)) ;;
        setupRoomListeners (newRoom env) ;;
        call (Room_connect (newRoom env) LIVEKIT_URL token) ;;
        await (room_connected env) ;;
        call (setMicrophoneEnabled (newRoom env) true) ;;
        await (microphone env) ;;
        setupMicLevelAnalyser (meter env) ;;
        setRoom (Some (newRoom env)) ;;
        setConnected true)
       (fun err => setError (Some (message_of err))))
    (setConnecting false).

(** The connect button: rendered only while [!connected], and
    [disabled={connecting}]; a click on it runs [connectToRoom]. *)
Definition connectButton_enabled (a : App) : bool :=
  negb (connected a) && negb (connecting a).

Definition clickConnect (env : ConnectEnv) : M unit :=
  a <- get ;;
  if connectButton_enabled a then connectToRoom env else ret tt.

(** The effect on [autoConnect]:
    [if (autoConnect && !connected && !connecting) connectToRoom()]. *)
Definition autoConnectEffect (env : ConnectEnv) : M unit :=
  a <- get ;;
  if autoConnect a && negb (connected a) && negb (connecting a)
  then connectToRoom env
  else ret tt.

(* ------------------------------------------------------------------ *)
(** ** Preferences *)

(** The four cells that are kept in [localStorage] under [nevira_prefs].
    [fontSize] is a string ([String(...)] or the value of an input); [theme]
    and [selectedMicId] hold strings as long as the stored text is one that
    the component wrote. *)
Module Prefs.
Record t : Type := mk {
  autoConnect : bool;
  fontSize : jsstring;
  theme : jsstring;
  selectedMicId : jsstring
}.
End Prefs.

(** The state of these cells on a fresh mount. *)
Definition initial_prefs : Prefs.t :=
  Prefs.mk false (lit "16") (lit "dark") [].

(** [JSON.stringify({ autoConnect, fontSize, theme, selectedMicId })], the
    text the second effect stores. *)
Definition prefs_text (p : Prefs.t) : jsstring :=
  123 :: JSON.quote (lit "autoConnect") ++
  58 :: (if Prefs.autoConnect p then lit "true" else lit "false") ++
  44 :: JSON.stringify_members
          [(lit "fontSize", JSON.SString (Prefs.fontSize p));
           (lit "theme", JSON.SString (Prefs.theme p));
           (lit "selectedMicId", JSON.SString (Prefs.selectedMicId p))] ++
  [125].

(** A truthy member that is a string; [None] for a truthy member of another
    type, whose conversion ([String(prefs.fontSize)]) or storage in a cell
    is not written out here. *)
Definition string_member (v : jsval) (current : jsstring) : option jsstring :=
  match v with
  | Val (JString (c :: s)) => Some (c :: s)
  | _ => if truthy v then None else Some current
  end.

(** The first effect, on mount: [stored] is
    [localStorage.getItem('nevira_prefs')], [None] for [null]; [p] holds the
    cells before.  A text that is not JSON, or is [null], changes
    nothing. *)
Definition loadPrefs (stored : option jsstring) (p : Prefs.t) : option Prefs.t :=
  let text := match stored with
              | Some (c :: s) => c :: s
              | _ => lit "{}"
              end in
  match JSON.parse text with
  | Some (JObject ms) =>
      let autoConnect :=
        match lookup (lit "autoConnect") ms with
        | Undefined => Prefs.autoConnect p
        | v => truthy v
        end in
      match string_member (lookup (lit "fontSize") ms) (Prefs.fontSize p),
            string_member (lookup (lit "theme") ms) (Prefs.theme p),
            string_member (lookup (lit "selectedMicId") ms) (Prefs.selectedMicId p)
      with
      | Some fontSize, Some theme, Some selectedMicId =>
          Some (Prefs.mk autoConnect fontSize theme selectedMicId)
      | _, _, _ => None
      end
  | _ => Some p
  end.

(** A cell as it comes back: the stored string, or the current one when
    the stored string is empty. *)
Definition restored (stored current : jsstring) : jsstring :=
  match stored with
  | [] => current
  | _ => stored
  end.

(* ------------------------------------------------------------------ *)
(** ** Further handlers *)

(** The [onChange] of the microphone selector: the cell [selectedMicId]
    takes the chosen id, and on a component that holds a room the
    microphone is enabled on that device and the meter is wired again.
    (The device is an option of the call; options are not part of
    [Call].)  The result is the new cells and what the handler then does. *)
Definition onMicrophoneChange (id : jsstring) (enabled : settled unit)
    (m : MeterSetup) (p : Prefs.t) : Prefs.t * M unit :=
  (Prefs.mk (Prefs.autoConnect p) (Prefs.fontSize p) (Prefs.theme p) id,
   a <- get ;;
   match room a with
   | Some r =>
       call (setMicrophoneEnabled r true) ;;
       await enabled ;;
       setupMicLevelAnalyser m
   | None => ret tt
   end).

(** What the room was last asked about the microphone. *)
Fixpoint last_microphone (cs : list Call) : option bool :=
  match cs with
  | [] => None
  | setMicrophoneEnabled _ enabled :: _ => Some enabled
  | _ :: cs' => last_microphone cs'
  end.

(** [emailCommand] of [handleEmailSubmit]. *)
Definition emailCommand (form : EmailForm.t) : jsstring :=
  lit "Send an email to " ++ EmailForm.to form ++
  litq " with subject '" ++ EmailForm.subject form ++
  litq "' and message '" ++ EmailForm.body form ++ litq "'".

(** [!(!emailForm.to || !emailForm.subject || !emailForm.body)]: no field
    of the form is empty. *)
Definition filled (form : EmailForm.t) : bool :=
  match EmailForm.to form, EmailForm.subject form, EmailForm.body form with
  | _ :: _, _ :: _, _ :: _ => true
  | _, _, _ => false
  end.

(** A request for an animation frame, or the cancellation of one. *)
Definition frame_call (c : Call) : Prop :=
  exists h, c = requestAnimationFrame h \/ c = cancelAnimationFrame h.

(* ------------------------------------------------------------------ *)
(** ** The component as a machine *)

(** What can happen to a mounted component: an event of the room, a timer
    or an animation frame, or an action of the user. *)
Inductive Event : Type :=
| TrackSubscribed (kind : TrackKind) (identity : jsstring)
| AgentSpeakingTimeout
| LocalTrackPublished (isLocal : bool) (m : MeterSetup)
| UserMediaReady (handle : Z)
| ParticipantConnected (identity : jsstring) (remote : list jsstring)
| ParticipantDisconnected (identity : jsstring) (remote : list jsstring)
| ActiveSpeakersChanged (speakers : list bool)
| Disconnected
| ConnectionQualityChanged (q : jsstring) (isLocal : bool)
| DataReceived (payload : list byte)
| AnimationFrame (dataArray : list byte) (next : Z)
| ClickConnect (env : ConnectEnv)
| AutoConnect (env : ConnectEnv)
| ClickDisconnect (disconnected : settled unit)
| ClickMute (enabled : settled unit)
| ClickTool (t : Tool.t) (published : settled unit)
| EmailSubmit (published : settled unit)
| EmailSentTimeout
| EmailClose
| EmailSentClose
| ChangeEmailForm (form : EmailForm.t)
| ChangeInput (value : jsstring)
| ChangeAutoConnect (value : bool)
| SendMessage (published : settled unit).

Definition handle (e : Event) : M unit :=
  match e with
  | TrackSubscribed kind identity => onTrackSubscribed kind identity
  | AgentSpeakingTimeout => onAgentSpeakingTimeout
  | LocalTrackPublished isLocal m => onLocalTrackPublished isLocal m
  | UserMediaReady h => setupWithStream h
  | ParticipantConnected identity remote => onParticipantConnected identity remote
  | ParticipantDisconnected identity remote => onParticipantDisconnected identity remote
  | ActiveSpeakersChanged speakers => onActiveSpeakersChanged speakers
  | Disconnected => onDisconnected
  | ConnectionQualityChanged q isLocal => onConnectionQualityChanged q isLocal
  | DataReceived payload => onDataReceived payload
  | AnimationFrame dataArray next => tick dataArray next
  | ClickConnect env => clickConnect env
  | AutoConnect env => autoConnectEffect env
  | ClickDisconnect d => disconnectFromRoom d
  | ClickMute m => toggleMute m
  | ClickTool t p => triggerTool t p
  | EmailSubmit p => handleEmailSubmit p
  | EmailSentTimeout => onEmailSentTimeout
  | EmailClose => handleEmailClose
  | EmailSentClose => handleEmailSentClose
  | ChangeEmailForm form => setEmailForm form
  | ChangeInput value => setInputMessage value
  | ChangeAutoConnect value => setAutoConnect value
  | SendMessage p => sendMessage p
  end.

(** One event handled to its end; an exception that leaves a handler is a
    rejected promise nobody awaits. *)
Definition step (w : World) (e : Event) : World := snd (handle e w).

Definition run (events : list Event) (w : World) : World :=
  fold_left step events w.

Definition initial_world (clock : nat -> Z) : World :=
  mkWorld initial_app clock 0 [].

(* ================================================================== *)
(** * [token-server/server.js] *)

(** [parseInt(s, 10)]: leading white space, an optional sign, then the
    longest run of decimal digits; [None] is [NaN]. *)
Definition parseInt (s : jsstring) : option Z :=
  let s1 := trim_start s in
  let (neg, s2) :=
    match JSON.eat 45 s1, JSON.eat 43 s1 with
    | Some r, _ => (true, r)
    | None, Some r => (false, r)
    | None, None => (false, s1)
    end in
  match JSON.take_digits s2 with
  | ([], _) => None
  | (ds, _) =>
      Some (if neg then - JSON.digits_value ds else JSON.digits_value ds)
  end.

Module TokenServer.

(** What the room service knows of a room. *)
Record RoomInfo : Type := mkRoomInfo {
  participants : option (list jsstring)
}.

(** The surroundings of one request: the environment variable, how
    [roomService.getRoom(room)] settles for each room, and how
    [at.toJwt()] settles. *)
Record Env : Type := mkEnv {
  MAX_PARTICIPANTS : option jsstring;
  getRoom : jsval -> settled RoomInfo;
  toJwt : settled jsstring
}.

Inductive Body : Type :=
| error_body (error : jsstring)
| token_body (token : jsstring) (roomName : jsval).

Record Res : Type := mkRes { status : Z; body : Body }.

(** [process.env.MAX_PARTICIPANTS || '2'], through [parseInt(_, 10)]. *)
Definition maxParticipants (env : Env) : option Z :=
  parseInt match MAX_PARTICIPANTS env with
           | Some (c :: v) => c :: v
           | _ => lit "2"
           end.

(** The inner [try]: the members of the room, none when the query fails
    or reports no list. *)
Definition current_participants (env : Env) (room : jsval) : list jsstring :=
  match getRoom env room with
  | Fulfilled info =>
      match participants info with
      | Some ps => ps
      | None => []
      end
  | Rejected _ => []
  end.

(** [participants.length >= maxParticipants]; false when the limit is
    [NaN]. *)
Definition room_full (ps : list jsstring) (limit : option Z) : bool :=
  match limit with
  | Some m => m <=? Z.of_nat (length ps)
  | None => false
  end.

(** [const { identity, roomName } = req.body]: it throws when the body is
    [undefined] or [null]. *)
Definition destructure (req_body : jsval) : completion (jsval * jsval) :=
  match req_body with
  | Undefined => Throw TypeError
  | Val JNull => Throw TypeError
  | Val (JObject ms) =>
      Normal (lookup (lit "identity") ms, lookup (lit "roomName") ms)
  | Val _ => Normal (Undefined, Undefined)
  end.

(** The body of the outer [try] of [app.post('/token', ...)]. *)
Definition token_route (env : Env) (req_body : jsval) : completion Res :=
  match destructure req_body with
  | Throw e => Throw e
  | Normal (identity, roomName) =>
      if negb (truthy identity) then
        Normal (mkRes 400 (error_body (lit "identity is required")))
      else
        let room := or_else roomName (Val (JString (lit "nevira-room"))) in
        let limit := maxParticipants env in
        let ps := current_participants env room in
        if room_full ps limit then
          Normal (mkRes 403 (error_body (lit "Room is full. Please try again later.")))
        else
          match toJwt env with
          | Fulfilled token => Normal (mkRes 200 (token_body token room))
          | Rejected m => Throw (Error m)
          end
  end.

Definition post_token (env : Env) (req_body : jsval) : Res :=
  match token_route env req_body with
  | Normal res => res
  | Throw _ => mkRes 500 (error_body (lit "Failed to generate token"))
  end.

End TokenServer.

(** The room of a request that names none: [roomName || 'nevira-room']. *)
Definition default_room : jsval := Val (JString (lit "nevira-room")).

(** The surroundings of a request as [server.js] sets them up, with the
    default limit and a token that gets signed. [roomService] is a
    [RoomServiceClient] of livekit-server-sdk, a class that has no method
    [getRoom] (it queries with [listRooms] and [listParticipants]): the
    call [roomService.getRoom(room)] throws a [TypeError] inside the inner
    [try], whoever the [members] of the rooms are. *)
Definition room_service_env (members : jsval -> list jsstring) : TokenServer.Env :=
  TokenServer.mkEnv None
    (fun _ => Rejected (lit "roomService.getRoom is not a function"))
    (Fulfilled (lit "jwt")).

(** [res.json({ token, roomName: room })], for a room name that is a
    string: the text of the answer. *)
Definition token_response (token room : jsstring) : jsstring :=
  JSON.stringify [(lit "token", JSON.SString token);
                  (lit "roomName", JSON.SString room)].

(** The input ends, or goes on with something that is not a digit. *)
Definition no_digit_ahead (rest : jsstring) : Prop :=
  match rest with
  | [] => True
  | c :: _ => JSON.is_digit c = false
  end.

(* ------------------------------------------------------------------ *)
(** ** CORS *)

Module RegExp.

(** The patterns the sources use: literals, a class of digits, sequence,
    alternation and repetition. *)
Inductive t : Type :=
| Void                      (* matches nothing *)
| Empty                     (* matches the empty string *)
| Chr (c : Z)
| Digit                     (* \d *)
| Seq (a b : t)
| Alt (a b : t)
| Star (a : t).

(** [a+]. *)
Definition Plus (a : t) : t := Seq a (Star a).

(** A literal text. *)
Fixpoint Lit (s : jsstring) : t :=
  match s with
  | [] => Empty
  | c :: s' => Seq (Chr c) (Lit s')
  end.

Fixpoint nullable (r : t) : bool :=
  match r with
  | Void => false
  | Empty => true
  | Chr _ => false
  | Digit => false
  | Seq a b => nullable a && nullable b
  | Alt a b => nullable a || nullable b
  | Star _ => true
  end.

(** What is left of [r] to match after the code unit [c]. *)
Fixpoint derive (c : Z) (r : t) : t :=
  match r with
  | Void => Void
  | Empty => Void
  | Chr c' => if c =? c' then Empty else Void
  | Digit => if JSON.is_digit c then Empty else Void
  | Seq a b =>
      if nullable a
      then Alt (Seq (derive c a) b) (derive c b)
      else Seq (derive c a) b
  | Alt a b => Alt (derive c a) (derive c b)
  | Star a => Seq (derive c a) (Star a)
  end.

(** [/^r$/.test(s)]: the whole of [s] matches [r]. *)
Fixpoint test (r : t) (s : jsstring) : bool :=
  match s with
  | [] => nullable r
  | c :: s' => test (derive c r) s'
  end.

(** The strings a pattern denotes. *)
Inductive matches : t -> jsstring -> Prop :=
| m_empty : matches Empty []
| m_chr c : matches (Chr c) [c]
| m_digit c : JSON.is_digit c = true -> matches Digit [c]
| m_seq a b s1 s2 : matches a s1 -> matches b s2 -> matches (Seq a b) (s1 ++ s2)
| m_alt_l a b s : matches a s -> matches (Alt a b) s
| m_alt_r a b s : matches b s -> matches (Alt a b) s
| m_star_nil a : matches (Star a) []
| m_star_cons a s1 s2 :
    matches a s1 -> matches (Star a) s2 -> matches (Star a) (s1 ++ s2).

End RegExp.

(** [/^http:\/\/(localhost|127\.0\.0\.1):\d+$/]. *)
Definition dev_origin : RegExp.t :=
  RegExp.Seq (RegExp.Lit (lit "http://"))
    (RegExp.Seq (RegExp.Alt (RegExp.Lit (lit "localhost"))
                            (RegExp.Lit (lit "127.0.0.1")))
       (RegExp.Seq (RegExp.Chr 58) (RegExp.Plus RegExp.Digit))).

(** [allowedOrigins], given [process.env.CORS_ORIGIN]. *)
Definition allowedOrigins (CORS_ORIGIN : option jsstring) : list jsstring :=
  [ match CORS_ORIGIN with
    | Some (c :: s) => c :: s
    | _ => lit "http://localhost:5173"
    end;
    lit "http://localhost:5173";
    lit "http://127.0.0.1:5173" ].

(** What the [origin] function hands to its callback. *)
Inductive Verdict : Type :=
| Allowed
| Refused (message : jsstring).

(** The [origin] option of the [cors] middleware; [origin] is the request's
    [Origin] header, [None] when it has none. *)
Definition cors_origin (CORS_ORIGIN : option jsstring)
    (origin : option jsstring) : Verdict :=
  match origin with
  | None => Allowed
  | Some [] => Allowed
  | Some o =>
      if existsb (jsstring_eqb o) (allowedOrigins CORS_ORIGIN) then Allowed
      else if RegExp.test dev_origin o then Allowed
      else Refused (lit "CORS not allowed for origin: " ++ o)
  end.

(** [http://localhost:PORT] or [http://127.0.0.1:PORT], for a non-empty
    run of digits [PORT]. *)
Definition is_dev_origin (o : jsstring) : Prop :=
  exists host port,
    (host = lit "localhost" \/ host = lit "127.0.0.1") /\
    port <> [] /\ Forall (fun c => JSON.is_digit c = true) port /\
    o = lit "http://" ++ host ++ 58 :: port.

(* ================================================================== *)
(** * The contact manager ([ContactManager]) *)

Module Contact.
Record t : Type := mk { id : jsstring; name : jsstring; email : jsstring }.
End Contact.

Module ContactManager.

(** The [useState] cells of the component. *)
Record State : Type := mkState {
  contacts : list Contact.t;
  editing : option jsstring;
  name : jsstring;
  email : jsstring
}.

Definition startAdd (s : State) : State :=
  mkState (contacts s) None [] [].

Definition startEdit (c : Contact.t) (s : State) : State :=
  mkState (contacts s) (Some (Contact.id c)) (Contact.name c) (Contact.email c).

(** [idx = next.findIndex(x => x.id === editing); if (idx >= 0) next[idx] =
    { ...next[idx], name, email }]: the first contact with that id is
    rewritten. *)
Fixpoint rewrite_first (i name email : jsstring) (l : list Contact.t)
  : list Contact.t :=
  match l with
  | [] => []
  | c :: l' =>
      if jsstring_eqb (Contact.id c) i
      then Contact.mk (Contact.id c) name email :: l'
      else c :: rewrite_first i name email l'
  end.

(** [save]: the new state, and the list handed to [saveContacts] if any.
    [now] is what [Date.now()] returns. *)
Definition save (now : Z) (s : State) : State * option (list Contact.t) :=
  match trim (name s), trim (email s) with
  | _ :: _, _ :: _ =>
      let next :=
        match editing s with
        | Some (u :: i) =>
            rewrite_first (u :: i) (trim (name s)) (trim (email s)) (contacts s)
        | _ =>
            contacts s ++
            [Contact.mk (lit "c_" ++ Number_toString now)
                        (trim (name s)) (trim (email s))]
        end in
      (mkState next None [] [], Some next)
  | _, _ => (s, None)
  end.

(** [remove]: [contacts.filter(c => c.id !== id)]. *)
Definition remove (i : jsstring) (s : State) : State * option (list Contact.t) :=
  let next := filter (fun c => negb (jsstring_eqb (Contact.id c) i)) (contacts s) in
  (mkState next (editing s) (name s) (email s), Some next).

End ContactManager.

(** The id [save] gives a contact made at time [t]. *)
Definition contact_id (t : Z) : jsstring := lit "c_" ++ Number_toString t.

(* ================================================================== *)
(** * Invariants *)

(** The log holds at most 50 entries. *)
Definition logs_bounded (w : World) : Prop :=
  (length (logs (app w)) <= 50)%nat.

(** A computation that keeps the log within its capacity, however it
    ends. *)
Definition preserves {A} (c : M A) : Prop :=
  forall w, logs_bounded w -> logs_bounded (snd (c w)).

(** A computation all of whose runs relate the world they start in to the
    world they end in, however they end. *)
Definition respects (R : World -> World -> Prop) {A} (c : M A) : Prop :=
  forall w, R w (snd (c w)).

Definition same_session (w w' : World) : Prop :=
  connected (app w') = connected (app w) /\ room (app w') = room (app w).

(** [connected] says whether the component holds a room. *)
Definition in_session (a : App) : Prop :=
  connected a = match room a with Some _ => true | None => false end.

Definition chat_extends (w w' : World) : Prop :=
  exists l, messages (app w') = messages (app w) ++ l.

(** A call that is not [publishData], or one that publishes the bytes of
    a user command and passes [true] as second argument. *)
Definition publishes_command (c : Call) : Prop :=
  match c with
  | publishData _ data options =>
      options = true /\ exists text ts, data = user_command text ts
  | _ => True
  end.

Definition only_commands (w w' : World) : Prop :=
  Forall publishes_command (calls w) -> Forall publishes_command (calls w').

Definition monotone (time : nat -> Z) : Prop :=
  forall i j, (i <= j)%nat -> time i <= time j.

(** Every entry is at least as recent as the entries after it. *)
Fixpoint newest_first (l : list LogEntry.t) : Prop :=
  match l with
  | [] => True
  | e :: older =>
      Forall (fun e' => LogEntry.ts e' <= LogEntry.ts e) older /\
      newest_first older
  end.

(** The log is in order, and holds no time stamp later than the next
    reading of the clock. *)
Definition log_in_order (w : World) : Prop :=
  monotone (clock w) /\
  newest_first (logs (app w)) /\
  Forall (fun e => LogEntry.ts e <= clock w (reads w)) (logs (app w)).

Definition keeps_log_in_order (w w' : World) : Prop :=
  log_in_order w -> log_in_order w'.

(* ================================================================== *)
(** * Sample data *)

Definition sample_clock (n : nat) : Z := Z.of_nat n + 1700000000000.

(** A component connected to room 0, with the agent in the room and the
    meter running on animation frame 7. *)
Definition connected_app : App :=
  setParticipants_in [Participant.mk (lit "agent-nevira") true]
    (setLevelRafRef_in (Some 7)
       (setConnected_in true (setRoom_in (Some (RoomRef 0)) initial_app))).

Definition connected_world : World := mkWorld connected_app sample_clock 0 [].

(** A run of [connectToRoom] in which everything succeeds. *)
Definition sample_env : ConnectEnv :=
  mkConnectEnv 42 (RoomRef 1)
    (Fulfilled (Response.mk 200 (lit "OK")
                  (litq "{'token':'jwt','roomName':'nevira-room'}")))
    (Fulfilled tt) (Fulfilled tt) (MeterStarts 9).

(** Rooms that hold the agent and one user each. *)
Definition full_room (room : jsval) : list jsstring :=
  [lit "agent-nevira"; lit "user_1"].

Definition sample_form : EmailForm.t :=
  EmailForm.mk (lit "hr@example.com") (lit "Late") (lit "I will be late").

(** A token server with the default limit whose room holds the agent
    only. *)
Definition open_room_env : TokenServer.Env :=
  TokenServer.mkEnv None
    (fun _ => Fulfilled (TokenServer.mkRoomInfo (Some [lit "agent"])))
    (Fulfilled (lit "jwt")).

Definition sample_contacts : ContactManager.State :=
  ContactManager.mkState [Contact.mk (lit "c_1") (lit "Ann") (lit "ann@example.com");
           Contact.mk (lit "c_2") (lit "Bob") (lit "bob@example.com")]
          (Some (lit "c_2")) (lit " Robert ") (lit "rob@example.com").

(* ================================================================== *)
(** * Proofs *)

(* ------------------------------------------------------------------ *)
(** ** Arithmetic tactics and bytes *)

Ltac zlia := Z.to_euclidean_division_equations; lia.

Ltac zbool :=
  repeat match goal with
         | |- context [?a <=? ?b] =>
             first [ replace (a <=? b) with true by (symmetry; apply Z.leb_le; lia)
                   | replace (a <=? b) with false by (symmetry; apply Z.leb_gt; lia) ]
         | |- context [?a <? ?b] =>
             first [ replace (a <? b) with true by (symmetry; apply Z.ltb_lt; lia)
                   | replace (a <? b) with false by (symmetry; apply Z.ltb_ge; lia) ]
         | |- context [?a =? ?b] =>
             first [ replace (a =? b) with true by (symmetry; apply Z.eqb_eq; lia)
                   | replace (a =? b) with false by (symmetry; apply Z.eqb_neq; lia) ]
         end;
  cbn [andb orb negb].

Lemma Z_of_byte_of_Z (z : Z) : 0 <= z < 256 -> Z_of_byte (byte_of_Z z) = z.
Proof.
  intros Hz. unfold Z_of_byte, byte_of_Z.
  destruct (Byte.of_N (Z.to_N z)) as [b|] eqn:E.
  - apply Byte.to_of_N in E. rewrite E. lia.
  - apply Byte.of_N_None_iff in E. lia.
Qed.

(* ------------------------------------------------------------------ *)
(** ** UTF-8: decoding what the encoder wrote *)

(** The digits of a code point in base 64, as the encoder takes them. *)
Lemma split2 (c : Z) :
  exists a d, c / 64 = a /\ c mod 64 = d /\ c = 64 * a + d /\ 0 <= d < 64.
Proof. exists (c / 64), (c mod 64). repeat split; zlia. Qed.

Lemma split3 (c : Z) :
  exists a b d,
    c / 4096 = a /\ (c / 64) mod 64 = b /\ c mod 64 = d /\
    c = 4096 * a + 64 * b + d /\ 0 <= b < 64 /\ 0 <= d < 64.
Proof.
  exists (c / 4096), ((c / 64) mod 64), (c mod 64). repeat split; zlia.
Qed.

Lemma split4 (c : Z) :
  exists a b e d,
    c / 262144 = a /\ (c / 4096) mod 64 = b /\ (c / 64) mod 64 = e /\
    c mod 64 = d /\
    c = 262144 * a + 4096 * b + 64 * e + d /\
    0 <= b < 64 /\ 0 <= e < 64 /\ 0 <= d < 64.
Proof.
  exists (c / 262144), ((c / 4096) mod 64), ((c / 64) mod 64), (c mod 64).
  repeat split; zlia.
Qed.

Ltac decode_byte :=
  cbn [TextDecoder.run List.app]; rewrite Z_of_byte_of_Z by lia;
  unfold TextDecoder.step, TextDecoder.lead;
  cbn [TextDecoder.bytes_needed TextDecoder.lower_boundary
       TextDecoder.upper_boundary TextDecoder.code_point TextDecoder.initial].

Lemma utf8_code_point (c : Z) (bs : list byte) :
  0 <= c < 1114112 -> ~ (55296 <= c <= 57343) ->
  TextDecoder.run TextDecoder.initial (TextEncoder.encode_code_point c ++ bs) =
  c :: TextDecoder.run TextDecoder.initial bs.
Proof.
  intros Hc Hs. unfold TextEncoder.encode_code_point.
  destruct (Z.ltb_spec c 128); [|destruct (Z.ltb_spec c 2048);
    [|destruct (Z.ltb_spec c 65536)]].
  - decode_byte. zbool. reflexivity.
  - destruct (split2 c) as (a & d & -> & -> & E & Hd).
    decode_byte. zbool. decode_byte. zbool. cbn [List.app]. f_equal. lia.
  - destruct (split3 c) as (a & b & d & -> & -> & -> & E & Hb & Hd).
    decode_byte. zbool.
    destruct (Z.eqb_spec (224 + a) 224) as [E1|E1];
    destruct (Z.eqb_spec (224 + a) 237) as [E2|E2];
      decode_byte; zbool; decode_byte; zbool; cbn [List.app]; f_equal; lia.
  - destruct (split4 c) as (a & b & e & d & -> & -> & -> & -> & E & Hb & He & Hd).
    decode_byte. zbool.
    destruct (Z.eqb_spec (240 + a) 240) as [E1|E1];
    destruct (Z.eqb_spec (240 + a) 244) as [E2|E2];
      decode_byte; zbool; decode_byte; zbool; decode_byte; zbool;
      cbn [List.app]; f_equal; lia.
Qed.

Lemma utf16_of_pair (u v : Z) :
  is_high_surrogate u = true -> is_low_surrogate v = true ->
  utf16_of_code_point (pair_code_point u v) = [u; v] /\
  65536 <= pair_code_point u v < 1114112.
Proof.
  unfold is_high_surrogate, is_low_surrogate, utf16_of_code_point, pair_code_point.
  rewrite !andb_true_iff, !Z.leb_le. intros [H1 H2] [H3 H4].
  zbool. split; [f_equal; [zlia | f_equal; zlia] | lia].
Qed.

Lemma well_formed_cons (u : Z) (rest : jsstring) :
  well_formed (u :: rest) = true ->
  (is_high_surrogate u = true /\
   exists v rest', rest = v :: rest' /\ is_low_surrogate v = true /\
                   well_formed rest' = true) \/
  (is_high_surrogate u = false /\ is_low_surrogate u = false /\
   0 <= u < 65536 /\ well_formed rest = true).
Proof.
  cbn [well_formed]. destruct (is_high_surrogate u) eqn:Eh.
  - destruct rest as [|v rest']; [discriminate|].
    rewrite andb_true_iff. intros [Hl Hw]. left. split; [reflexivity|].
    now exists v, rest'.
  - destruct (is_low_surrogate u) eqn:El; [discriminate|].
    rewrite !andb_true_iff, Z.leb_le, Z.ltb_lt. intros [[H1 H2] Hw].
    right. repeat split; assumption.
Qed.

Lemma utf8_roundtrip_bounded (n : nat) (s : jsstring) :
  (length s <= n)%nat -> well_formed s = true ->
  flat_map utf16_of_code_point
    (TextDecoder.run TextDecoder.initial (TextEncoder.encode s)) = s /\
  hd 0 (TextDecoder.run TextDecoder.initial (TextEncoder.encode s)) =
    match s with
    | u :: v :: _ => if is_high_surrogate u then pair_code_point u v else u
    | _ => hd 0 s
    end.
Proof.
  revert s. induction n as [|n IH]; intros [|u rest] Hn Hw;
    try (split; reflexivity); [simpl in Hn; lia|].
  destruct (well_formed_cons _ _ Hw)
    as [(Hh & v & rest' & -> & Hl & Hw') | (Hh & Hl & Hu & Hw')].
  - cbn [TextEncoder.encode]. rewrite Hh, Hl.
    destruct (utf16_of_pair u v Hh Hl) as [E Hr].
    rewrite utf8_code_point by lia.
    cbn [flat_map hd]. rewrite E.
    destruct (IH rest') as [-> _]; [simpl in Hn; lia | exact Hw' |].
    split; reflexivity.
  - cbn [TextEncoder.encode]. rewrite Hh, Hl.
    unfold is_high_surrogate, is_low_surrogate in Hh, Hl.
    rewrite andb_false_iff, !Z.leb_gt in Hh, Hl.
    rewrite utf8_code_point by lia.
    cbn [flat_map hd]. unfold utf16_of_code_point at 1.
    replace (u <? 65536) with true by (symmetry; apply Z.ltb_lt; lia).
    destruct (IH rest) as [-> _]; [simpl in Hn; lia | exact Hw' |].
    split; [reflexivity|]. destruct rest; reflexivity.
Qed.

(** A well-formed string that does not start with a byte order mark is
    what [TextDecoder] reads from what [TextEncoder] wrote. *)
Lemma decode_encode (s : jsstring) :
  well_formed s = true -> hd 0 s <> 65279 ->
  TextDecoder.decode (TextEncoder.encode s) = s.
Proof.
  intros Hw Hb.
  destruct (utf8_roundtrip_bounded (length s) s (le_n _) Hw) as [E Hhd].
  unfold TextDecoder.decode, TextDecoder.strip_bom.
  destruct (TextDecoder.run TextDecoder.initial (TextEncoder.encode s))
    as [|c cps] eqn:Er; [exact E|].
  destruct (Z.eqb_spec c 65279) as [->|Hc]; [|exact E].
  exfalso. cbn [hd] in Hhd. destruct s as [|u [|v rest]]; cbn [hd] in *.
  - discriminate E.
  - congruence.
  - destruct (is_high_surrogate u) eqn:Eh; [|congruence].
    destruct (well_formed_cons _ _ Hw)
      as [(_ & v' & rest' & [= <- <-] & Hl & _) | (Hh & _)]; [|congruence].
    destruct (utf16_of_pair u v Eh Hl) as [_ Hr]. lia.
Qed.

(* ------------------------------------------------------------------ *)
(** ** JSON strings: lexing what was quoted *)

Lemma hex_value_digit (d : Z) :
  0 <= d < 16 -> JSON.hex_value (JSON.hex_digit d) = Some d.
Proof.
  intros Hd. unfold JSON.hex_value, JSON.hex_digit.
  destruct (Z.ltb_spec d 10); zbool; f_equal; lia.
Qed.

Lemma hex4_escape (u : Z) :
  0 <= u < 65536 ->
  JSON.hex4 (JSON.hex_digit (u / 4096)) (JSON.hex_digit ((u / 256) mod 16))
            (JSON.hex_digit ((u / 16) mod 16)) (JSON.hex_digit (u mod 16)) =
  Some u.
Proof.
  intros Hu. unfold JSON.hex4.
  rewrite !hex_value_digit by zlia. f_equal. zlia.
Qed.

Lemma lex_string_escape (u : Z) (rest : jsstring) :
  0 <= u < 65536 ->
  JSON.lex_string (JSON.unicode_escape u ++ rest) =
  JSON.cons_char u (JSON.lex_string rest).
Proof.
  intros Hu. unfold JSON.unicode_escape. cbn [List.app JSON.lex_string].
  rewrite hex4_escape by exact Hu. reflexivity.
Qed.

(** A character that the serialiser copies. *)
Lemma lex_string_copy (u : Z) (rest : jsstring) :
  32 <= u -> u <> 34 -> u <> 92 ->
  JSON.lex_string (u :: rest) = JSON.cons_char u (JSON.lex_string rest).
Proof. intros. cbn [JSON.lex_string]. zbool. reflexivity. Qed.

Lemma lex_string_quote_body_bounded (n : nat) (t rest : jsstring) :
  (length t <= n)%nat -> Forall is_code_unit t ->
  JSON.lex_string (JSON.quote_body t ++ 34 :: rest) = Some (t, rest).
Proof.
  revert t. induction n as [|n IH]; intros [|u t] Hn Ht;
    try reflexivity; [simpl in Hn; lia|].
  inversion Ht as [|? ? Hu Ht']; subst. unfold is_code_unit in Hu.
  assert (IHt : JSON.lex_string (JSON.quote_body t ++ 34 :: rest) = Some (t, rest))
    by (apply IH; [simpl in Hn; lia | exact Ht']).
  cbn [JSON.quote_body].
  destruct (Z.eqb_spec u 8) as [->|]; [cbn; rewrite IHt; reflexivity|].
  destruct (Z.eqb_spec u 9) as [->|]; [cbn; rewrite IHt; reflexivity|].
  destruct (Z.eqb_spec u 10) as [->|]; [cbn; rewrite IHt; reflexivity|].
  destruct (Z.eqb_spec u 12) as [->|]; [cbn; rewrite IHt; reflexivity|].
  destruct (Z.eqb_spec u 13) as [->|]; [cbn; rewrite IHt; reflexivity|].
  destruct (Z.eqb_spec u 34) as [->|]; [cbn; rewrite IHt; reflexivity|].
  destruct (Z.eqb_spec u 92) as [->|]; [cbn; rewrite IHt; reflexivity|].
  destruct (Z.ltb_spec u 32).
  { rewrite <- app_assoc, lex_string_escape, IHt by lia. reflexivity. }
  destruct (is_high_surrogate u) eqn:Eh.
  - destruct t as [|v t'].
    + rewrite lex_string_escape by lia. reflexivity.
    + destruct (is_low_surrogate v) eqn:El.
      * inversion Ht' as [|? ? Hv Ht'']; subst. unfold is_code_unit in Hv.
        unfold is_low_surrogate in El. rewrite andb_true_iff, !Z.leb_le in El.
        cbn [List.app]. rewrite lex_string_copy by lia.
        rewrite lex_string_copy by lia.
        rewrite IH by (simpl in Hn; try lia; exact Ht''). reflexivity.
      * rewrite <- app_assoc, lex_string_escape, IHt by lia. reflexivity.
  - destruct (is_low_surrogate u).
    + rewrite <- app_assoc, lex_string_escape, IHt by lia. reflexivity.
    + cbn [List.app]. rewrite lex_string_copy, IHt by lia. reflexivity.
Qed.

Lemma lex_string_quote_body (t rest : jsstring) :
  Forall is_code_unit t ->
  JSON.lex_string (JSON.quote_body t ++ 34 :: rest) = Some (t, rest).
Proof. apply (lex_string_quote_body_bounded (length t)). apply le_n. Qed.

(* ------------------------------------------------------------------ *)
(** ** Decimal numerals *)

Lemma digits_fuel_spec (fuel : nat) (n : Z) (acc : jsstring) :
  0 <= n < 10 ^ Z.of_nat fuel -> (0 < fuel)%nat ->
  exists ds,
    digits_fuel fuel n acc = ds ++ acc /\
    is_decimal ds /\
    (forall v, fold_left (fun a d => 10 * a + (d - 48)) ds v =
               v * 10 ^ Z.of_nat (length ds) + n) /\
    (exists d ds', ds = d :: ds' /\ (d = 48 -> n = 0 /\ ds' = [])).
Proof.
  revert n acc. induction fuel as [|fuel IH]; intros n acc Hn Hf; [lia|].
  cbn [digits_fuel]. destruct (Z.ltb_spec n 10) as [Hlt|Hge].
  - exists [48 + n mod 10]. rewrite Z.mod_small by lia.
    split; [reflexivity|]. split; [constructor; [lia|constructor]|]. split.
    + intros v. cbn [fold_left length]. change (10 ^ Z.of_nat 1) with 10. lia.
    + exists (48 + n), []. split; [reflexivity|]. intros E. split; [lia|reflexivity].
  - destruct fuel as [|fuel]; [cbn in Hn; lia|].
    destruct (IH (n / 10) ((48 + n mod 10) :: acc)) as (ds & E & Hd & Hv & Hh).
    { rewrite Nat2Z.inj_succ, Z.pow_succ_r in Hn by lia.
      split; [apply Z.div_pos; lia | apply Z.div_lt_upper_bound; lia]. }
    { lia. }
    exists (ds ++ [48 + n mod 10]). rewrite E, <- app_assoc.
    split; [reflexivity|]. split.
    { apply Forall_app. split; [exact Hd|]. constructor; [|constructor].
      pose proof (Z.mod_pos_bound n 10). lia. }
    split.
    + intros v. rewrite fold_left_app, Hv. cbn [fold_left].
      rewrite length_app, Nat2Z.inj_add. cbn [length].
      rewrite Z.pow_add_r by lia. change (10 ^ Z.of_nat 1) with 10.
      pose proof (Z.div_mod n 10). lia.
    + destruct Hh as (d & ds' & -> & Hz). exists d, (ds' ++ [48 + n mod 10]).
      split; [reflexivity|]. intros E0. destruct (Hz E0) as [Hq _].
      exfalso. assert (n / 10 > 0) by (apply Z.lt_gt, Z.div_str_pos; lia). lia.
Qed.

Lemma digits_spec (n : Z) :
  0 <= n ->
  is_decimal (digits n) /\
  JSON.digits_value (digits n) = n /\
  (exists d ds', digits n = d :: ds' /\ (d = 48 -> ds' = [])).
Proof.
  intros Hn. unfold digits.
  destruct (digits_fuel_spec (S (Z.to_nat (Z.log2 n))) n [])
    as (ds & E & Hd & Hv & d & ds' & -> & Hz).
  - split; [exact Hn|]. rewrite Nat2Z.inj_succ, Z2Nat.id by apply Z.log2_nonneg.
    destruct (Z.eq_dec n 0) as [->|Hnz]; [reflexivity|].
    pose proof (Z.log2_spec n ltac:(lia)) as [_ H2].
    apply Z.lt_le_trans with (1 := H2).
    apply Z.pow_le_mono_l. pose proof (Z.log2_nonneg n). lia.
  - lia.
  - rewrite E, app_nil_r. split; [exact Hd|]. split.
    + unfold JSON.digits_value. rewrite Hv. lia.
    + exists d, ds'. split; [reflexivity|]. intros E0. now destruct (Hz E0).
Qed.

(* ------------------------------------------------------------------ *)
(** ** JSON numbers: lexing a decimal numeral *)

Lemma take_digits_app (ds rest : jsstring) :
  is_decimal ds -> follows rest ->
  JSON.take_digits (ds ++ rest) = (ds, rest).
Proof.
  intros Hd (c & r & -> & Hc). induction Hd as [|d ds Hd _ IH].
  - cbn. unfold JSON.is_digit. destruct Hc as [-> | ->]; reflexivity.
  - cbn [List.app JSON.take_digits]. unfold JSON.is_digit at 1. zbool.
    rewrite IH. reflexivity.
Qed.

Lemma eat_other (c x : Z) (r : jsstring) :
  x <> c -> JSON.eat c (x :: r) = None.
Proof. intros H. unfold JSON.eat. now destruct (Z.eqb_spec x c). Qed.

Lemma lex_tail (rest : jsstring) :
  follows rest ->
  JSON.lex_fraction rest = Some ([], rest) /\
  JSON.lex_exponent rest = Some (0, rest).
Proof. intros (c & r & -> & [-> | ->]); split; reflexivity. Qed.

Lemma lex_number_digits (n : Z) (rest : jsstring) :
  0 <= n -> follows rest ->
  JSON.lex_number (digits n ++ rest) = Some (mkNumber false n 0, rest) /\
  JSON.lex_number (45 :: digits n ++ rest) = Some (mkNumber true n 0, rest).
Proof.
  intros Hn Hf. destruct (digits_spec n Hn) as (Hd & Hv & d & ds & E & Hz).
  assert (Hd0 : 48 <= d <= 57) by (rewrite E in Hd; now inversion Hd).
  assert (Et : JSON.take_digits (digits n ++ rest) = (d :: ds, rest))
    by (rewrite <- E; now apply take_digits_app).
  destruct (lex_tail rest Hf) as [Hfrac Hexp].
  assert (Hbody :
    forall neg,
      match JSON.take_digits (digits n ++ rest) with
      | ([], _) => None
      | (d :: ds, r) =>
          if (d =? 48) && negb (match ds with [] => true | _ => false end)
          then
            match JSON.lex_fraction (ds ++ r) with
            | Some (fs, r1) =>
                match JSON.lex_exponent r1 with
                | Some (e, r2) =>
                    Some (mkNumber neg (JSON.digits_value fs)
                                   (e - Z.of_nat (length fs)), r2)
                | None => None
                end
            | None => None
            end
          else
            match JSON.lex_fraction r with
            | Some (fs, r1) =>
                match JSON.lex_exponent r1 with
                | Some (e, r2) =>
                    Some (mkNumber neg (JSON.digits_value ((d :: ds) ++ fs))
                                   (e - Z.of_nat (length fs)), r2)
                | None => None
                end
            | None => None
            end
      end = Some (mkNumber neg n 0, rest)).
  { intros neg. rewrite Et.
    destruct (Z.eqb_spec d 48) as [->|Hd48].
    - rewrite (Hz eq_refl) in *. cbn [andb negb].
      rewrite Hfrac, Hexp, app_nil_r, <- E, Hv. reflexivity.
    - cbn [andb]. rewrite Hfrac, Hexp, app_nil_r, <- E, Hv. reflexivity. }
  split.
  - assert (He : JSON.eat 45 (digits n ++ rest) = None)
      by (rewrite E; cbn [List.app]; apply eat_other; lia).
    unfold JSON.lex_number. rewrite He. apply Hbody.
  - unfold JSON.lex_number. cbn [JSON.eat]. cbn [Z.eqb Pos.eqb].
    apply Hbody.
Qed.

(* ------------------------------------------------------------------ *)
(** ** JSON objects: parsing what was serialised *)

Lemma parse_value_string (f : nat) (s rest : jsstring) :
  Forall is_code_unit s ->
  JSON.parse_value (S f) (JSON.quote s ++ rest) = POk (JString s) rest.
Proof.
  intros Hs. unfold JSON.quote. cbn [List.app]. rewrite <- app_assoc. cbn [List.app].
  cbn [JSON.parse_value JSON.skip_ws]. 
  change (JSON.is_ws 34) with false. cbv iota.
  change (34 =? 123) with false. change (34 =? 91) with false.
  change (34 =? 34) with true. cbv iota.
  rewrite lex_string_quote_body by exact Hs. reflexivity.
Qed.

Lemma parse_value_digit (f : nat) (d : Z) (s : jsstring) :
  48 <= d <= 57 ->
  JSON.parse_value (S f) (d :: s) =
  match JSON.lex_number (d :: s) with
  | Some (n, r') => POk (JNumber n) r'
  | None => PSyntaxError
  end.
Proof.
  intros Hd.
  assert (Hsw : forall c p, c <> d -> starts_with (c :: p) (d :: s) = false).
  { intros c p Hc. cbn [starts_with].
    destruct (Z.eqb_spec c d); [contradiction|reflexivity]. }
  cbn [JSON.parse_value JSON.skip_ws]. unfold JSON.is_ws. zbool. zbool.
  change (lit "null") with [110; 117; 108; 108].
  change (lit "true") with [116; 114; 117; 101].
  change (lit "false") with [102; 97; 108; 115; 101].
  rewrite !Hsw by lia. reflexivity.
Qed.

Lemma parse_value_integer (f : nat) (n : Z) (rest : jsstring) :
  follows rest ->
  JSON.parse_value (S f) (Number_toString n ++ rest) =
  POk (JNumber (mkNumber (n <? 0) (Z.abs n) 0)) rest.
Proof.
  intros Hf. unfold Number_toString. destruct (Z.ltb_spec n 0) as [Hn|Hn].
  - destruct (lex_number_digits (- n) rest ltac:(lia) Hf) as [_ E].
    cbn [List.app]. cbn [JSON.parse_value JSON.skip_ws].
    change (JSON.is_ws 45) with false. cbv iota.
    change (45 =? 123) with false. change (45 =? 91) with false.
    change (45 =? 34) with false. cbv iota.
    change (starts_with (lit "null") (45 :: digits (- n) ++ rest)) with false.
    change (starts_with (lit "true") (45 :: digits (- n) ++ rest)) with false.
    change (starts_with (lit "false") (45 :: digits (- n) ++ rest)) with false.
    cbv iota. rewrite E. replace (Z.abs n) with (- n) by lia. reflexivity.
  - destruct (lex_number_digits n rest Hn Hf) as [E _].
    destruct (digits_spec n Hn) as (Hd & _ & d & ds & Ed & _).
    assert (Hd0 : 48 <= d <= 57) by (rewrite Ed in Hd; now inversion Hd).
    rewrite Ed in *. cbn [List.app] in *. rewrite parse_value_digit by exact Hd0.
    rewrite E. replace (Z.abs n) with n by lia. reflexivity.
Qed.

Lemma parse_value_scalar (f : nat) (v : JSON.scalar) (rest : jsstring) :
  JSON.scalar_ok v -> follows rest ->
  JSON.parse_value (S f) (JSON.stringify_scalar v ++ rest) =
  POk (JSON.value_of v) rest.
Proof.
  intros Hv Hf. destruct v as [s|n]; cbn [JSON.stringify_scalar JSON.value_of].
  - now apply parse_value_string.
  - now apply parse_value_integer.
Qed.

Lemma stringify_members_cons (k : jsstring) (v : JSON.scalar)
    (ms : list (jsstring * JSON.scalar)) (rest : jsstring) :
  exists tail,
    JSON.stringify_members ((k, v) :: ms) ++ 125 :: rest =
      34 :: JSON.quote_body k ++ 34 :: 58 :: JSON.stringify_scalar v ++ tail /\
    follows tail /\
    tail = match ms with
           | [] => 125 :: rest
           | _ :: _ => 44 :: JSON.stringify_members ms ++ 125 :: rest
           end.
Proof.
  destruct ms as [|m ms].
  - exists (125 :: rest). split; [|split; [|reflexivity]].
    + cbn [JSON.stringify_members]. unfold JSON.quote.
      cbn [List.app]. rewrite <- !app_assoc. reflexivity.
    + exists 125, rest. split; [reflexivity | now right].
  - exists (44 :: JSON.stringify_members (m :: ms) ++ 125 :: rest).
    split; [|split; [|reflexivity]].
    + change (JSON.stringify_members ((k, v) :: m :: ms))
        with (JSON.quote k ++ 58 :: JSON.stringify_scalar v ++
              44 :: JSON.stringify_members (m :: ms)).
      unfold JSON.quote. cbn [List.app]. rewrite <- !app_assoc. cbn [List.app].
      rewrite <- !app_assoc. reflexivity.
    + eexists 44, _. split; [reflexivity | now left].
Qed.

Lemma parse_members_eq (f : nat) (s : jsstring) (acc : list (jsstring * json)) :
  JSON.parse_members (S f) s acc =
  match JSON.eat 34 (JSON.skip_ws s) with
  | Some r =>
      match JSON.lex_string r with
      | Some (k, r1) =>
          match JSON.eat 58 (JSON.skip_ws r1) with
          | Some r2 =>
              match JSON.parse_value f r2 with
              | POk v r3 =>
                  match JSON.skip_ws r3 with
                  | c :: r4 =>
                      if c =? 44 then JSON.parse_members f r4 ((k, v) :: acc)
                      else if c =? 125 then POk (JObject (rev ((k, v) :: acc))) r4
                      else PSyntaxError
                  | [] => PSyntaxError
                  end
              | PSyntaxError => PSyntaxError
              | PFuel => PFuel
              end
          | None => PSyntaxError
          end
      | None => PSyntaxError
      end
  | None => PSyntaxError
  end.
Proof. reflexivity. Qed.

Lemma parse_members_stringify (ms : list (jsstring * JSON.scalar)) :
  forall (f : nat) (acc : list (jsstring * json)) (rest : jsstring),
  ms <> [] -> (length ms < f)%nat -> Forall JSON.member_ok ms ->
  JSON.parse_members f (JSON.stringify_members ms ++ 125 :: rest) acc =
  POk (JObject (rev acc ++ map JSON.member_of ms)) rest.
Proof.
  induction ms as [|[k v] ms IH]; intros f acc rest Hne Hf Hok; [congruence|].
  inversion Hok as [|? ? [Hk Hv] Hok']; subst. cbn [fst snd] in *.
  destruct f as [|f]; [cbn in Hf; lia|].
  rewrite parse_members_eq.
  destruct f as [|f]; [cbn in Hf; lia|].
  destruct (stringify_members_cons k v ms rest) as (tail & -> & Hfo & Etail).
  cbn [JSON.skip_ws]. change (JSON.is_ws 34) with false. cbv iota.
  cbn [JSON.eat]. change (34 =? 34) with true. cbv iota.
  rewrite lex_string_quote_body by exact Hk.
  cbn [JSON.skip_ws]. change (JSON.is_ws 58) with false. cbv iota.
  cbn [JSON.eat]. change (58 =? 58) with true. cbv iota.
  rewrite parse_value_scalar by assumption.
  destruct ms as [|m ms]; subst tail.
  - cbn [JSON.skip_ws]. change (JSON.is_ws 125) with false. cbv iota.
    change (125 =? 44) with false. change (125 =? 125) with true. cbv iota.
    cbn [rev map JSON.member_of fst snd]. reflexivity.
  - cbn [JSON.skip_ws]. change (JSON.is_ws 44) with false. cbv iota.
    change (44 =? 44) with true. cbv iota.
    rewrite IH; [|discriminate | cbn [length] in *; lia | exact Hok'].
    cbn [rev]. rewrite <- app_assoc. reflexivity.
Qed.

Lemma stringify_members_length (ms : list (jsstring * JSON.scalar)) :
  (length ms <= length (JSON.stringify_members ms))%nat.
Proof.
  induction ms as [|[k v] [|m ms] IH].
  - apply le_n.
  - cbn [JSON.stringify_members JSON.quote length List.app]. lia.
  - change (JSON.stringify_members ((k, v) :: m :: ms))
      with (JSON.quote k ++ 58 :: JSON.stringify_scalar v ++
            44 :: JSON.stringify_members (m :: ms)).
    rewrite length_app. cbn [length]. rewrite length_app. cbn [length] in *. lia.
Qed.

(** [JSON.parse] reads back what [JSON.stringify] wrote. *)
Lemma parse_stringify (ms : list (jsstring * JSON.scalar)) :
  Forall JSON.member_ok ms ->
  JSON.parse (JSON.stringify ms) = Some (JObject (map JSON.member_of ms)).
Proof.
  intros Hok. unfold JSON.parse, JSON.parse_text.
  set (f := Nat.mul 2 (length (JSON.stringify ms))).
  assert (Hf : (length ms < f)%nat).
  { subst f. unfold JSON.stringify. cbn [length]. rewrite length_app.
    pose proof (stringify_members_length ms). lia. }
  clearbody f. unfold JSON.stringify.
  change (JSON.parse_value (S f) (123 :: JSON.stringify_members ms ++ [125]))
    with (match JSON.eat 125 (JSON.skip_ws (JSON.stringify_members ms ++ [125])) with
          | Some r' => POk (JObject []) r'
          | None => JSON.parse_members f (JSON.stringify_members ms ++ [125]) []
          end).
  destruct ms as [|[k v] ms]; [reflexivity|].
  destruct (stringify_members_cons k v ms []) as (tail & E & _).
  rewrite E at 1. cbn [JSON.skip_ws]. change (JSON.is_ws 34) with false.
  cbv iota. cbn [JSON.eat]. change (34 =? 125) with false. cbv iota.
  rewrite parse_members_stringify by (try discriminate; assumption).
  reflexivity.
Qed.

(* ------------------------------------------------------------------ *)
(** ** What was serialised is well formed *)

Lemma well_formed_low (c : Z) (s : jsstring) :
  low c -> well_formed (c :: s) = well_formed s.
Proof.
  unfold low. intros Hc. cbn [well_formed].
  unfold is_high_surrogate, is_low_surrogate. zbool. reflexivity.
Qed.

Lemma well_formed_app_low (a s : jsstring) :
  Forall low a -> well_formed (a ++ s) = well_formed s.
Proof.
  induction 1 as [|c a Hc _ IH]; [reflexivity|].
  cbn [List.app]. now rewrite well_formed_low.
Qed.

Lemma hex_digit_low (d : Z) : 0 <= d < 16 -> low (JSON.hex_digit d).
Proof.
  unfold low, JSON.hex_digit. intros Hd. destruct (d <? 10); lia.
Qed.

Lemma well_formed_escape (u : Z) (s : jsstring) :
  0 <= u < 65536 ->
  well_formed (JSON.unicode_escape u ++ s) = well_formed s.
Proof.
  intros Hu. apply well_formed_app_low. unfold JSON.unicode_escape.
  repeat constructor; try (unfold low; lia); apply hex_digit_low; zlia.
Qed.

Lemma well_formed_quote_body_bounded (n : nat) (t s : jsstring) :
  (length t <= n)%nat -> Forall is_code_unit t ->
  well_formed (JSON.quote_body t ++ s) = well_formed s.
Proof.
  revert t. induction n as [|n IH]; intros [|u t] Hn Ht;
    try reflexivity; [simpl in Hn; lia|].
  inversion Ht as [|? ? Hu Ht']; subst. unfold is_code_unit in Hu.
  assert (IHt : well_formed (JSON.quote_body t ++ s) = well_formed s)
    by (apply IH; [simpl in Hn; lia | exact Ht']).
  cbn [JSON.quote_body].
  destruct (u =? 8); [cbn [List.app]; rewrite !well_formed_low by (unfold low; lia); exact IHt|].
  destruct (u =? 9); [cbn [List.app]; rewrite !well_formed_low by (unfold low; lia); exact IHt|].
  destruct (u =? 10); [cbn [List.app]; rewrite !well_formed_low by (unfold low; lia); exact IHt|].
  destruct (u =? 12); [cbn [List.app]; rewrite !well_formed_low by (unfold low; lia); exact IHt|].
  destruct (u =? 13); [cbn [List.app]; rewrite !well_formed_low by (unfold low; lia); exact IHt|].
  destruct (u =? 34); [cbn [List.app]; rewrite !well_formed_low by (unfold low; lia); exact IHt|].
  destruct (u =? 92); [cbn [List.app]; rewrite !well_formed_low by (unfold low; lia); exact IHt|].
  destruct (u <? 32);
    [rewrite <- app_assoc, well_formed_escape by lia; exact IHt|].
  destruct (is_high_surrogate u) eqn:Eh.
  - destruct t as [|v t'].
    + now rewrite well_formed_escape by lia.
    + destruct (is_low_surrogate v) eqn:El.
      * cbn [List.app well_formed]. rewrite Eh, El. cbn [andb].
        inversion Ht' as [|? ? _ Ht'']; subst.
        apply IH; [simpl in Hn; lia | exact Ht''].
      * rewrite <- app_assoc, well_formed_escape by lia. exact IHt.
  - destruct (is_low_surrogate u) eqn:El.
    + rewrite <- app_assoc, well_formed_escape by lia. exact IHt.
    + cbn [List.app well_formed]. rewrite Eh, El. zbool. exact IHt.
Qed.

Lemma well_formed_quote (t s : jsstring) :
  Forall is_code_unit t -> well_formed (JSON.quote t ++ s) = well_formed s.
Proof.
  intros Ht. unfold JSON.quote. cbn [List.app]. rewrite <- app_assoc.
  rewrite well_formed_low by (unfold low; lia).
  rewrite (well_formed_quote_body_bounded (length t)) by (auto using le_n).
  cbn [List.app]. apply well_formed_low. unfold low. lia.
Qed.

Lemma well_formed_scalar (v : JSON.scalar) (s : jsstring) :
  JSON.scalar_ok v ->
  well_formed (JSON.stringify_scalar v ++ s) = well_formed s.
Proof.
  destruct v as [t|n]; cbn [JSON.scalar_ok JSON.stringify_scalar].
  - apply well_formed_quote.
  - intros _. apply well_formed_app_low. unfold Number_toString.
    assert (Hd : forall m, 0 <= m -> Forall low (digits m)).
    { intros m Hm. destruct (digits_spec m Hm) as [Hd _].
      eapply Forall_impl; [|exact Hd]. unfold low. intros; cbn in *; lia. }
    destruct (Z.ltb_spec n 0).
    + constructor; [unfold low; lia | apply Hd; lia].
    + now apply Hd.
Qed.

Lemma well_formed_members (ms : list (jsstring * JSON.scalar)) (s : jsstring) :
  Forall JSON.member_ok ms ->
  well_formed (JSON.stringify_members ms ++ s) = well_formed s.
Proof.
  induction ms as [|[k v] ms IH]; intros Hok; [reflexivity|].
  inversion Hok as [|? ? [Hk Hv] Hok']; subst. cbn [fst snd] in *.
  destruct ms as [|m ms].
  - cbn [JSON.stringify_members]. rewrite <- app_assoc.
    rewrite well_formed_quote by exact Hk. cbn [List.app].
    rewrite well_formed_low by (unfold low; lia).
    now apply well_formed_scalar.
  - change (JSON.stringify_members ((k, v) :: m :: ms))
      with (JSON.quote k ++ 58 :: JSON.stringify_scalar v ++
            44 :: JSON.stringify_members (m :: ms)).
    rewrite <- app_assoc. rewrite well_formed_quote by exact Hk. cbn [List.app].
    rewrite well_formed_low by (unfold low; lia).
    rewrite <- app_assoc. rewrite well_formed_scalar by exact Hv. cbn [List.app].
    rewrite well_formed_low by (unfold low; lia).
    now apply IH.
Qed.

Lemma well_formed_stringify (ms : list (jsstring * JSON.scalar)) :
  Forall JSON.member_ok ms -> well_formed (JSON.stringify ms) = true.
Proof.
  intros Hok. unfold JSON.stringify.
  rewrite well_formed_low by (unfold low; lia).
  now rewrite well_formed_members.
Qed.

(** What was serialised, encoded, decoded and parsed is what was given. *)
Lemma wire_roundtrip (ms : list (jsstring * JSON.scalar)) :
  Forall JSON.member_ok ms ->
  JSON.parse (TextDecoder.decode (TextEncoder.encode (JSON.stringify ms))) =
  Some (JObject (map JSON.member_of ms)).
Proof.
  intros Hok. rewrite decode_encode.
  - now apply parse_stringify.
  - now apply well_formed_stringify.
  - unfold JSON.stringify. cbn [hd]. lia.
Qed.

(* ------------------------------------------------------------------ *)
(** ** The budget of the parser *)

Lemma skip_ws_length (s : jsstring) :
  (length (JSON.skip_ws s) <= length s)%nat.
Proof.
  induction s as [|c s IH]; [apply le_n|].
  cbn [JSON.skip_ws]. destruct (JSON.is_ws c); cbn [length]; lia.
Qed.

Lemma eat_length (c : Z) (s r : jsstring) :
  JSON.eat c s = Some r -> length s = S (length r).
Proof.
  destruct s as [|x s]; [discriminate|]. cbn [JSON.eat].
  destruct (x =? c); [|discriminate]. now intros [= ->].
Qed.

Lemma take_digits_length (s ds r : jsstring) :
  JSON.take_digits s = (ds, r) -> length s = (length ds + length r)%nat.
Proof.
  revert ds r. induction s as [|c s IH]; intros ds r.
  - now intros [= <- <-].
  - cbn [JSON.take_digits]. destruct (JSON.is_digit c).
    + destruct (JSON.take_digits s) as [ds' r'].
      intros [= <- <-]. cbn [length]. now rewrite (IH ds' r' eq_refl).
    + now intros [= <- <-].
Qed.

Lemma cons_char_some (u : Z) (o : option (jsstring * jsstring))
    (k r : jsstring) :
  JSON.cons_char u o = Some (k, r) -> exists k', o = Some (k', r).
Proof.
  destruct o as [[k' r']|]; [|discriminate]. intros [= <- <-]. now exists k'.
Qed.

Lemma lex_string_length_bounded (n : nat) (s k r : jsstring) :
  (length s <= n)%nat ->
  JSON.lex_string s = Some (k, r) -> (length r < length s)%nat.
Proof.
  revert s k r. induction n as [|n IH]; intros [|c s] k r Hn;
    try discriminate; [cbn in Hn; lia|].
  cbn [length] in Hn. cbn [JSON.lex_string].
  destruct (c =? 34); [intros [= <- <-]; cbn [length]; lia|].
  destruct (c =? 92).
  - destruct s as [|e s]; [discriminate|]. cbn [length] in Hn.
    destruct (e =? 117).
    + destruct s as [|h1 [|h2 [|h3 [|h4 s]]]]; try discriminate.
      destruct (JSON.hex4 h1 h2 h3 h4); [|discriminate].
      intros H. apply cons_char_some in H as [k' H].
      apply IH in H; cbn [length] in *; lia.
    + destruct (JSON.simple_escape e); [|discriminate].
      intros H. apply cons_char_some in H as [k' H].
      apply IH in H; cbn [length] in *; lia.
  - destruct (c <? 32); [discriminate|].
    intros H. apply cons_char_some in H as [k' H].
    apply IH in H; cbn [length] in *; lia.
Qed.

Lemma lex_string_length (s k r : jsstring) :
  JSON.lex_string s = Some (k, r) -> (length r < length s)%nat.
Proof. apply (lex_string_length_bounded (length s)). apply le_n. Qed.

Lemma lex_fraction_length (s fs r : jsstring) :
  JSON.lex_fraction s = Some (fs, r) -> (length r <= length s)%nat.
Proof.
  unfold JSON.lex_fraction. destruct (JSON.eat 46 s) as [s1|] eqn:E.
  - apply eat_length in E.
    destruct (JSON.take_digits s1) as [[|d ds] r'] eqn:Et; [discriminate|].
    intros [= <- <-]. apply take_digits_length in Et. lia.
  - intros [= <- <-]. apply le_n.
Qed.

Lemma exponent_sign_length (s1 s2 : jsstring) (neg : bool) :
  (match JSON.eat 43 s1, JSON.eat 45 s1 with
   | Some s2, _ => (false, s2)
   | None, Some s2 => (true, s2)
   | None, None => (false, s1)
   end) = (neg, s2) -> (length s2 <= length s1)%nat.
Proof.
  destruct (JSON.eat 43 s1) as [a|] eqn:E1.
  - intros [= <- <-]. apply eat_length in E1. lia.
  - destruct (JSON.eat 45 s1) as [a|] eqn:E2.
    + intros [= <- <-]. apply eat_length in E2. lia.
    + intros [= <- <-]. apply le_n.
Qed.

Lemma lex_exponent_length (s r : jsstring) (e : Z) :
  JSON.lex_exponent s = Some (e, r) -> (length r <= length s)%nat.
Proof.
  unfold JSON.lex_exponent. destruct s as [|c s1]; [now intros [= <- <-]|].
  destruct ((c =? 101) || (c =? 69)); [|now intros [= <- <-]].
  destruct (match JSON.eat 43 s1, JSON.eat 45 s1 with
            | Some s2, _ => (false, s2)
            | None, Some s2 => (true, s2)
            | None, None => (false, s1)
            end) as [neg s2] eqn:E.
  apply exponent_sign_length in E.
  destruct (JSON.take_digits s2) as [[|d ds] r'] eqn:Et; [discriminate|].
  intros [= <- <-]. apply take_digits_length in Et. cbn [length] in *. lia.
Qed.

Lemma number_sign_length (s s1 : jsstring) (neg : bool) :
  (match JSON.eat 45 s with
   | Some s1 => (true, s1)
   | None => (false, s)
   end) = (neg, s1) -> (length s1 <= length s)%nat.
Proof.
  destruct (JSON.eat 45 s) as [a|] eqn:E1.
  - intros [= <- <-]. apply eat_length in E1. lia.
  - intros [= <- <-]. apply le_n.
Qed.

Lemma lex_number_length (s r : jsstring) (n : number) :
  JSON.lex_number s = Some (n, r) -> (length r < length s)%nat.
Proof.
  unfold JSON.lex_number.
  destruct (match JSON.eat 45 s with
            | Some s1 => (true, s1)
            | None => (false, s)
            end) as [neg s1] eqn:E.
  apply number_sign_length in E.
  destruct (JSON.take_digits s1) as [[|d ds] r0] eqn:Et; [discriminate|].
  apply take_digits_length in Et. cbn [length] in Et.
  destruct ((d =? 48) && negb match ds with [] => true | _ => false end).
  - destruct (JSON.lex_fraction (ds ++ r0)) as [[fs r1]|] eqn:Ef; [|discriminate].
    destruct (JSON.lex_exponent r1) as [[e r2]|] eqn:Ee; [|discriminate].
    intros [= _ <-]. apply lex_fraction_length in Ef.
    apply lex_exponent_length in Ee. rewrite length_app in Ef. lia.
  - destruct (JSON.lex_fraction r0) as [[fs r1]|] eqn:Ef; [|discriminate].
    destruct (JSON.lex_exponent r1) as [[e r2]|] eqn:Ee; [|discriminate].
    intros [= _ <-]. apply lex_fraction_length in Ef.
    apply lex_exponent_length in Ee. lia.
Qed.

(** With a budget above twice the length of the input, the three parsers
    never run out of it, and what they leave is shorter than what they
    were given. *)
Lemma parse_budget (f : nat) :
  (forall s, (2 * length s < f)%nat ->
     JSON.parse_value f s <> PFuel /\
     forall v r, JSON.parse_value f s = POk v r -> (length r < length s)%nat) /\
  (forall s acc, (2 * length s + 1 < f)%nat ->
     JSON.parse_elements f s acc <> PFuel /\
     forall v r, JSON.parse_elements f s acc = POk v r ->
                 (length r < length s)%nat) /\
  (forall s acc, (2 * length s + 1 < f)%nat ->
     JSON.parse_members f s acc <> PFuel /\
     forall v r, JSON.parse_members f s acc = POk v r ->
                 (length r < length s)%nat).
Proof.
  induction f as [|f (IHv & IHe & IHm)];
    [repeat split; intros; lia|].
  split; [|split].
  - intros s Hf. cbn [JSON.parse_value].
    pose proof (skip_ws_length s) as Hws.
    destruct (JSON.skip_ws s) as [|c r]; [split; [discriminate|]; discriminate|].
    cbn [length] in Hws. pose proof (skip_ws_length r) as Hwr.
    destruct (c =? 123).
    { destruct (JSON.eat 125 (JSON.skip_ws r)) as [r'|] eqn:E.
      - apply eat_length in E. split; [discriminate|].
        intros v r0 [= _ <-]. lia.
      - destruct (IHm r []) as [H1 H2]; [lia|]. split; [exact H1|].
        intros v r0 H. apply H2 in H. lia. }
    destruct (c =? 91).
    { destruct (JSON.eat 93 (JSON.skip_ws r)) as [r'|] eqn:E.
      - apply eat_length in E. split; [discriminate|].
        intros v r0 [= _ <-]. lia.
      - destruct (IHe r []) as [H1 H2]; [lia|]. split; [exact H1|].
        intros v r0 H. apply H2 in H. lia. }
    destruct (c =? 34).
    { destruct (JSON.lex_string r) as [[str r']|] eqn:E;
        [|split; discriminate].
      apply lex_string_length in E. split; [discriminate|].
      intros v r0 [= _ <-]. lia. }
    destruct (starts_with (lit "null") (c :: r)).
    { split; [discriminate|]. intros v r0 [= _ <-].
      repeat (destruct r as [|? r]; cbn [length] in *; try lia). }
    destruct (starts_with (lit "true") (c :: r)).
    { split; [discriminate|]. intros v r0 [= _ <-].
      repeat (destruct r as [|? r]; cbn [length] in *; try lia). }
    destruct (starts_with (lit "false") (c :: r)).
    { split; [discriminate|]. intros v r0 [= _ <-].
      repeat (destruct r as [|? r]; cbn [length] in *; try lia). }
    destruct (JSON.lex_number (c :: r)) as [[n r']|] eqn:E;
      [|split; discriminate].
    apply lex_number_length in E. cbn [length] in E. split; [discriminate|].
    intros v r0 [= _ <-]. lia.
  - intros s acc Hf. cbn [JSON.parse_elements].
    destruct (IHv s) as [H1 H2]; [lia|].
    destruct (JSON.parse_value f s) as [v r| |]; [|split; discriminate|congruence].
    specialize (H2 v r eq_refl). pose proof (skip_ws_length r) as Hws.
    destruct (JSON.skip_ws r) as [|c r']; [split; discriminate|].
    cbn [length] in Hws.
    destruct (c =? 44).
    { destruct (IHe r' (v :: acc)) as [H3 H4]; [lia|]. split; [exact H3|].
      intros v0 r0 H. apply H4 in H. lia. }
    destruct (c =? 93); [|split; discriminate].
    split; [discriminate|]. intros v0 r0 [= _ <-]. lia.
  - intros s acc Hf. cbn [JSON.parse_members].
    pose proof (skip_ws_length s) as Hws.
    destruct (JSON.eat 34 (JSON.skip_ws s)) as [r|] eqn:E1; [|split; discriminate].
    apply eat_length in E1.
    destruct (JSON.lex_string r) as [[k r1]|] eqn:E2; [|split; discriminate].
    apply lex_string_length in E2.
    pose proof (skip_ws_length r1) as Hw1.
    destruct (JSON.eat 58 (JSON.skip_ws r1)) as [r2|] eqn:E3; [|split; discriminate].
    apply eat_length in E3.
    destruct (IHv r2) as [H1 H2]; [lia|].
    destruct (JSON.parse_value f r2) as [v r3| |]; [|split; discriminate|congruence].
    specialize (H2 v r3 eq_refl). pose proof (skip_ws_length r3) as Hw3.
    destruct (JSON.skip_ws r3) as [|c r4]; [split; discriminate|].
    cbn [length] in Hw3.
    destruct (c =? 44).
    { destruct (IHm r4 ((k, v) :: acc)) as [H3 H4]; [lia|]. split; [exact H3|].
      intros v0 r0 H. apply H4 in H. lia. }
    destruct (c =? 125); [|split; discriminate].
    split; [discriminate|]. intros v0 r0 [= _ <-]. lia.
Qed.

(** [JSON.parse] never runs out of budget: its [None] is a syntax error. *)
Lemma parse_text_fuel (s : jsstring) :
  JSON.parse_text (S (2 * length s)) s <> PFuel.
Proof.
  unfold JSON.parse_text.
  destruct (parse_budget (S (2 * length s))) as [H _].
  destruct (H s) as [H1 _]; [lia|].
  destruct (JSON.parse_value (S (2 * length s)) s) as [v r| |];
    [destruct (JSON.skip_ws r); discriminate | discriminate | congruence].
Qed.

(* ------------------------------------------------------------------ *)
(** ** The log ring *)

Lemma pushLog_cons (e : LogEntry.t) (l : list LogEntry.t) :
  pushLog e l = e :: firstn 49 l.
Proof. reflexivity. Qed.

Lemma pushLog_length (e : LogEntry.t) (l : list LogEntry.t) :
  (length (pushLog e l) <= 50)%nat.
Proof. unfold pushLog. apply firstn_le_length. Qed.

Lemma firstn_removelast {A} (l : list A) (n : nat) :
  length l = S n -> firstn n l = removelast l.
Proof.
  revert n. induction l as [|x l IH]; intros n H; [discriminate|].
  destruct l as [|y l].
  - simpl in H. injection H as <-. reflexivity.
  - destruct n as [|n]; [discriminate|].
    change (removelast (x :: y :: l)) with (x :: removelast (y :: l)).
    rewrite <- (IH n) by (simpl in *; lia). reflexivity.
Qed.

Lemma pushLog_full (e : LogEntry.t) (l : list LogEntry.t) :
  length l = 50%nat -> pushLog e l = e :: removelast l.
Proof.
  intros H. rewrite pushLog_cons. f_equal. now apply firstn_removelast.
Qed.

Lemma preserves_ret {A} (a : A) : preserves (ret a).
Proof. intros w H. exact H. Qed.

Lemma preserves_throw {A} (e : exn) : preserves (@throw A e).
Proof. intros w H. exact H. Qed.

Lemma preserves_bind {A B} (c : M A) (k : A -> M B) :
  preserves c -> (forall a, preserves (k a)) -> preserves (bind c k).
Proof.
  intros Hc Hk w H. unfold bind. specialize (Hc w H).
  destruct (c w) as [[a|e] w']; simpl in *; [now apply Hk | exact Hc].
Qed.

Lemma preserves_try_catch {A} (c : M A) (h : exn -> M A) :
  preserves c -> (forall e, preserves (h e)) -> preserves (try_catch c h).
Proof.
  intros Hc Hh w H. unfold try_catch. specialize (Hc w H).
  destruct (c w) as [[a|e] w']; simpl in *; [exact Hc | now apply Hh].
Qed.

Lemma preserves_try_finally {A} (c : M A) (f : M unit) :
  preserves c -> preserves f -> preserves (try_finally c f).
Proof.
  intros Hc Hf w H. unfold try_finally. specialize (Hc w H).
  destruct (c w) as [r w']; simpl in *. specialize (Hf w' Hc).
  destruct (f w') as [[[]|e] w'']; exact Hf.
Qed.

Lemma preserves_get : preserves get.
Proof. intros w H. exact H. Qed.

Lemma preserves_call (c : Call) : preserves (call c).
Proof. intros w H. exact H. Qed.

Lemma preserves_Date_now : preserves Date_now.
Proof. intros w H. exact H. Qed.

Lemma preserves_await {A} (r : settled A) : preserves (await r).
Proof. destruct r; intros w H; exact H. Qed.

Lemma preserves_modify (f : App -> App) :
  (forall a, logs (f a) = logs a) -> preserves (modify f).
Proof. intros Hf w H. unfold logs_bounded in *. simpl. now rewrite Hf. Qed.

Lemma preserves_addLog (msg : jsstring) : preserves (addLog msg).
Proof. intros w _. exact (pushLog_length _ _). Qed.

Ltac unfold_setters :=
  unfold setRoom, setConnected, setConnecting, setMuted, setSpeaking,
    setParticipants, setAgentSpeaking, setError, setQuality, setAutoConnect,
    setMicLevel, setShowEmailPopup, setShowEmailSentPopup, setEmailForm,
    setEmailSending, setMessages, setInputMessage, setLevelRafRef, addMessage.

Ltac unfold_handlers :=
  unfold handle, onTrackSubscribed, onAgentSpeakingTimeout,
    onLocalTrackPublished, setupMicLevelAnalyser, setupWithStream,
    onParticipantConnected, onParticipantDisconnected, updateParticipants,
    onActiveSpeakersChanged, onDisconnected, onConnectionQualityChanged,
    onDataReceived, tick, clickConnect, autoConnectEffect, connectToRoom,
    getToken, setupRoomListeners, disconnectFromRoom, toggleMute, triggerTool,
    handleEmailSubmit, onEmailSentTimeout, handleEmailClose,
    handleEmailSentClose, sendMessage, cancelLevelRaf, JSON_parse, prop.

Ltac preserve :=
  repeat first
    [ apply preserves_addLog
    | apply preserves_ret
    | apply preserves_throw
    | apply preserves_get
    | apply preserves_call
    | apply preserves_Date_now
    | apply preserves_await
    | apply preserves_modify; reflexivity
    | apply preserves_bind
    | apply preserves_try_catch
    | apply preserves_try_finally
    | progress intros
    | match goal with
      | |- preserves (match ?x with _ => _ end) => destruct x
      end
    | progress (unfold_handlers; unfold_setters) ].

Lemma handle_preserves (e : Event) : preserves (handle e).
Proof. destruct e; unfold_handlers; unfold_setters; preserve. Qed.

Lemma run_preserves (events : list Event) (w : World) :
  logs_bounded w -> logs_bounded (run events w).
Proof.
  revert w. induction events as [|e events IH]; intros w H; [exact H|].
  apply IH. now apply handle_preserves.
Qed.

(** The two membership listeners append their entry through [pushLog]. *)
Lemma membership_listeners_log (w : World) (identity : jsstring)
    (remote : list jsstring) :
  logs (app (step w (ParticipantConnected identity remote))) =
    pushLog (LogEntry.mk (clock w (reads w)) (lit "+ " ++ identity))
            (logs (app w)) /\
  logs (app (step w (ParticipantDisconnected identity remote))) =
    pushLog (LogEntry.mk (clock w (reads w)) (lit "- " ++ identity))
            (logs (app w)).
Proof. split; reflexivity. Qed.

(** C4. Whatever events the component handles after it is mounted, the log
    never holds more than 50 entries.  An entry is appended by putting it
    first and keeping the 50 first of the result: the new entry is there,
    followed by at most the 49 newest of the others, so that on a full log
    exactly the oldest entry is dropped.  This is what the listeners for a
    participant that connects or disconnects do. *)
Theorem log_ring_capacity (events : list Event) (time : nat -> Z)
    (e : LogEntry.t) :
  let w := run events (initial_world time) in
  let l := logs (app w) in
  (length l <= 50)%nat /\
  pushLog e l = e :: firstn 49 l /\
  (forall older oldest, l = older ++ [oldest] -> length l = 50%nat ->
     pushLog e l = e :: older) /\
  (forall identity remote,
     logs (app (step w (ParticipantConnected identity remote))) =
       pushLog (LogEntry.mk (clock w (reads w)) (lit "+ " ++ identity)) l /\
     logs (app (step w (ParticipantDisconnected identity remote))) =
       pushLog (LogEntry.mk (clock w (reads w)) (lit "- " ++ identity)) l).
Proof.
  intros w l. split; [|split; [|split]].
  - apply run_preserves. unfold logs_bounded. simpl. lia.
  - apply pushLog_cons.
  - intros older oldest Hl Hlen. rewrite pushLog_full by exact Hlen.
    rewrite Hl. now rewrite removelast_last.
  - intros identity remote. apply membership_listeners_log.
Qed.

(* ------------------------------------------------------------------ *)
(** ** Running a handler *)

Ltac unfold_monad :=
  unfold bind, ret, throw, try_catch, try_finally, get, modify, call,
    Date_now, await, addLog in *.

(** Unfolds a handler on a world down to the resulting pair. *)
Ltac mrun := unfold_handlers; unfold_setters; unfold_monad; cbn.

(* ------------------------------------------------------------------ *)
(** ** The email tool *)

(** C9. In a connected component, triggering a tool whose key is
    [send_email] makes no call to the outside (so publishes nothing), reads
    no clock, and changes the state in one place only: [showEmailPopup]
    becomes [true].  The chat, the log and the connection state are those
    of before. *)
Theorem triggerTool_send_email
    (w : World) (r : Room) (t : Tool.t) (published : settled unit) :
  connected (app w) = true ->
  room (app w) = Some r ->
  Tool.key t = lit "send_email" ->
  triggerTool t published w =
    (Normal tt,
     mkWorld (setShowEmailPopup_in true (app w)) (clock w) (reads w) (calls w))
  /\ let a' := app (snd (triggerTool t published w)) in
     showEmailPopup a' = true /\ messages a' = messages (app w) /\
     logs a' = logs (app w) /\ room a' = room (app w) /\
     connected a' = connected (app w) /\ connecting a' = connecting (app w) /\
     error a' = error (app w) /\ participants a' = participants (app w).
Proof.
  intros Hc Hr Hk.
  assert (E : triggerTool t published w =
    (Normal tt,
     mkWorld (setShowEmailPopup_in true (app w)) (clock w) (reads w) (calls w))).
  { unfold triggerTool, bind, get. rewrite Hc, Hr, Hk. reflexivity. }
  split; [exact E|]. rewrite E. cbn. repeat split; reflexivity.
Qed.

Lemma triggerTool_send_email_witness :
  triggerTool (Tool.mk (lit "send_email") (lit "Send Email")
                 (lit "Compose and send an email")
                 (lit "Send an email to hr saying I will be late by 15 minutes"))
              (Fulfilled tt) connected_world =
  (Normal tt,
   mkWorld (setShowEmailPopup_in true connected_app) sample_clock 0 []).
Proof.
  refine (proj1 (triggerTool_send_email connected_world (RoomRef 0) _ _ _ _ _));
    reflexivity.
Defined.

(* ------------------------------------------------------------------ *)
(** ** Disconnecting *)

Lemma onDisconnected_participants (w : World) :
  participants (app (snd (onDisconnected w))) = participants (app w).
Proof. mrun. destruct (levelRafRef (app w)) as [h|]; [destruct (h =? 0)|]; reflexivity. Qed.

Lemma disconnectFromRoom_participants (w : World) (r : Room) :
  room (app w) = Some r ->
  participants (app (snd (disconnectFromRoom (Fulfilled tt) w))) = [].
Proof.
  intros Hr. mrun. rewrite Hr. cbn.
  destruct (levelRafRef (app w)) as [h|]; [destruct (h =? 0)|]; reflexivity.
Qed.

(** C2 (the code departs from the claim). On a connected component with the
    agent in the room, the [Disconnected] listener and [disconnectFromRoom]
    both end with [connected = false], [room = null] and the pending
    animation frame cancelled, but the listener leaves the participant list
    as it was where [disconnectFromRoom] empties it. *)
Theorem Disconnected_keeps_participants :
  let w1 := snd (onDisconnected connected_world) in
  let w2 := snd (disconnectFromRoom (Fulfilled tt) connected_world) in
  (connected (app w1) = false /\ room (app w1) = None /\
   calls w1 = [cancelAnimationFrame 7] /\
   participants (app w1) = [Participant.mk (lit "agent-nevira") true]) /\
  (connected (app w2) = false /\ room (app w2) = None /\
   calls w2 = [cancelAnimationFrame 7; Room_disconnect (RoomRef 0)] /\
   participants (app w2) = []).
Proof. cbv zeta. repeat split; reflexivity. Qed.

(* ------------------------------------------------------------------ *)
(** ** Connecting *)





(* ------------------------------------------------------------------ *)
(** ** The capacity limit *)

(** The client side: a response whose status is outside 200..299 makes
    [connectToRoom] stop after the request, with the error set. *)
Lemma connectToRoom_refused (env : ConnectEnv) (resp : Response.t) (w : World) :
  fetched env = Fulfilled resp ->
  Response.ok resp = false ->
  connectToRoom env w =
    (Normal tt,
     mkWorld
       (setConnecting_in false
          (setError_in
             (Some (Text (lit "Token request failed: " ++ Response.statusText resp)))
             (setError_in None (setConnecting_in true (app w)))))
       (clock w) (reads w)
       (fetch TOKEN_SERVER
          (token_request (lit "user_" ++ Number_toString (random env)))
        :: calls w)).
Proof.
  intros Hf Hok. unfold connectToRoom, getToken.
  generalize (token_request (lit "user_" ++ Number_toString (random env))).
  intros body. mrun. rewrite Hf. cbn. rewrite Hok. reflexivity.
Qed.

(** C7 (the code departs from the claim). The room query of the route
    always throws, so the room counts as empty whoever is in it: with the
    default limit of 2, a request that carries an identity for a room that
    holds two members is answered 200 with a token, and no request at all
    is answered 403. The request is the one the client sends (identity
    [user_42]); the client that receives this answer goes on to connect
    the room. Had the answer been 403, the client would have set the error
    and made no call besides the request. *)
Theorem full_room_is_admitted :
  let request :=
    Val (JObject [(lit "identity", JString (lit "user_42"));
                  (lit "roomName", JString ROOM_NAME)]) in
  let env := room_service_env full_room in
  TokenServer.room_full (full_room (Val (JString ROOM_NAME)))
                        (TokenServer.maxParticipants env) = true /\
  TokenServer.post_token env request =
    TokenServer.mkRes 200
      (TokenServer.token_body (lit "jwt") (Val (JString ROOM_NAME))) /\
  (forall members req_body,
     TokenServer.status
       (TokenServer.post_token (room_service_env members) req_body) <> 403) /\
  JSON.parse (TextDecoder.decode (TextEncoder.encode
     (token_request (lit "user_" ++ Number_toString (random sample_env))))) =
    Some (JObject [(lit "identity", JString (lit "user_42"));
                   (lit "roomName", JString ROOM_NAME)]) /\
  fetched sample_env =
    Fulfilled (Response.mk 200 (lit "OK")
                 (token_response (lit "jwt") ROOM_NAME)) /\
  In (Room_connect (RoomRef 1) LIVEKIT_URL (Val (JString (lit "jwt"))))
     (calls (snd (connectToRoom sample_env (initial_world sample_clock)))) /\
  (forall (env : ConnectEnv) (resp : Response.t) (w : World),
     fetched env = Fulfilled resp ->
     Response.status resp = 403 ->
     let w' := snd (connectToRoom env w) in
     fst (connectToRoom env w) = Normal tt /\
     error (app w') =
       Some (Text (lit "Token request failed: " ++ Response.statusText resp)) /\
     connected (app w') = connected (app w) /\
     room (app w') = room (app w) /\
     connecting (app w') = false /\
     calls w' =
       fetch TOKEN_SERVER
         (token_request (lit "user_" ++ Number_toString (random env)))
       :: calls w).
Proof.
  cbv zeta. split; [reflexivity|]. split; [vm_compute; reflexivity|].
  split; [|split; [vm_compute; reflexivity|split; [vm_compute; reflexivity|split]]].
  - intros members req_body.
    unfold TokenServer.post_token, TokenServer.token_route,
      TokenServer.destructure.
    destruct req_body as [|[]]; cbn; try discriminate;
      destruct (truthy (lookup _ _)); cbn; discriminate.
  - vm_compute. tauto.
  - intros env resp w Hf Hst.
    assert (Hok : Response.ok resp = false)
      by (unfold Response.ok; rewrite Hst; reflexivity).
    rewrite (connectToRoom_refused env resp w Hf Hok). cbn.
    repeat split; reflexivity.
Qed.

Lemma full_room_is_admitted_witness :
  let env :=
    mkConnectEnv 42 (RoomRef 1)
      (Fulfilled (Response.mk 403 (lit "Forbidden") [])) (Fulfilled tt)
      (Fulfilled tt) MeterFails in
  calls (snd (connectToRoom env (initial_world sample_clock))) =
    [fetch TOKEN_SERVER (token_request (lit "user_42"))].
Proof.
  cbv zeta. pose proof full_room_is_admitted as T. cbv zeta in T.
  destruct T as (_ & _ & _ & _ & _ & _ & H).
  destruct (H (mkConnectEnv 42 (RoomRef 1)
                 (Fulfilled (Response.mk 403 (lit "Forbidden") []))
                 (Fulfilled tt) (Fulfilled tt) MeterFails)
              (Response.mk 403 (lit "Forbidden") [])
              (initial_world sample_clock) eq_refl eq_refl)
    as (_ & _ & _ & _ & _ & Hc).
  exact Hc.
Defined.

Lemma Number_toString_code_units (n : Z) :
  Forall is_code_unit (Number_toString n).
Proof.
  assert (H : forall m, 0 <= m -> Forall is_code_unit (digits m)).
  { intros m Hm. destruct (digits_spec m Hm) as [Hd _].
    eapply Forall_impl; [|exact Hd]. unfold is_code_unit. intros; cbn in *; lia. }
  unfold Number_toString. destruct (Z.ltb_spec n 0).
  - constructor; [unfold is_code_unit; lia | apply H; lia].
  - now apply H.
Qed.

(** What the server reads from the request [getToken] sends: an object
    whose identity is the client's, a non-empty string. *)
Lemma token_request_received (n : Z) :
  let identity := lit "user_" ++ Number_toString n in
  JSON.parse (TextDecoder.decode (TextEncoder.encode (token_request identity))) =
    Some (JObject [(lit "identity", JString identity);
                   (lit "roomName", JString ROOM_NAME)]) /\
  truthy (Val (JString identity)) = true.
Proof.
  intros identity. split; [|reflexivity].
  unfold token_request. rewrite wire_roundtrip; [reflexivity|].
  repeat constructor; cbn [fst snd JSON.scalar_ok];
    try apply Number_toString_code_units;
    try (vm_compute; intuition discriminate).
Qed.

(* ------------------------------------------------------------------ *)
(** ** Decoding a received payload *)

Lemma jsstring_eqb_eq (a b : jsstring) : jsstring_eqb a b = true <-> a = b.
Proof.
  revert b. induction a as [|x a IH]; intros [|y b]; simpl;
    try (split; [discriminate || reflexivity | discriminate || reflexivity]).
  rewrite andb_true_iff, Z.eqb_eq, IH. split.
  - intros [-> ->]. reflexivity.
  - intros E. injection E as -> ->. split; reflexivity.
Qed.

Lemma is_string_eq (v : jsval) (s : jsstring) :
  is_string v s = true <-> v = Val (JString s).
Proof.
  unfold is_string. destruct v as [|[]]; try (split; discriminate).
  rewrite jsstring_eqb_eq. split; [now intros -> | now intros [= ->]].
Qed.

(** The [catch] branch of the handler. *)
Lemma onDataReceived_not_json (payload : list byte) (w : World) :
  JSON.parse (TextDecoder.decode payload) = None ->
  onDataReceived payload w =
    match trim (TextDecoder.decode payload) with
    | [] => (Normal tt, w)
    | _ :: _ =>
        (Normal tt,
         mkWorld
           (setMessages_in
              (messages (app w) ++
               [ChatEntry.mk (clock w (reads w)) assistant
                  (Val (JString (TextDecoder.decode payload)))
                  (Val (JArray [])) (clock w (S (reads w)))])
              (app w))
           (clock w) (S (S (reads w))) (calls w))
    end.
Proof.
  intros Hp. unfold onDataReceived, JSON_parse. rewrite Hp.
  unfold try_catch, bind, throw.
  destruct (TextDecoder.decode payload) as [|u text] eqn:E; [reflexivity|].
  destruct (trim (u :: text)); [destruct w|]; reflexivity.
Qed.

(** The handler completes normally on every payload. *)
Lemma onDataReceived_never_throws (payload : list byte) (w : World) :
  fst (onDataReceived payload w) = Normal tt.
Proof.
  unfold onDataReceived, JSON_parse, prop, try_catch, bind, ret, throw.
  generalize (TextDecoder.decode payload). intros text.
  destruct (JSON.parse text) as [[]|];
    repeat match goal with
           | |- context [if ?b then _ else _] => destruct b
           end;
    try reflexivity;
    destruct text as [|u text]; try reflexivity;
    destruct (trim (u :: text)); reflexivity.
Qed.

(** An object whose [type] is ["assistant_message"]. *)
Lemma onDataReceived_assistant_message
    (payload : list byte) (ms : list (jsstring * json)) (w : World) :
  JSON.parse (TextDecoder.decode payload) = Some (JObject ms) ->
  lookup (lit "type") ms = Val (JString (lit "assistant_message")) ->
  onDataReceived payload w =
    (Normal tt,
     mkWorld
       (setMessages_in
          (messages (app w) ++
           [ChatEntry.mk (clock w (reads w)) assistant
              (or_else (lookup (lit "message") ms) (lookup (lit "text") ms))
              (or_else (lookup (lit "images") ms) (Val (JArray [])))
              (clock w (S (reads w)))])
          (app w))
       (clock w) (S (S (reads w))) (calls w)).
Proof.
  intros Hp Ht. unfold onDataReceived, JSON_parse. rewrite Hp.
  unfold prop, try_catch, bind, ret. rewrite Ht. reflexivity.
Qed.

(** An object whose [type] is ["email_popup_trigger"]. *)
Lemma onDataReceived_email_popup_trigger
    (payload : list byte) (ms : list (jsstring * json)) (w : World) :
  JSON.parse (TextDecoder.decode payload) = Some (JObject ms) ->
  lookup (lit "type") ms = Val (JString (lit "email_popup_trigger")) ->
  onDataReceived payload w =
    (Normal tt,
     mkWorld
       (setLogs_in
          (pushLog (LogEntry.mk (clock w (reads w))
                      (lit "Email popup opened via voice command"))
                   (logs (app w)))
          (setShowEmailPopup_in true (app w)))
       (clock w) (S (reads w)) (calls w)).
Proof.
  intros Hp Ht. unfold onDataReceived, JSON_parse. rewrite Hp.
  unfold prop, try_catch, bind, ret. rewrite Ht. reflexivity.
Qed.

(** Any other value that is not [null]: nothing happens. *)
Lemma onDataReceived_other (payload : list byte) (data : json) (w : World) :
  JSON.parse (TextDecoder.decode payload) = Some data ->
  data <> JNull ->
  (forall ms, data = JObject ms ->
     lookup (lit "type") ms <> Val (JString (lit "email_popup_trigger")) /\
     lookup (lit "type") ms <> Val (JString (lit "assistant_message"))) ->
  onDataReceived payload w = (Normal tt, w).
Proof.
  intros Hp Hn Hty. unfold onDataReceived, JSON_parse. rewrite Hp.
  unfold prop, try_catch, bind, ret.
  destruct data; try reflexivity; [congruence|].
  destruct (Hty members eq_refl) as [H1 H2].
  destruct (is_string (lookup (lit "type") members) (lit "email_popup_trigger")) eqn:E1;
    [apply is_string_eq in E1; contradiction|].
  destruct (is_string (lookup (lit "type") members) (lit "assistant_message")) eqn:E2;
    [apply is_string_eq in E2; contradiction|].
  reflexivity.
Qed.

(** [null] is read as if it were not JSON: reading [data.type] throws. *)
Lemma onDataReceived_null (payload : list byte) (w : World) :
  JSON.parse (TextDecoder.decode payload) = Some JNull ->
  onDataReceived payload w =
    match trim (TextDecoder.decode payload) with
    | [] => (Normal tt, w)
    | _ :: _ =>
        (Normal tt,
         mkWorld
           (setMessages_in
              (messages (app w) ++
               [ChatEntry.mk (clock w (reads w)) assistant
                  (Val (JString (TextDecoder.decode payload)))
                  (Val (JArray [])) (clock w (S (reads w)))])
              (app w))
           (clock w) (S (S (reads w))) (calls w))
    end.
Proof.
  intros Hp. unfold onDataReceived, JSON_parse. rewrite Hp.
  unfold prop, try_catch, bind, throw, ret.
  destruct (TextDecoder.decode payload) as [|u text] eqn:E; [reflexivity|].
  destruct (trim (u :: text)); [destruct w|]; reflexivity.
Qed.

(** C1, as stated, fails. None of these payloads parses as a control
    message, and each is dropped, no chat entry appended: three spaces
    (not JSON), and the JSON texts [5], ["hello"], [{"type":"status"}],
    [{"text":"hi"}] and [[]]. *)
Lemma non_control_payloads_are_dropped :
  let w := initial_world sample_clock in
  Forall (fun payload =>
            parses_as_ControlMessage payload = false /\
            onDataReceived payload w = (Normal tt, w) /\
            messages (app (snd (onDataReceived payload w))) = [])
         [bytes_of "   "; bytes_of "5"; bytes_of "'hello'";
          bytes_of "{'type':'status'}"; bytes_of "{'text':'hi'}";
          bytes_of "[]"].
Proof. repeat constructor; vm_compute; reflexivity. Qed.

(** C1, amended. For every payload that does not parse as a control
    message: the handler completes normally and never sets the error.
    When [JSON.parse] rejects the decoded text and the text holds a
    character that is not white space, exactly one chat entry is appended,
    from the assistant, whose text is the whole decoded payload and whose
    images are empty, and nothing else changes. When [JSON.parse] rejects
    a text that is empty or white space only, and when the text is JSON
    for any value other than [null], the payload is dropped and nothing
    changes. *)
Theorem plain_text_fallback (payload : list byte) (w : World) :
  parses_as_ControlMessage payload = false ->
  let text := TextDecoder.decode payload in
  let w' := snd (onDataReceived payload w) in
  fst (onDataReceived payload w) = Normal tt /\
  error (app w') = error (app w) /\
  (JSON.parse text = None -> trim text <> [] ->
     messages (app w') =
       messages (app w) ++
       [ChatEntry.mk (clock w (reads w)) assistant (Val (JString text))
                     (Val (JArray [])) (clock w (S (reads w)))] /\
     logs (app w') = logs (app w) /\
     showEmailPopup (app w') = showEmailPopup (app w) /\
     calls w' = calls w) /\
  (JSON.parse text = None -> trim text = [] -> w' = w) /\
  (forall data, JSON.parse text = Some data -> data <> JNull -> w' = w).
Proof.
  intros Hn text w'. split; [apply onDataReceived_never_throws|].
  unfold parses_as_ControlMessage in Hn. fold text in Hn. unfold w'.
  destruct (JSON.parse text) as [data|] eqn:Hp.
  - assert (Hdrop : data <> JNull -> onDataReceived payload w = (Normal tt, w)).
    { intros Hnull. apply (onDataReceived_other payload data w Hp Hnull).
      intros ms ->. apply orb_false_iff in Hn. destruct Hn as [Hn He].
      apply orb_false_iff in Hn. destruct Hn as [_ Ha].
      split; intros E; apply is_string_eq in E; congruence. }
    split; [|split; [discriminate|split; [discriminate|]]].
    + destruct data; try (rewrite Hdrop by discriminate; reflexivity).
      rewrite (onDataReceived_null payload w Hp).
      destruct (trim (TextDecoder.decode payload)); reflexivity.
    + intros data' [= <-] Hnull. now rewrite Hdrop.
  - rewrite (onDataReceived_not_json _ _ Hp). fold text.
    destruct (trim text) eqn:E; cbn.
    + split; [reflexivity|].
      split; [intros _ Hne; now contradiction Hne|].
      split; [reflexivity | discriminate].
    + split; [reflexivity|].
      split; [intros _ _; repeat split; reflexivity|].
      split; [discriminate | discriminate].
Qed.

Lemma plain_text_fallback_witness :
  messages (app (snd (onDataReceived (bytes_of "hello there")
                        (initial_world sample_clock)))) =
  [ChatEntry.mk 1700000000000 assistant (Val (JString (lit "hello there")))
                (Val (JArray [])) 1700000000001].
Proof.
  assert (Hn : parses_as_ControlMessage (bytes_of "hello there") = false)
    by (vm_compute; reflexivity).
  pose proof (plain_text_fallback (bytes_of "hello there")
                (initial_world sample_clock) Hn) as P.
  cbv zeta in P. destruct P as (_ & _ & H & _).
  refine (proj1 (H _ _)); vm_compute; [reflexivity | discriminate].
Defined.

(** C5. In every world, after the payload
    [{"type":"assistant_message","message":"hi"}] is received the chat is
    the chat of before followed by the entry (assistant, "hi"); the same
    holds with the text under [text] instead of [message], and [message]
    is preferred when both are given; after the bytes [hello], which are
    not JSON, the chat is the chat of before followed by the entry
    (assistant, "hello"), appended by the [catch] branch. In the four runs
    the handler completes normally, the error is left as it was and no call
    is made. *)
Theorem assistant_message_examples (w : World) :
  let entry (text : jsstring) :=
    ChatEntry.mk (clock w (reads w)) assistant (Val (JString text))
                 (Val (JArray [])) (clock w (S (reads w))) in
  let chat (payload : list byte) :=
    messages (app (snd (onDataReceived payload w))) in
  chat (bytes_of "{'type':'assistant_message','message':'hi'}") =
    messages (app w) ++ [entry (lit "hi")] /\
  chat (bytes_of "{'type':'assistant_message','text':'hi'}") =
    messages (app w) ++ [entry (lit "hi")] /\
  chat (bytes_of "{'type':'assistant_message','message':'hi','text':'other'}") =
    messages (app w) ++ [entry (lit "hi")] /\
  JSON.parse (TextDecoder.decode (bytes_of "hello")) = None /\
  chat (bytes_of "hello") = messages (app w) ++ [entry (lit "hello")] /\
  Forall (fun payload =>
            fst (onDataReceived payload w) = Normal tt /\
            error (app (snd (onDataReceived payload w))) = error (app w) /\
            calls (snd (onDataReceived payload w)) = calls w)
         [bytes_of "{'type':'assistant_message','message':'hi'}";
          bytes_of "{'type':'assistant_message','text':'hi'}";
          bytes_of "{'type':'assistant_message','message':'hi','text':'other'}";
          bytes_of "hello"].
Proof.
  cbv zeta beta.
  assert (H1 := onDataReceived_assistant_message
    (bytes_of "{'type':'assistant_message','message':'hi'}")
    [(lit "type", JString (lit "assistant_message"));
     (lit "message", JString (lit "hi"))] w
    ltac:(vm_compute; reflexivity) eq_refl).
  assert (H2 := onDataReceived_assistant_message
    (bytes_of "{'type':'assistant_message','text':'hi'}")
    [(lit "type", JString (lit "assistant_message"));
     (lit "text", JString (lit "hi"))] w
    ltac:(vm_compute; reflexivity) eq_refl).
  assert (H3 := onDataReceived_assistant_message
    (bytes_of "{'type':'assistant_message','message':'hi','text':'other'}")
    [(lit "type", JString (lit "assistant_message"));
     (lit "message", JString (lit "hi"));
     (lit "text", JString (lit "other"))] w
    ltac:(vm_compute; reflexivity) eq_refl).
  assert (H4 : onDataReceived (bytes_of "hello") w =
    (Normal tt,
     mkWorld
       (setMessages_in
          (messages (app w) ++
           [ChatEntry.mk (clock w (reads w)) assistant
              (Val (JString (lit "hello"))) (Val (JArray []))
              (clock w (S (reads w)))])
          (app w))
       (clock w) (S (S (reads w))) (calls w))).
  { rewrite onDataReceived_not_json by (vm_compute; reflexivity).
    reflexivity. }
  rewrite H1, H2, H3, H4.
  repeat split; try reflexivity.
  repeat constructor.
Qed.

(** C10 (the code departs from the claim). The payload [null] is valid JSON
    with no [type], and it is not dropped: reading [data.type] throws, the
    [catch] branch runs, and the chat entry (assistant, "null") is
    appended. *)
Theorem null_payload_is_appended :
  JSON.parse (TextDecoder.decode (bytes_of "null")) = Some JNull /\
  onDataReceived (bytes_of "null") (initial_world sample_clock) =
    (Normal tt,
     mkWorld
       (setMessages_in
          [ChatEntry.mk 1700000000000 assistant (Val (JString (lit "null")))
                        (Val (JArray [])) 1700000000001]
          initial_app)
       sample_clock 2 []).
Proof. split; vm_compute; reflexivity. Qed.

(* ------------------------------------------------------------------ *)
(** ** Sending a command *)

Lemma user_command_decoded (t : jsstring) (ts : Z) :
  Forall is_code_unit t ->
  JSON.parse (TextDecoder.decode (user_command t ts)) =
  Some (JObject [(lit "type", JString (lit "user_command"));
                 (lit "text", JString t);
                 (lit "ts", JNumber (mkNumber (ts <? 0) (Z.abs ts) 0))]).
Proof.
  intros Ht. unfold user_command. rewrite wire_roundtrip; [reflexivity|].
  repeat constructor; cbn [fst snd JSON.scalar_ok]; try exact Ht;
    vm_compute; intuition discriminate.
Qed.

Lemma triggerTool_publishes
    (w : World) (r : Room) (tool : Tool.t) (published : settled unit) :
  connected (app w) = true -> room (app w) = Some r ->
  Tool.key tool <> lit "send_email" ->
  calls (snd (triggerTool tool published w)) =
  publishData r (user_command (Tool.prompt tool) (clock w (reads w))) true
  :: calls w.
Proof.
  intros Hc Hr Hk. unfold triggerTool, bind, get. rewrite Hc, Hr.
  destruct (jsstring_eqb (Tool.key tool) (lit "send_email")) eqn:E;
    [apply jsstring_eqb_eq in E; contradiction|].
  unfold try_catch, bind, Date_now, call, await.
  destruct published; reflexivity.
Qed.

Lemma sendMessage_publishes
    (w : World) (r : Room) (published : settled unit) :
  connected (app w) = true -> room (app w) = Some r ->
  trim (inputMessage (app w)) <> [] ->
  calls (snd (sendMessage published w)) =
  publishData r
    (user_command (inputMessage (app w)) (clock w (S (S (reads w)))))
    true
  :: calls w.
Proof.
  intros Hc Hr Ht. unfold sendMessage, bind, get. rewrite Hc, Hr.
  destruct (trim (inputMessage (app w))); [contradiction|].
  unfold try_catch, bind, Date_now, call, await.
  destruct published; reflexivity.
Qed.

(** C6 (the code departs from the claim). For every text [t] (a string of
    code units) and every time stamp, the bytes of the user command parse,
    once decoded, to the object with [type = "user_command"], [text = t]
    and the time stamp; and both [triggerTool] (for a tool other than the
    email tool) and [sendMessage] hand exactly these bytes to
    [publishData]. What they pass with the bytes is the boolean [true],
    where [publishData] reads an options object: [true.reliable] is
    [undefined] and the packet goes out as [LOSSY], whereas the options
    [{reliable: true}] would have sent it as [RELIABLE]. *)
Theorem user_command_published_lossy (t : jsstring) (ts : Z) :
  Forall is_code_unit t ->
  (exists ms,
     JSON.parse (TextDecoder.decode (user_command t ts)) = Some (JObject ms) /\
     lookup (lit "type") ms = Val (JString (lit "user_command")) /\
     lookup (lit "text") ms = Val (JString t)) /\
  (forall w r tool published,
     connected (app w) = true -> room (app w) = Some r ->
     Tool.key tool <> lit "send_email" ->
     Tool.prompt tool = t -> clock w (reads w) = ts ->
     calls (snd (triggerTool tool published w)) =
       publishData r (user_command t ts) true :: calls w) /\
  (forall w r published,
     connected (app w) = true -> room (app w) = Some r ->
     inputMessage (app w) = t -> trim t <> [] ->
     clock w (S (S (reads w))) = ts ->
     calls (snd (sendMessage published w)) =
       publishData r (user_command t ts) true :: calls w) /\
  (forall r, sent_as (publishData r (user_command t ts) true) = Some LOSSY) /\
  options_reliable (JBool true) = Undefined /\
  packet_kind (JObject [(lit "reliable", JBool true)]) = RELIABLE.
Proof.
  intros Ht. split; [|split; [|split; [|repeat split]]].
  - eexists. split; [now apply user_command_decoded|]. split; reflexivity.
  - intros w r tool published Hc Hr Hk <- <-. now apply triggerTool_publishes.
  - intros w r published Hc Hr <- Hne <-. now apply sendMessage_publishes.
Qed.

Lemma user_command_published_lossy_witness :
  let tool :=
    Tool.mk (lit "open_application") (lit "Open App")
            (lit "Open common applications") (lit "Open calculator") in
  In tool tools /\
  calls (snd (triggerTool tool (Fulfilled tt) connected_world)) =
    [publishData (RoomRef 0)
       (user_command (lit "Open calculator") 1700000000000) true] /\
  map sent_as (calls (snd (triggerTool tool (Fulfilled tt) connected_world))) =
    [Some LOSSY].
Proof.
  cbv zeta.
  assert (Ht : Forall is_code_unit (lit "Open calculator"))
    by (repeat constructor; vm_compute; intuition discriminate).
  destruct (user_command_published_lossy (lit "Open calculator")
              1700000000000 Ht) as (_ & Htool & _ & Hkind & _).
  assert (Hcalls :
    calls (snd (triggerTool
                  (Tool.mk (lit "open_application") (lit "Open App")
                     (lit "Open common applications") (lit "Open calculator"))
                  (Fulfilled tt) connected_world)) =
    [publishData (RoomRef 0)
       (user_command (lit "Open calculator") 1700000000000) true]).
  { apply (Htool connected_world (RoomRef 0)); try reflexivity.
    vm_compute. discriminate. }
  split; [vm_compute; tauto|]. split; [exact Hcalls|].
  rewrite Hcalls. cbn [map]. now rewrite Hkind.
Defined.

(* ------------------------------------------------------------------ *)
(** ** The level meter *)

Section Rounding.

Variables prec emax : Z.

Lemma shr_1_nonneg (mrs : shr_record) :
  0 <= shr_m mrs -> 0 <= shr_m (shr_1 mrs).
Proof.
  destruct mrs as [m r s]. cbn [shr_m]. intros Hm. unfold shr_1.
  destruct m as [|[p|p|]|p]; cbn [shr_m]; lia.
Qed.

Lemma iter_shr_1_nonneg (p : positive) (mrs : shr_record) :
  0 <= shr_m mrs -> 0 <= shr_m (iter_pos shr_1 p mrs).
Proof.
  revert mrs. induction p as [p IH|p IH|]; intros mrs Hm; cbn [iter_pos].
  - apply IH, IH, shr_1_nonneg, Hm.
  - apply IH, IH, Hm.
  - apply shr_1_nonneg, Hm.
Qed.

Lemma shr_fexp_nonneg (m e : Z) (l : location) :
  0 <= m -> 0 <= shr_m (fst (shr_fexp prec emax m e l)).
Proof.
  intros Hm. unfold shr_fexp, shr.
  assert (H0 : 0 <= shr_m (shr_record_of_loc m l))
    by (destruct l as [|[]]; exact Hm).
  destruct (fexp prec emax (Zdigits2 m + e) - e) as [|p|p]; cbn [fst];
    [exact H0 | now apply iter_shr_1_nonneg | exact H0].
Qed.

Lemma round_nearest_even_nonneg (m : Z) (l : location) :
  0 <= m -> 0 <= round_nearest_even m l.
Proof.
  intros Hm. unfold round_nearest_even.
  destruct l as [|[]]; try exact Hm; [destruct (Z.even m)|]; lia.
Qed.

(** Rounding a non-negative mantissa gives a zero, a number or an
    infinity of the sign asked for, never NaN. *)
Lemma binary_round_aux_sign (s : bool) (m e : Z) (l : location) :
  0 <= m ->
  match binary_round_aux prec emax s m e l with
  | S754_zero s' => s' = s
  | S754_finite s' _ _ => s' = s
  | S754_infinity s' => s' = s
  | S754_nan => False
  end.
Proof.
  intros Hm. unfold binary_round_aux.
  pose proof (shr_fexp_nonneg m e l Hm) as H1.
  destruct (shr_fexp prec emax m e l) as [mrs' e']. cbn [fst] in H1.
  pose proof (shr_fexp_nonneg
                (round_nearest_even (shr_m mrs') (loc_of_shr_record mrs'))
                e' loc_Exact
                (round_nearest_even_nonneg _ _ H1)) as H2.
  destruct (shr_fexp prec emax
              (round_nearest_even (shr_m mrs') (loc_of_shr_record mrs'))
              e' loc_Exact) as [mrs'' e'']. cbn [fst] in H2.
  destruct (shr_m mrs'') as [|p|p]; [reflexivity| |lia].
  destruct (e'' <=? emax - prec); reflexivity.
Qed.

Lemma binary_round_aux_nonneg (m e : Z) (l : location) :
  0 <= m -> nonneg (binary_round_aux prec emax false m e l).
Proof.
  intros Hm. pose proof (binary_round_aux_sign false m e l Hm) as H.
  destruct (binary_round_aux prec emax false m e l); cbn; auto.
Qed.

Lemma binary_normalize_nonneg (m e : Z) :
  0 <= m -> nonneg (binary_normalize prec emax m e false).
Proof.
  intros Hm. unfold binary_normalize.
  destruct m as [|p|p]; [exact I| |lia].
  unfold binary_round.
  destruct (shl_align p e (fexp prec emax (Z.pos (digits2_pos p) + e)))
    as [mz ez].
  apply binary_round_aux_nonneg. lia.
Qed.

Lemma SFadd_nonneg (x y : spec_float) :
  nonneg x -> nonneg_finite y = true -> nonneg (SFadd prec emax x y).
Proof.
  destruct x as [sx|sx| |sx mx ex], y as [sy|sy| |sy my ey];
    cbn [nonneg nonneg_finite]; try discriminate; try contradiction;
    intros Hx Hy; try exact I.
  - destruct sx, sy; exact I.
  - cbn [SFadd nonneg]. now destruct sy.
  - exact Hx.
  - exact Hx.
  - exact Hx.
  - subst sx. destruct sy; [discriminate|].
    cbn [SFadd cond_Zopp]. apply binary_normalize_nonneg. lia.
Qed.

Lemma SFmul_nonneg (x y : spec_float) (my : positive) (ey : Z) :
  nonneg x -> y = S754_finite false my ey -> nonneg (SFmul prec emax x y).
Proof.
  intros Hx ->. destruct x as [sx|sx| |sx mx ex]; cbn [nonneg] in Hx;
    try contradiction; cbn [SFmul].
  - exact I.
  - subst sx. reflexivity.
  - subst sx. apply binary_round_aux_nonneg. lia.
Qed.

Lemma SFdiv_nonneg (x y : spec_float) (my : positive) (ey : Z) :
  nonneg x -> y = S754_finite false my ey -> nonneg (SFdiv prec emax x y).
Proof.
  intros Hx ->. destruct x as [sx|sx| |sx mx ex]; cbn [nonneg] in Hx;
    try contradiction; cbn [SFdiv].
  - exact I.
  - subst sx. reflexivity.
  - subst sx. unfold SFdiv_core_binary.
    set (m' := match _ with Z0 => _ | Zpos _ => _ | Zneg _ => _ end).
    assert (Hm' : 0 <= m').
    { subst m'. destruct (_ - _ - _) as [|p|p]; try lia.
      apply Z.shiftl_nonneg. lia. }
    pose proof (Z_div_mod m' (Z.pos my) ltac:(lia)) as Hd.
    destruct (Z.div_eucl m' (Z.pos my)) as [q r'].
    apply binary_round_aux_nonneg. nia.
Qed.

Lemma SFsqrt_nonneg (x : spec_float) :
  nonneg x -> nonneg (SFsqrt prec emax x).
Proof.
  intros Hx. destruct x as [sx|sx| |sx mx ex]; cbn [nonneg] in Hx;
    try contradiction; cbn [SFsqrt].
  - exact I.
  - subst sx. reflexivity.
  - subst sx. unfold SFsqrt_core_binary.
    set (m' := match _ with Z0 => _ | Zpos _ => _ | Zneg _ => _ end).
    pose proof (Z.sqrtrem_sqrt m') as Hs.
    destruct (Z.sqrtrem m') as [q r']. cbn [fst] in Hs.
    apply binary_round_aux_nonneg. subst q. apply Z.sqrt_nonneg.
Qed.

End Rounding.

(** The square of a normalised sample is a zero or a positive number
    (checked on the 256 bytes). *)
Lemma square_nonneg (b : byte) :
  nonneg_finite (fmul (sample b) (sample b)) = true.
Proof. destruct b; vm_compute; reflexivity. Qed.

Lemma sum_squares_nonneg (dataArray : list byte) :
  nonneg (sum_squares dataArray).
Proof.
  unfold sum_squares.
  assert (H : forall acc, nonneg acc ->
    nonneg (fold_left (fun sum b => fadd sum (fmul (sample b) (sample b)))
                      dataArray acc)).
  { induction dataArray as [|b bs IH]; intros acc Hacc; [exact Hacc|].
    cbn [fold_left]. apply IH. apply SFadd_nonneg; [exact Hacc|].
    apply square_nonneg. }
  apply H. exact I.
Qed.

Lemma rms_nonneg (dataArray : list byte) :
  length dataArray = frequencyBinCount -> nonneg (rms dataArray).
Proof.
  intros Hlen. unfold rms, Math.sqrt, fsqrt, fdiv. apply SFsqrt_nonneg.
  rewrite Hlen.
  apply (SFdiv_nonneg 53 1024 _ _ 4503599627370496 (-42));
    [apply sum_squares_nonneg | reflexivity].
Qed.

Lemma round_nonneg (x : spec_float) : nonneg x -> nonneg (Math.round x).
Proof.
  intros Hx. destruct x as [sx|sx| |sx mx ex]; cbn [nonneg] in Hx;
    try contradiction; cbn [Math.round]; try exact I; try exact Hx.
  subst sx. destruct (Z.leb_spec 0 ex); [reflexivity|]. cbn [cond_Zopp].
  set (n := (2 * Z.pos mx + 2 ^ (- ex)) / 2 ^ (- ex + 1)).
  assert (Hn : 0 <= n).
  { subst n. apply Z.div_pos.
    - pose proof (Z.pow_nonneg 2 (- ex) ltac:(lia)). lia.
    - apply Z.pow_pos_nonneg; lia. }
  destruct (n =? 0); [exact I|].
  now apply binary_normalize_nonneg.
Qed.

(** Comparing two positive numbers one way and the other. *)
Lemma SFcompare_swap (m1 m2 : positive) (e1 e2 : Z) :
  SFcompare (S754_finite false m2 e2) (S754_finite false m1 e1) =
  option_map CompOpp
    (SFcompare (S754_finite false m1 e1) (S754_finite false m2 e2)).
Proof.
  cbn [SFcompare option_map]. rewrite (Z.compare_antisym e2 e1).
  destruct (e2 ?= e1); cbn [CompOpp]; try reflexivity.
  rewrite (Pos.compare_cont_antisym m1 m2 Eq). reflexivity.
Qed.

(** The clamp: whatever non-negative number goes in, what comes out is
    between 0 and 100. *)
Lemma clamp_in_range (y : spec_float) :
  nonneg y ->
  let l := Math.min (binary64_of_Z 100) (Math.max (binary64_of_Z 0) y) in
  SFleb (binary64_of_Z 0) l = true /\ SFleb l (binary64_of_Z 100) = true.
Proof.
  intros Hy.
  change (binary64_of_Z 0) with (S754_zero false).
  change (binary64_of_Z 100) with (S754_finite false 7036874417766400 (-46)).
  destruct y as [sy|sy| |sy my ey]; cbn [nonneg] in Hy; try contradiction.
  - split; reflexivity.
  - subst sy. split; reflexivity.
  - subst sy. cbv zeta.
    change (Math.max (S754_zero false) (S754_finite false my ey))
      with (S754_finite false my ey).
    unfold Math.min, SFleb.
    pose proof (SFcompare_swap 7036874417766400 my (-46) ey) as Hs.
    destruct (SFcompare (S754_finite false 7036874417766400 (-46))
                        (S754_finite false my ey)) as [[| |]|] eqn:E;
      cbn [option_map CompOpp] in Hs.
    + rewrite Hs. split; reflexivity.
    + split; reflexivity.
    + rewrite Hs. split; reflexivity.
    + discriminate E.
Qed.

Lemma level_in_range (dataArray : list byte) :
  length dataArray = frequencyBinCount ->
  SFleb (binary64_of_Z 0) (level dataArray) = true /\
  SFleb (level dataArray) (binary64_of_Z 100) = true.
Proof.
  intros Hlen. unfold level. apply clamp_in_range. apply round_nonneg.
  unfold fmul.
  apply (SFmul_nonneg 53 1024 _ _ 7740561859543040 (-45));
    [now apply rms_nonneg | reflexivity].
Qed.

(** What the loop of [tick] adds up is a sum of multiples of [2 ^ -14]
    that stays far below [2 ^ 53]: every addition is exact. *)

Lemma iter_pos_nat {A} (f : A -> A) (p : positive) (x : A) :
  iter_pos f p x = Nat.iter (Pos.to_nat p) f x.
Proof.
  revert x. induction p as [p IH|p IH|]; intros x; cbn [iter_pos].
  - rewrite !IH, Pos2Nat.inj_xI.
    replace (2 * Pos.to_nat p)%nat with (Pos.to_nat p + Pos.to_nat p)%nat by lia.
    rewrite Nat.iter_succ_r, Nat.iter_add. reflexivity.
  - rewrite !IH, Pos2Nat.inj_xO.
    replace (2 * Pos.to_nat p)%nat with (Pos.to_nat p + Pos.to_nat p)%nat by lia.
    rewrite Nat.iter_add. reflexivity.
  - reflexivity.
Qed.

Lemma shr_1_double (n : nat) (m : positive) :
  Nat.iter n shr_1 (Build_shr_record (Zpos (Nat.iter n xO m)) false false) =
  Build_shr_record (Zpos m) false false.
Proof.
  induction n as [|n IH]; [reflexivity|].
  rewrite Nat.iter_succ_r, (Nat.iter_succ n _ xO). cbn [shr_1 orb]. exact IH.
Qed.

Lemma Pos_iter_xO_nat (m k : positive) :
  Pos.iter xO m k = Nat.iter (Pos.to_nat k) xO m.
Proof. apply Pos2Nat.inj_iter. Qed.

Lemma nat_iter_xO_value (n : nat) (m : positive) :
  Zpos (Nat.iter n xO m) = Zpos m * 2 ^ Z.of_nat n.
Proof.
  induction n as [|n IH]; [cbn; lia|].
  rewrite Nat.iter_succ, Pos2Z.inj_xO, IH, Nat2Z.inj_succ, Z.pow_succ_r by lia.
  ring.
Qed.

Lemma nat_iter_xO_digits (n : nat) (m : positive) :
  Zpos (digits2_pos (Nat.iter n xO m)) = Zpos (digits2_pos m) + Z.of_nat n.
Proof.
  induction n as [|n IH]; [cbn; lia|].
  rewrite Nat.iter_succ. cbn [digits2_pos]. rewrite Pos2Z.inj_succ, IH. lia.
Qed.

Lemma shr_fexp_canonical (m : positive) (e : Z) :
  Zpos (digits2_pos m) = 53 -> -1074 <= e ->
  shr_fexp 53 1024 (Zpos m) e loc_Exact =
  (Build_shr_record (Zpos m) false false, e).
Proof.
  intros Hd He. unfold shr_fexp, shr_record_of_loc, Zdigits2. rewrite Hd.
  replace (fexp 53 1024 (53 + e) - e) with 0; [reflexivity|].
  unfold fexp, emin. lia.
Qed.

(** A mantissa of 53 digits with an exponent in range is left as it is. *)
Lemma round_aux_canonical (m : positive) (e : Z) :
  Zpos (digits2_pos m) = 53 -> -1074 <= e <= 971 ->
  binary_round_aux 53 1024 false (Zpos m) e loc_Exact = S754_finite false m e.
Proof.
  intros Hd He. unfold binary_round_aux.
  rewrite shr_fexp_canonical by (exact Hd || lia).
  cbn [shr_m loc_of_shr_record round_nearest_even].
  rewrite shr_fexp_canonical by (exact Hd || lia). cbn [shr_m].
  destruct (Z.leb_spec e (1024 - 53)); [reflexivity|lia].
Qed.

(** Zeros shifted out of a longer mantissa are shifted out exactly. *)
Lemma round_aux_shifted (m : positive) (n : nat) (e : Z) :
  Zpos (digits2_pos m) = 53 -> -1074 <= e + Z.of_nat n <= 971 ->
  binary_round_aux 53 1024 false (Zpos (Nat.iter n xO m)) e loc_Exact =
  S754_finite false m (e + Z.of_nat n).
Proof.
  intros Hd He. destruct n as [|n].
  { cbn [Nat.iter]. rewrite Z.add_0_r in *. now apply round_aux_canonical. }
  unfold binary_round_aux.
  assert (Hs : shr_fexp 53 1024 (Zpos (Nat.iter (S n) xO m)) e loc_Exact =
               (Build_shr_record (Zpos m) false false, e + Z.of_nat (S n))).
  { unfold shr_fexp, shr_record_of_loc, Zdigits2.
    rewrite nat_iter_xO_digits, Hd.
    replace (fexp 53 1024 (53 + Z.of_nat (S n) + e) - e) with (Z.of_nat (S n))
      by (unfold fexp, emin; lia).
    rewrite Nat2Z.inj_succ, <- Zpos_P_of_succ_nat. cbn [shr].
    rewrite iter_pos_nat, SuccNat2Pos.id_succ, shr_1_double. reflexivity. }
  rewrite Hs. cbn [shr_m loc_of_shr_record round_nearest_even].
  rewrite shr_fexp_canonical by (exact Hd || lia). cbn [shr_m].
  destruct (Z.leb_spec (e + Z.of_nat (S n)) (1024 - 53)); [reflexivity|lia].
Qed.

(** [binary_round] of a number that has the value [m * 2 ^ e], for a
    mantissa [m] of 53 digits. *)
Lemma round_of_value (p : positive) (ep : Z) (m : positive) (e : Z) :
  Zpos (digits2_pos m) = 53 -> -1074 <= e <= 971 ->
  (ep <= e /\ Zpos p = Zpos m * 2 ^ (e - ep) \/
   e <= ep /\ Zpos m = Zpos p * 2 ^ (ep - e)) ->
  binary_round 53 1024 false p ep = S754_finite false m e.
Proof.
  intros Hd He Hv. unfold binary_round.
  destruct Hv as [[Hle Hv]|[Hle Hv]].
  - (* the mantissa is long: zeros are shifted out *)
    assert (Hp : p = Nat.iter (Z.to_nat (e - ep)) xO m).
    { apply Pos2Z.inj. rewrite nat_iter_xO_value, Z2Nat.id by lia. exact Hv. }
    assert (Hdp : Zpos (digits2_pos p) = 53 + (e - ep)).
    { rewrite Hp, nat_iter_xO_digits, Hd, Z2Nat.id by lia. reflexivity. }
    rewrite Hdp.
    replace (fexp 53 1024 (53 + (e - ep) + ep)) with e
      by (unfold fexp, emin; lia).
    unfold shl_align.
    destruct (e - ep) as [|d|d] eqn:Ed; try lia.
    + rewrite Hp. cbn [Z.to_nat Nat.iter].
      replace ep with e by lia. now apply round_aux_canonical.
    + rewrite Hp. rewrite round_aux_shifted; [|exact Hd|rewrite Z2Nat.id; lia].
      rewrite Z2Nat.id by lia. f_equal. lia.
  - (* the mantissa is short: it is shifted left *)
    assert (Hm : m = Nat.iter (Z.to_nat (ep - e)) xO p).
    { apply Pos2Z.inj. rewrite nat_iter_xO_value, Z2Nat.id by lia. exact Hv. }
    assert (Hdp : Zpos (digits2_pos p) = 53 - (ep - e)).
    { rewrite Hm, nat_iter_xO_digits, Z2Nat.id in Hd by lia. lia. }
    rewrite Hdp.
    replace (fexp 53 1024 (53 - (ep - e) + ep)) with e
      by (unfold fexp, emin; lia).
    unfold shl_align.
    destruct (e - ep) as [|d|d] eqn:Ed; try lia.
    + replace (ep - e) with 0 in Hm by lia. cbn in Hm. subst p.
      replace ep with e by lia. now apply round_aux_canonical.
    + replace (Pos.iter xO p d) with m.
      * now apply round_aux_canonical.
      * rewrite Hm, Pos_iter_xO_nat. f_equal.
        replace (ep - e) with (Zpos d) by lia. reflexivity.
Qed.

Lemma digits2_pos_bounds (p : positive) :
  2 ^ (Zpos (digits2_pos p) - 1) <= Zpos p < 2 ^ Zpos (digits2_pos p).
Proof.
  induction p as [p IH|p IH|]; cbn [digits2_pos];
    rewrite ?Pos2Z.inj_succ; [| |cbn; lia].
  - replace (Z.succ (Zpos (digits2_pos p)) - 1) with (Z.succ (Zpos (digits2_pos p) - 1)) by lia.
    rewrite !Z.pow_succ_r by lia. lia.
  - replace (Z.succ (Zpos (digits2_pos p)) - 1) with (Z.succ (Zpos (digits2_pos p) - 1)) by lia.
    rewrite !Z.pow_succ_r by lia. lia.
Qed.

Lemma digits2_pos_le (x y : positive) :
  Zpos x <= Zpos y -> Zpos (digits2_pos x) <= Zpos (digits2_pos y).
Proof.
  intros Hxy.
  destruct (Z.le_gt_cases (Zpos (digits2_pos x)) (Zpos (digits2_pos y))) as [H|H];
    [exact H|exfalso].
  pose proof (digits2_pos_bounds x) as [Hx _].
  pose proof (digits2_pos_bounds y) as [_ Hy].
  pose proof (Z.pow_le_mono_r 2 (Zpos (digits2_pos y)) (Zpos (digits2_pos x) - 1)
                ltac:(lia) ltac:(lia)).
  lia.
Qed.

(** A positive integer below [2 ^ 53] times a power of two is a number of
    the format: its mantissa is the integer shifted to 53 digits. *)
Lemma float_of_pos (p : positive) (e : Z) :
  Zpos p < 2 ^ 53 -> -1000 <= e <= 900 ->
  exists m em,
    float_of (Zpos p) e = S754_finite false m em /\
    Zpos (digits2_pos m) = 53 /\
    em = e + Zpos (digits2_pos p) - 53 /\
    Zpos m = Zpos p * 2 ^ (e - em) /\
    -1074 <= em <= e.
Proof.
  intros Hp He.
  assert (Hd : Zpos (digits2_pos p) <= 53).
  { pose proof (digits2_pos_bounds p) as [Hlo _].
    destruct (Z.le_gt_cases (Zpos (digits2_pos p)) 53) as [H|H]; [exact H|].
    pose proof (Z.pow_le_mono_r 2 53 (Zpos (digits2_pos p) - 1)
                  ltac:(lia) ltac:(lia)). lia. }
  set (k := Z.to_nat (53 - Zpos (digits2_pos p))).
  exists (Nat.iter k xO p), (e + Zpos (digits2_pos p) - 53).
  assert (Hk : Z.of_nat k = 53 - Zpos (digits2_pos p))
    by (subst k; rewrite Z2Nat.id; lia).
  assert (Hv : Zpos (Nat.iter k xO p) =
               Zpos p * 2 ^ (e - (e + Zpos (digits2_pos p) - 53))).
  { rewrite nat_iter_xO_value, Hk. f_equal. f_equal. lia. }
  assert (Hdm : Zpos (digits2_pos (Nat.iter k xO p)) = 53).
  { rewrite nat_iter_xO_digits, Hk. lia. }
  split; [|split; [exact Hdm|split; [reflexivity|split; [exact Hv|lia]]]].
  unfold float_of, binary_normalize.
  apply round_of_value; [exact Hdm | lia |].
  right. split; [lia|exact Hv].
Qed.

Lemma shl_align_value (m : positive) (e ez : Z) :
  ez <= e -> Zpos (fst (shl_align m e ez)) = Zpos m * 2 ^ (e - ez).
Proof.
  intros Hle. unfold shl_align.
  destruct (ez - e) as [|d|d] eqn:E; try lia; cbn [fst].
  - replace (e - ez) with 0 by lia. lia.
  - rewrite Pos_iter_xO_nat, nat_iter_xO_value, positive_nat_Z.
    f_equal. f_equal. lia.
Qed.

(** Adding two such numbers is exact while the sum stays below [2 ^ 53]. *)
Lemma fadd_exact (a q e : Z) :
  0 <= a -> 0 <= q -> a + q < 2 ^ 53 -> -1000 <= e <= 900 ->
  fadd (float_of a e) (float_of q e) = float_of (a + q) e.
Proof.
  intros Ha Hq Hs He.
  destruct a as [|a|a]; [|clear Ha|lia].
  { cbn [Z.add]. destruct q as [|q|q]; [reflexivity| |lia].
    destruct (float_of_pos q e ltac:(lia) He) as (m & em & -> & _).
    reflexivity. }
  destruct q as [|q|q]; [|clear Hq|lia].
  { rewrite Z.add_0_r.
    destruct (float_of_pos a e ltac:(lia) He) as (m & em & -> & _).
    reflexivity. }
  destruct (float_of_pos a e ltac:(lia) He) as (ma & ea & -> & Hda & Hea & Hva & Hra).
  destruct (float_of_pos q e ltac:(lia) He) as (mq & eq & -> & Hdq & Heq & Hvq & Hrq).
  change (Zpos a + Zpos q) with (Zpos (a + q)) in *.
  destruct (float_of_pos (a + q) e Hs He) as (ms & es & -> & Hds & Hes & Hvs & Hrs).
  unfold fadd, SFadd. cbn [cond_Zopp].
  set (ez := Z.min ea eq).
  pose proof (digits2_pos_bounds a) as Hba.
  pose proof (digits2_pos_bounds q) as Hbq.
  assert (Hza : ez <= ea) by (subst ez; lia).
  assert (Hzq : ez <= eq) by (subst ez; lia).
  assert (Hzs : ez <= es).
  { pose proof (digits2_pos_le a (a + q) ltac:(lia)).
    pose proof (digits2_pos_le q (a + q) ltac:(lia)). subst ez. lia. }
  assert (Hsum : Zpos (fst (shl_align ma ea ez)) + Zpos (fst (shl_align mq eq ez)) =
                 Zpos ms * 2 ^ (es - ez)).
  { rewrite !shl_align_value by assumption. rewrite Hva, Hvq, Hvs.
    rewrite <- !Z.mul_assoc, <- !Z.pow_add_r by lia.
    replace (e - ea + (ea - ez)) with (e - ez) by lia.
    replace (e - eq + (eq - ez)) with (e - ez) by lia.
    replace (e - es + (es - ez)) with (e - ez) by lia.
    rewrite Pos2Z.inj_add. ring. }
  change (Zpos (fst (shl_align ma ea ez)) + Zpos (fst (shl_align mq eq ez)))
    with (Zpos (fst (shl_align ma ea ez) + fst (shl_align mq eq ez))) in *.
  unfold binary_normalize.
  apply round_of_value; [exact Hds | lia |].
  left. split; [exact Hzs | exact Hsum].
Qed.

Lemma square_exact (b : byte) :
  fmul (sample b) (sample b) = float_of ((Z_of_byte b - 128) ^ 2) (-14).
Proof. destruct b; vm_compute; reflexivity. Qed.

Lemma square_bounds (b : byte) : 0 <= (Z_of_byte b - 128) ^ 2 <= 16384.
Proof. destruct b; vm_compute; split; discriminate. Qed.

Lemma sum_squares_exact (dataArray : list byte) :
  (length dataArray <= 1024)%nat ->
  sum_squares dataArray = float_of (energy dataArray) (-14) /\
  0 <= energy dataArray <= 16384 * Z.of_nat (length dataArray).
Proof.
  unfold sum_squares, energy.
  change (binary64_of_Z 0) with (float_of 0 (-14)).
  assert (H : forall acc n,
    0 <= acc <= 16384 * Z.of_nat n ->
    (n + length dataArray <= 1024)%nat ->
    fold_left (fun sum b => fadd sum (fmul (sample b) (sample b)))
              dataArray (float_of acc (-14)) =
    float_of (fold_left (fun sum b => sum + (Z_of_byte b - 128) ^ 2)
                        dataArray acc) (-14) /\
    0 <= fold_left (fun sum b => sum + (Z_of_byte b - 128) ^ 2) dataArray acc
      <= 16384 * Z.of_nat (n + length dataArray)).
  { induction dataArray as [|b bs IH]; intros acc n Hacc Hn.
    - cbn [fold_left length]. rewrite Nat.add_0_r. split; [reflexivity|exact Hacc].
    - cbn [fold_left length] in *.
      pose proof (square_bounds b) as Hb.
      rewrite square_exact, fadd_exact by lia.
      replace (n + S (length bs))%nat with (S n + length bs)%nat by lia.
      apply IH; lia. }
  intros Hlen. apply (H 0 0%nat); lia.
Qed.

(** Dividing by 1024 lowers the exponent by ten. *)
Lemma fdiv_1024_exact (n : Z) :
  0 <= n < 2 ^ 53 ->
  fdiv (float_of n (-14)) (binary64_of_Z 1024) = float_of n (-24).
Proof.
  intros Hn. destruct n as [|p|p]; [reflexivity| |lia].
  destruct (float_of_pos p (-14) ltac:(lia) ltac:(lia))
    as (m & em & -> & Hd & Hem & Hv & Hr).
  destruct (float_of_pos p (-24) ltac:(lia) ltac:(lia))
    as (m' & em' & -> & Hd' & Hem' & Hv' & Hr').
  assert (Hm : m' = m).
  { apply Pos2Z.inj. rewrite Hv, Hv'. f_equal. f_equal. lia. }
  subst m'.
  change (binary64_of_Z 1024) with (S754_finite false 4503599627370496 (-42)).
  unfold fdiv, SFdiv, SFdiv_core_binary. cbn [xorb Zdigits2]. rewrite Hd.
  change (Zpos (digits2_pos 4503599627370496)) with 53.
  replace (Z.min (fexp 53 1024 (53 + em - (53 + -42))) (em - -42)) with (em - 11)
    by (unfold fexp, emin; lia).
  replace (em - -42 - (em - 11)) with 53 by lia.
  assert (Hq : Z.div_eucl (Z.shiftl (Zpos m) 53) 4503599627370496 =
               (Zpos m~0, 0)).
  { rewrite Z.shiftl_mul_pow2 by lia.
    pose proof (Z_div_mod (Zpos m * 2 ^ 53) 4503599627370496 ltac:(lia)) as H.
    destruct (Z.div_eucl (Zpos m * 2 ^ 53) 4503599627370496) as [q r].
    destruct H as [H1 H2].
    change (2 ^ 53) with (2 * 4503599627370496) in H1.
    assert (q = 2 * Zpos m) by nia. assert (r = 0) by nia. subst q r.
    reflexivity. }
  cbv zeta. rewrite Hq. cbn [new_location Z.even new_location_even Z.eqb].
  change (Zpos m~0) with (Zpos (Nat.iter 1 xO m)).
  rewrite round_aux_shifted by (exact Hd || (cbn; lia)).
  f_equal. cbn. lia.
Qed.

Lemma level_by_energy (dataArray : list byte) :
  length dataArray = frequencyBinCount ->
  level dataArray = level_of_energy (energy dataArray).
Proof.
  intros Hlen. unfold level, rms, level_of_energy.
  destruct (sum_squares_exact dataArray) as [-> Hb];
    [rewrite Hlen; apply Nat.le_refl|].
  rewrite Hlen in *. change (Z.of_nat frequencyBinCount) with 1024 in *.
  rewrite fdiv_1024_exact; [reflexivity|].
  split; [lia|]. apply Z.le_lt_trans with (16384 * 1024); [lia|reflexivity].
Qed.

(** Where a result has to be rounded, it is off by at most one unit of
    its last place: this is all the square root and the product by 220
    need, because the nearest integer is decided by a margin far wider. *)
Lemma shr_1_half (mrs : shr_record) :
  0 <= shr_m mrs -> shr_m (shr_1 mrs) = shr_m mrs / 2.
Proof.
  destruct mrs as [m r s]. cbn [shr_m]. intros Hm. unfold shr_1.
  destruct m as [|[p|p|]|p]; cbn [shr_m]; try lia; try reflexivity.
  - apply Z.div_unique with 1; lia.
  - apply Z.div_unique with 0; lia.
Qed.

Lemma shr_iter_value (n : nat) (mrs : shr_record) :
  0 <= shr_m mrs ->
  shr_m (Nat.iter n shr_1 mrs) = shr_m mrs / 2 ^ Z.of_nat n.
Proof.
  intros Hm. induction n as [|n IH].
  - cbn. now rewrite Z.div_1_r.
  - rewrite Nat.iter_succ, shr_1_half, IH.
    + rewrite Nat2Z.inj_succ, Z.pow_succ_r, Z.div_div by lia.
      f_equal. lia.
    + rewrite IH. apply Z.div_pos; [exact Hm|]. apply Z.pow_pos_nonneg; lia.
Qed.

Lemma digits2_pos_unique (p : positive) (n : Z) :
  2 ^ (n - 1) <= Zpos p < 2 ^ n -> Zpos (digits2_pos p) = n.
Proof.
  intros [Hlo Hhi]. pose proof (digits2_pos_bounds p) as [Hlo' Hhi'].
  assert (Hn : 0 < n).
  { destruct (Z.lt_ge_cases 0 n) as [H|H]; [exact H|].
    rewrite (Z.pow_neg_r 2 (n - 1)) in Hlo by lia.
    destruct (Z.eq_dec n 0) as [->|]; [cbn in Hhi; lia|].
    rewrite Z.pow_neg_r in Hhi by lia. lia. }
  destruct (Z.lt_trichotomy (Zpos (digits2_pos p)) n) as [H|[H|H]];
    [exfalso|exact H|exfalso].
  - pose proof (Z.pow_le_mono_r 2 (Zpos (digits2_pos p)) (n - 1)
                  ltac:(lia) ltac:(lia)). lia.
  - pose proof (Z.pow_le_mono_r 2 n (Zpos (digits2_pos p) - 1)
                  ltac:(lia) ltac:(lia)). lia.
Qed.

(** Rounding a mantissa of at least 53 digits: the digits beyond the 53rd
    are dropped and the last place is kept or raised by one. *)
Lemma round_aux_bounds (P : positive) (e : Z) (l : location) :
  let k := Zpos (digits2_pos P) - 53 in
  0 <= k -> -1074 <= e + k <= 960 ->
  exists mr er,
    binary_round_aux 53 1024 false (Zpos P) e l = S754_finite false mr er /\
    Zpos (digits2_pos mr) = 53 /\
    e + k <= er <= e + k + 1 /\
    Zpos P / 2 ^ k <= Zpos mr * 2 ^ (er - (e + k)) <= Zpos P / 2 ^ k + 1.
Proof.
  intros k Hk He. unfold binary_round_aux.
  pose proof (digits2_pos_bounds P) as [HPlo HPhi].
  set (t := Zpos P / 2 ^ k).
  assert (H2k : 0 < 2 ^ k) by (apply Z.pow_pos_nonneg; lia).
  assert (Ht : 2 ^ 52 <= t < 2 ^ 53).
  { subst t. replace (Zpos (digits2_pos P)) with (k + 53) in * by (subst k; lia).
    replace (k + 53 - 1) with (52 + k) in HPlo by lia.
    rewrite Z.pow_add_r in HPlo, HPhi by lia. split.
    - apply Z.div_le_lower_bound; lia.
    - apply Z.div_lt_upper_bound; lia. }
  assert (Hs1 : exists mrs',
    shr_fexp 53 1024 (Zpos P) e l = (mrs', e + k) /\ shr_m mrs' = t).
  { unfold shr_fexp. cbn [Zdigits2].
    replace (fexp 53 1024 (Zpos (digits2_pos P) + e) - e) with k
      by (unfold fexp, emin; subst k; lia).
    assert (Hrec : shr_m (shr_record_of_loc (Zpos P) l) = Zpos P)
      by (destruct l as [|[]]; reflexivity).
    unfold shr. destruct k as [|kp|kp] eqn:Ek; [| |lia].
    - eexists. split; [rewrite Z.add_0_r; reflexivity|].
      rewrite Hrec. subst t. now rewrite Z.div_1_r.
    - eexists. split; [reflexivity|].
      rewrite iter_pos_nat, shr_iter_value by (rewrite Hrec; lia).
      rewrite Hrec, positive_nat_Z. reflexivity. }
  destruct Hs1 as (mrs' & -> & Hm').
  rewrite Hm'.
  set (m1 := round_nearest_even t (loc_of_shr_record mrs')).
  assert (Hm1 : m1 = t \/ m1 = t + 1).
  { subst m1. unfold round_nearest_even.
    destruct (loc_of_shr_record mrs') as [|[]]; auto.
    destruct (Z.even t); auto. }
  destruct (Z.lt_ge_cases m1 (2 ^ 53)) as [Hlt|Hge].
  - (* no carry *)
    destruct m1 as [|p1|p1] eqn:E1; try lia.
    assert (Hd1 : Zpos (digits2_pos p1) = 53)
      by (apply digits2_pos_unique; change (53 - 1) with 52; lia).
    rewrite shr_fexp_canonical by (exact Hd1 || lia). cbn [shr_m].
    destruct (Z.leb_spec (e + k) (1024 - 53)); [|lia].
    exists p1, (e + k). split; [reflexivity|]. split; [exact Hd1|].
    split; [lia|]. rewrite Z.sub_diag, Z.mul_1_r. lia.
  - (* the mantissa was raised to [2 ^ 53] *)
    assert (E1 : m1 = 2 ^ 53) by lia.
    rewrite E1. change (2 ^ 53) with (Zpos (Nat.iter 1 xO 4503599627370496%positive)).
    assert (Hs2 : shr_fexp 53 1024 (Zpos (Nat.iter 1 xO 4503599627370496%positive))
                    (e + k) loc_Exact =
                  (Build_shr_record (Zpos 4503599627370496%positive) false false, e + k + 1)).
    { unfold shr_fexp, shr_record_of_loc. cbn [Zdigits2].
      change (Zpos (digits2_pos (Nat.iter 1 xO 4503599627370496%positive))) with 54.
      replace (fexp 53 1024 (54 + (e + k)) - (e + k)) with 1
        by (unfold fexp, emin; lia).
      reflexivity. }
    rewrite Hs2. cbn [shr_m].
    destruct (Z.leb_spec (e + k + 1) (1024 - 53)); [|lia].
    exists 4503599627370496%positive, (e + k + 1).
    split; [reflexivity|]. split; [reflexivity|]. split; [lia|].
    replace (e + k + 1 - (e + k)) with 1 by lia.
    change (Zpos 4503599627370496%positive * 2 ^ 1) with (2 ^ 53). lia.
Qed.

Lemma digits2_pos_upper (p : positive) (n : Z) :
  0 <= n -> Zpos p < 2 ^ n -> Zpos (digits2_pos p) <= n.
Proof.
  intros Hn Hp. pose proof (digits2_pos_bounds p) as [Hlo _].
  destruct (Z.le_gt_cases (Zpos (digits2_pos p)) n) as [H|H]; [exact H|].
  pose proof (Z.pow_le_mono_r 2 n (Zpos (digits2_pos p) - 1)
                ltac:(lia) ltac:(lia)). lia.
Qed.

(** The square root of the mean square [S / 2 ^ 24]: with [g] binary
    places kept below [sqrt S / 2 ^ 12], it is [floor (sqrt (S * 4 ^ g))]
    or one more, in units of [2 ^ (-12 - g)]. *)
Lemma sqrt_bounds (S : positive) :
  Zpos S <= 2 ^ 24 ->
  exists mr er g q,
    Math.sqrt (float_of (Zpos S) (-24)) = S754_finite false mr er /\
    Zpos (digits2_pos mr) = 53 /\
    40 <= g <= 52 /\
    -12 - g <= er <= -12 - g + 1 /\
    q * q <= Zpos S * (2 ^ g * 2 ^ g) < (q + 1) * (q + 1) /\
    0 <= q < 2 ^ 53 /\
    q <= Zpos mr * 2 ^ (er - (-12 - g)) <= q + 1.
Proof.
  intros HS.
  destruct (float_of_pos S (-24)) as (m & em & -> & Hd & Hem & Hv & Hr);
    [apply Z.le_lt_trans with (2 ^ 24); [exact HS|reflexivity] | lia |].
  assert (Hds : 1 <= Zpos (digits2_pos S) <= 25).
  { split; [lia|]. apply digits2_pos_upper; [lia|].
    apply Z.le_lt_trans with (2 ^ 24); [exact HS|reflexivity]. }
  unfold Math.sqrt, fsqrt, SFsqrt, SFsqrt_core_binary. cbn [Zdigits2].
  rewrite Hd.
  set (e' := Z.div2 em - 26).
  assert (Hh : em = 2 * Z.div2 em \/ em = 2 * Z.div2 em + 1).
  { pose proof (Z.div2_odd em) as H. destruct (Z.odd em); cbn [Z.b2z] in H; lia. }
  assert (Hh' : 53 + em + 1 = 2 * Z.div2 (53 + em + 1) \/
                53 + em + 1 = 2 * Z.div2 (53 + em + 1) + 1).
  { pose proof (Z.div2_odd (53 + em + 1)) as H.
    destruct (Z.odd (53 + em + 1)); cbn [Z.b2z] in H; lia. }
  replace (Z.min (fexp 53 1024 (Z.div2 (53 + em + 1))) (Z.div2 em)) with e'
    by (subst e'; unfold fexp, emin; lia).
  assert (He' : -64 <= e' <= -52) by (subst e'; lia).
  set (s := em - 2 * e').
  assert (Hs : s = 52 \/ s = 53) by (subst s e'; lia).
  set (g := -12 - e').
  assert (Hm' : match s with
                | 0 => Zpos m
                | Zpos _ => Z.shiftl (Zpos m) s
                | Zneg _ => 0
                end = Zpos S * (2 ^ g * 2 ^ g)).
  { replace (match s with
             | 0 => Zpos m
             | Zpos _ => Z.shiftl (Zpos m) s
             | Zneg _ => 0
             end) with (Z.shiftl (Zpos m) s)
      by (destruct Hs as [-> | ->]; reflexivity).
    rewrite Z.shiftl_mul_pow2 by lia. rewrite Hv.
    rewrite <- Z.mul_assoc, <- !Z.pow_add_r by lia.
    f_equal. f_equal. subst s g. lia. }
  rewrite Hm'.
  assert (Hmb : 2 ^ 52 <= Zpos m < 2 ^ 53).
  { pose proof (digits2_pos_bounds m) as Hb. rewrite Hd in Hb. exact Hb. }
  assert (Hm'b : 2 ^ 104 <= Zpos S * (2 ^ g * 2 ^ g) < 2 ^ 106).
  { rewrite <- Hm'.
    replace (match s with
             | 0 => Zpos m
             | Zpos _ => Z.shiftl (Zpos m) s
             | Zneg _ => 0
             end) with (Z.shiftl (Zpos m) s)
      by (destruct Hs as [-> | ->]; reflexivity).
    rewrite Z.shiftl_mul_pow2 by lia.
    destruct Hs as [-> | ->].
    - change (2 ^ 104) with (2 ^ 52 * 2 ^ 52).
      change (2 ^ 106) with (2 ^ 53 * 2 ^ 52 * 2). nia.
    - change (2 ^ 104) with (2 ^ 52 * 2 ^ 52).
      change (2 ^ 106) with (2 ^ 53 * 2 ^ 53). nia. }
  pose proof (Z.sqrtrem_spec (Zpos S * (2 ^ g * 2 ^ g)) ltac:(lia)) as Hq.
  destruct (Z.sqrtrem (Zpos S * (2 ^ g * 2 ^ g))) as [q r].
  destruct Hq as [Hq Hrr].
  assert (Hqb : 2 ^ 52 <= q < 2 ^ 53).
  { change (2 ^ 104) with (2 ^ 52 * 2 ^ 52) in Hm'b.
    change (2 ^ 106) with (2 ^ 53 * 2 ^ 53) in Hm'b. nia. }
  destruct q as [|qp|qp]; try lia.
  assert (Hdq : Zpos (digits2_pos qp) = 53)
    by (apply digits2_pos_unique; change (53 - 1) with 52; lia).
  cbv zeta.
  destruct (round_aux_bounds qp e'
              (if r =? 0 then loc_Exact
               else loc_Inexact (if r <=? Zpos qp then Lt else Gt)))
    as (mr & er & -> & Hdr & Her & Hval);
    [rewrite Hdq; lia | rewrite Hdq; lia |].
  rewrite Hdq in Her, Hval. change (53 - 53) with 0 in Her, Hval.
  rewrite Z.add_0_r in Her, Hval. rewrite Z.pow_0_r, Z.div_1_r in Hval.
  exists mr, er, g, (Zpos qp).
  split; [reflexivity|]. split; [exact Hdr|]. split; [subst g; lia|].
  split; [subst g; lia|]. split; [nia|]. split; [lia|].
  replace (-12 - g) with e' by (subst g; lia). exact Hval.
Qed.

(** Multiplying by 220: the product of the mantissas has 105 or 106
    digits, of which 53 are kept. *)
Lemma mul_220_bounds (mr : positive) (er : Z) :
  Zpos (digits2_pos mr) = 53 -> -70 <= er <= -50 ->
  exists my ey k,
    fmul (S754_finite false mr er) (binary64_of_Z 220) =
      S754_finite false my ey /\
    (k = 52 \/ k = 53) /\
    (Zpos mr = 2 ^ 52 -> k = 52) /\
    er - 45 + k <= ey <= er - 45 + k + 1 /\
    (Zpos my * 2 ^ (ey - (er - 45 + k)) - 1) * 2 ^ k
      <= Zpos mr * (55 * 2 ^ 47)
      < (Zpos my * 2 ^ (ey - (er - 45 + k)) + 1) * 2 ^ k.
Proof.
  intros Hd Her.
  change (binary64_of_Z 220) with (S754_finite false 7740561859543040 (-45)).
  unfold fmul, SFmul. cbn [xorb].
  pose proof (digits2_pos_bounds mr) as Hb. rewrite Hd in Hb.
  change (53 - 1) with 52 in Hb.
  assert (HP : Zpos (mr * 7740561859543040) = Zpos mr * (55 * 2 ^ 47))
    by (rewrite Pos2Z.inj_mul; reflexivity).
  assert (HPb : 2 ^ 104 <= Zpos (mr * 7740561859543040) < 2 ^ 106).
  { rewrite HP. change (2 ^ 104) with (2 ^ 52 * (32 * 2 ^ 47)).
    change (2 ^ 106) with (2 ^ 53 * (64 * 2 ^ 47)).
    assert (0 < 2 ^ 47) by reflexivity. nia. }
  assert (HD : exists k, (k = 52 \/ k = 53) /\
                 Zpos (digits2_pos (mr * 7740561859543040)) = k + 53 /\
                 (Zpos mr = 2 ^ 52 -> k = 52)).
  { destruct (Z.lt_ge_cases (Zpos (mr * 7740561859543040)) (2 ^ 105)) as [H|H].
    - exists 52. split; [left; reflexivity|]. split; [|reflexivity].
      apply digits2_pos_unique. change (52 + 53 - 1) with 104.
      change (52 + 53) with 105. lia.
    - exists 53. split; [right; reflexivity|]. split.
      + apply digits2_pos_unique. change (53 + 53 - 1) with 105.
        change (53 + 53) with 106. lia.
      + intros E. rewrite HP, E in H. exfalso. revert H. apply Z.lt_nge.
        reflexivity. }
  destruct HD as (k & Hk & HD & Hk52).
  destruct (round_aux_bounds (mr * 7740561859543040) (er + -45) loc_Exact)
    as (my & ey & -> & _ & Hey & Hval); [rewrite HD; lia | rewrite HD; lia |].
  rewrite HD in Hey, Hval.
  replace (k + 53 - 53) with k in Hey, Hval by lia.
  replace (er + -45 + k) with (er - 45 + k) in Hey, Hval by lia.
  exists my, ey, k. split; [reflexivity|]. split; [exact Hk|].
  split; [exact Hk52|]. split; [lia|].
  rewrite <- HP.
  set (T := Zpos my * 2 ^ (ey - (er - 45 + k))) in *.
  assert (H2k : 0 < 2 ^ k) by (apply Z.pow_pos_nonneg; lia).
  pose proof (Z.mul_div_le (Zpos (mr * 7740561859543040)) (2 ^ k) H2k).
  pose proof (Z.mul_succ_div_gt (Zpos (mr * 7740561859543040)) (2 ^ k) H2k).
  nia.
Qed.

(** The arithmetic of the last step. [G] is [2 ^ g]; [A / G] approximates
    [sqrt S], [T * J / (1024 * G)] approximates [55 * sqrt S / 1024], and
    [n] is the integer nearest to it. *)
Lemma nearest_level (S G q A T J n L : Z) :
  1 <= S -> 2 ^ 40 <= G ->
  q * q <= S * (G * G) < (q + 1) * (q + 1) -> 0 <= q ->
  q <= A <= q + 1 ->
  J = 32 \/ J = 64 ->
  (T - 1) * J <= 55 * A < (T + 1) * J ->
  (2 * n - 1) * (512 * G) <= T * J < (2 * n + 1) * (512 * G) ->
  0 <= L <= 220 ->
  (1 <= L -> (2 * L - 1) * (2 * L - 1) * 2 ^ 18 + 1 <= 3025 * S) ->
  3025 * S + 1 <= (2 * L + 1) * (2 * L + 1) * 2 ^ 18 ->
  n = L.
Proof.
  intros HS HG Hq Hq0 HA HJ HT Hn HL Hlo Hhi.
  assert (HG0 : 0 < G) by (eapply Z.lt_le_trans; [|exact HG]; reflexivity).
  assert (HTJ : 55 * q - 64 <= T * J <= 55 * q + 119) by (destruct HJ; subst J; lia).
  change (2 ^ 18) with (512 * 512) in *.
  (* below *)
  assert (Hbelow : (2 * L - 1) * (512 * G) <= T * J).
  { destruct (Z.le_gt_cases 1 L) as [H1|H0].
    - specialize (Hlo H1).
      destruct (Z.le_gt_cases ((2 * L - 1) * (512 * G)) (T * J)) as [H|H];
        [exact H|exfalso].
      set (Z0 := (2 * L - 1) * (512 * G)) in *.
      assert (Hz0 : 0 <= Z0) by (subst Z0; nia).
      assert (H55 : 0 <= 55 * (q + 1) <= Z0 + 118) by lia.
      assert (Hsq : (55 * (q + 1)) * (55 * (q + 1)) <= (Z0 + 118) * (Z0 + 118))
        by (apply Z.mul_le_mono_nonneg; lia).
      assert (Hbig : Z0 * Z0 + G * G <= 3025 * (S * (G * G))).
      { replace (Z0 * Z0) with ((2 * L - 1) * (2 * L - 1) * (512 * 512) * (G * G))
          by (subst Z0; ring).
        replace (3025 * (S * (G * G))) with (3025 * S * (G * G)) by ring.
        assert (0 <= G * G) by nia.
        replace ((2 * L - 1) * (2 * L - 1) * (512 * 512) * (G * G) + G * G)
          with (((2 * L - 1) * (2 * L - 1) * (512 * 512) + 1) * (G * G)) by ring.
        apply Z.mul_le_mono_nonneg_r; lia. }
      assert (Hz0G : Z0 <= 439 * 512 * G) by (subst Z0; nia).
      assert (HGG : 2 ^ 40 * G <= G * G) by (apply Z.mul_le_mono_nonneg_r; lia).
      change (2 ^ 40) with 1099511627776 in *. nia.
    - replace L with 0 by lia. nia. }
  assert (Habove : T * J < (2 * L + 1) * (512 * G)).
  { destruct (Z.lt_ge_cases (T * J) ((2 * L + 1) * (512 * G))) as [H|H];
      [exact H|exfalso].
    set (Z1 := (2 * L + 1) * (512 * G)) in *.
    assert (Hz1 : 119 <= Z1).
    { subst Z1. change (2 ^ 40) with 1099511627776 in *. nia. }
    assert (H55 : 0 <= Z1 - 119 <= 55 * q) by lia.
    assert (Hsq : (Z1 - 119) * (Z1 - 119) <= (55 * q) * (55 * q))
      by (apply Z.mul_le_mono_nonneg; lia).
    assert (Hbig : 3025 * (S * (G * G)) + G * G <= Z1 * Z1).
    { replace (Z1 * Z1) with ((2 * L + 1) * (2 * L + 1) * (512 * 512) * (G * G))
        by (subst Z1; ring).
      replace (3025 * (S * (G * G)) + G * G) with ((3025 * S + 1) * (G * G)) by ring.
      assert (0 <= G * G) by nia.
      apply Z.mul_le_mono_nonneg_r; lia. }
    assert (Hz1G : Z1 <= 441 * 512 * G) by (subst Z1; nia).
    assert (HGG : 2 ^ 40 * G <= G * G) by (apply Z.mul_le_mono_nonneg_r; lia).
    change (2 ^ 40) with 1099511627776 in *. nia. }
  assert (Hc : 0 < 512 * G) by lia.
  assert (n <= L) by nia. assert (L <= n) by nia. lia.
Qed.

Lemma nearest_level_of_spec (S : Z) :
  0 <= S <= 2 ^ 24 ->
  let L := nearest_level_of S in
  0 <= L <= 220 /\
  (1 <= L -> (2 * L - 1) * (2 * L - 1) * 2 ^ 18 <= 3025 * S) /\
  3025 * S + 1 <= (2 * L + 1) * (2 * L + 1) * 2 ^ 18.
Proof.
  intros HS L. subst L. unfold nearest_level_of.
  set (X := 3025 * S / 2 ^ 18).
  assert (H18 : 0 < 2 ^ 18) by reflexivity.
  pose proof (Z.mul_div_le (3025 * S) (2 ^ 18) H18) as HX1.
  pose proof (Z.mul_succ_div_gt (3025 * S) (2 ^ 18) H18) as HX2.
  fold X in HX1, HX2.
  assert (HX0 : 0 <= X) by (subst X; apply Z.div_pos; lia).
  pose proof (Z.sqrt_spec X HX0) as Hsq. cbv zeta in Hsq.
  set (t := Z.sqrt X) in *.
  assert (Ht0 : 0 <= t) by (subst t; apply Z.sqrt_nonneg).
  assert (H2 : 0 < 2) by lia.
  pose proof (Z.mul_div_le (t + 1) 2 H2) as HL1.
  pose proof (Z.mul_succ_div_gt (t + 1) 2 H2) as HL2.
  set (L := (t + 1) / 2) in *.
  change (2 ^ 24) with 16777216 in HS. change (2 ^ 18) with 262144 in *.
  assert (HL0 : 0 <= L) by lia.
  split; [split; [exact HL0|]|split].
  - assert (Ht : t * t <= 193600) by nia.
    assert (t <= 440) by nia. lia.
  - intros H1. assert ((2 * L - 1) * (2 * L - 1) <= t * t) by nia. nia.
  - assert ((t + 1) * (t + 1) <= (2 * L + 1) * (2 * L + 1)) by nia. nia.
Qed.

Lemma tie_energies (L S : Z) :
  1 <= L <= 220 ->
  (2 * L - 1) * (2 * L - 1) * 2 ^ 18 = 3025 * S ->
  S = 262144 \/ S = 2359296 \/ S = 6553600 \/ S = 12845056.
Proof.
  intros HL. change (2 ^ 18) with 262144.
  assert (H : exists i, (i < 220)%nat /\ L = Z.of_nat i + 1)
    by (exists (Z.to_nat (L - 1)); split; [|rewrite Z2Nat.id]; lia).
  destruct H as (i & Hi & ->). clear HL.
  do 220 (destruct i as [|i];
          [match goal with
           | |- context [Z.of_nat ?k + 1] =>
               let v := eval compute in (Z.of_nat k + 1) in
               change (Z.of_nat k + 1) with v
           end; lia|]).
  lia.
Qed.

Lemma round_value (my : positive) (ey : Z) :
  ey < 0 ->
  Math.round (S754_finite false my ey) =
  if (2 * Zpos my + 2 ^ (- ey)) / 2 ^ (- ey + 1) =? 0
  then S754_zero false
  else binary64_of_Z ((2 * Zpos my + 2 ^ (- ey)) / 2 ^ (- ey + 1)).
Proof.
  intros He. unfold Math.round.
  destruct (Z.leb_spec 0 ey); [lia|reflexivity].
Qed.

Lemma clamp_integer (n : Z) :
  0 <= n <= 220 ->
  Math.min (binary64_of_Z 100)
    (Math.max (binary64_of_Z 0)
       (if n =? 0 then S754_zero false else binary64_of_Z n)) =
  binary64_of_Z (Z.min 100 n).
Proof.
  intros Hn.
  assert (H : exists i, (i <= 220)%nat /\ n = Z.of_nat i)
    by (exists (Z.to_nat n); split; [|rewrite Z2Nat.id]; lia).
  destruct H as (i & Hi & ->). clear Hn.
  do 221 (destruct i as [|i]; [vm_compute; reflexivity|]).
  lia.
Qed.

(** The level, for every sum of squares a window can have. *)
Lemma level_of_energy_exact (S : Z) :
  0 <= S <= 2 ^ 24 ->
  level_of_energy S = binary64_of_Z (Z.min 100 (nearest_level_of S)).
Proof.
  intros HS.
  destruct (nearest_level_of_spec S HS) as (HL & Hlo & Hhi).
  set (L := nearest_level_of S) in *.
  destruct S as [|p|p]; [vm_compute; reflexivity| |lia].
  (* a tie is one of four sums, which are evaluated *)
  destruct (Z.eq_dec ((2 * L - 1) * (2 * L - 1) * 2 ^ 18) (3025 * Zpos p))
    as [Htie|Hne].
  { destruct (Z.le_gt_cases 1 L) as [H1|H0].
    - destruct (tie_energies L (Zpos p) ltac:(lia) Htie)
        as [E|[E|[E|E]]]; subst L; rewrite E; vm_compute; reflexivity.
    - exfalso. replace L with 0 in Htie by lia. cbn in Htie. lia. }
  destruct (sqrt_bounds p (proj2 HS))
    as (mr & er & g & q & Hsqrt & Hdr & Hg & Her & Hq & Hq0 & HA).
  unfold level_of_energy. rewrite Hsqrt.
  destruct (mul_220_bounds mr er Hdr ltac:(lia))
    as (my & ey & k & -> & Hk & Hk52 & Hey & HT).
  rewrite round_value by lia.
  set (n := (2 * Zpos my + 2 ^ (- ey)) / 2 ^ (- ey + 1)).
  assert (Hn : n = L); [|rewrite Hn; apply clamp_integer; exact HL].
  pose proof (digits2_pos_bounds mr) as Hmr. rewrite Hdr in Hmr.
  change (53 - 1) with 52 in Hmr.
  set (G := 2 ^ g).
  assert (HG : 2 ^ 40 <= G) by (subst G; apply Z.pow_le_mono_r; lia).
  assert (HG0 : 0 < G) by (eapply Z.lt_le_trans; [|exact HG]; reflexivity).
  set (d := er - (-12 - g)) in *.
  set (A := Zpos mr * 2 ^ d) in *.
  set (Ey := er - 45 + k) in *.
  set (T := Zpos my * 2 ^ (ey - Ey)) in *.
  (* the unit of the product, against the unit of the root *)
  assert (Hd : d = 0 \/ d = 1) by (subst d; lia).
  assert (HJ : exists J, (J = 32 \/ J = 64) /\ J * 2 ^ 47 = 2 ^ k * 2 ^ d /\
                         J * 2 ^ (- Ey) = 1024 * G).
  { assert (Hj : k - 47 + d = 5 \/ k - 47 + d = 6).
    { destruct Hd as [Hd|Hd]; [lia|].
      assert (Zpos mr = 2 ^ 52).
      { subst A. rewrite Hd in HA. change (2 ^ 1) with 2 in HA. lia. }
      specialize (Hk52 H). lia. }
    exists (2 ^ (k - 47 + d)). split; [|split].
    - destruct Hj as [-> | ->]; [left|right]; reflexivity.
    - rewrite <- !Z.pow_add_r by lia. f_equal. lia.
    - change 1024 with (2 ^ 10). subst G.
      rewrite <- !Z.pow_add_r by (subst Ey d; lia). f_equal. subst Ey d. lia. }
  destruct HJ as (J & HJ & HJk & HJG).
  assert (H47 : 0 < 2 ^ 47) by reflexivity.
  assert (HTJ : (T - 1) * J <= 55 * A < (T + 1) * J).
  { assert (H2d : 0 < 2 ^ d) by (apply Z.pow_pos_nonneg; lia).
    assert (H1 : (T - 1) * J * 2 ^ 47 <= 55 * A * 2 ^ 47).
    { replace ((T - 1) * J * 2 ^ 47) with ((T - 1) * 2 ^ k * 2 ^ d)
        by (rewrite <- !Z.mul_assoc, HJk; ring).
      replace (55 * A * 2 ^ 47) with (Zpos mr * (55 * 2 ^ 47) * 2 ^ d)
        by (subst A; ring).
      apply Z.mul_le_mono_nonneg_r; lia. }
    assert (H2 : 55 * A * 2 ^ 47 < (T + 1) * J * 2 ^ 47).
    { replace ((T + 1) * J * 2 ^ 47) with ((T + 1) * 2 ^ k * 2 ^ d)
        by (rewrite <- !Z.mul_assoc, HJk; ring).
      replace (55 * A * 2 ^ 47) with (Zpos mr * (55 * 2 ^ 47) * 2 ^ d)
        by (subst A; ring).
      apply Z.mul_lt_mono_pos_r; lia. }
    split.
    - apply (Z.mul_le_mono_pos_r _ _ (2 ^ 47)); assumption.
    - apply (Z.mul_lt_mono_pos_r (2 ^ 47)); assumption. }
  (* [n] is the integer nearest to [T * 2 ^ Ey] *)
  assert (Hnn : (2 * n - 1) * (512 * G) <= T * J < (2 * n + 1) * (512 * G)).
  { assert (Hy : ey = Ey \/ ey = Ey + 1) by lia.
    assert (HEy : Ey < -1) by (subst Ey; lia).
    set (H := 2 ^ (- Ey)) in *.
    assert (HH : 0 < H) by (subst H; apply Z.pow_pos_nonneg; lia).
    assert (Hdiv : (2 * n - 1) * H <= 2 * T < (2 * n + 1) * H).
    { assert (Hpos : 0 < 2 ^ (- ey + 1)) by (apply Z.pow_pos_nonneg; lia).
      pose proof (Z.mul_div_le (2 * Zpos my + 2 ^ (- ey)) _ Hpos) as D1.
      pose proof (Z.mul_succ_div_gt (2 * Zpos my + 2 ^ (- ey)) _ Hpos) as D2.
      fold n in D1, D2.
      destruct Hy as [Hy|Hy].
      - assert (E1 : 2 ^ (- ey) = H) by (subst H; f_equal; lia).
        assert (E2 : 2 ^ (- ey + 1) = 2 * H)
          by (rewrite Z.pow_add_r, E1 by lia; change (2 ^ 1) with 2; ring).
        assert (ET : T = Zpos my)
          by (subst T; replace (ey - Ey) with 0 by lia; cbn; lia).
        rewrite E1, E2 in *. rewrite ET. lia.
      - assert (E2 : 2 ^ (- ey + 1) = H) by (subst H; f_equal; lia).
        assert (E1 : 2 * 2 ^ (- ey) = H).
        { rewrite <- E2, Z.pow_add_r by lia. change (2 ^ 1) with 2. ring. }
        assert (ET : T = 2 * Zpos my)
          by (subst T; replace (ey - Ey) with 1 by lia;
              change (2 ^ 1) with 2; ring).
        rewrite E2 in *. rewrite ET. lia. }
    assert (HJ0 : 0 < J) by (destruct HJ; lia).
    destruct Hdiv as [D1 D2].
    apply (Z.mul_le_mono_nonneg_r _ _ J) in D1; [|lia].
    apply (Z.mul_lt_mono_pos_r J) in D2; [|lia].
    replace ((2 * n - 1) * H * J) with ((2 * n - 1) * (J * H)) in D1 by ring.
    replace ((2 * n + 1) * H * J) with ((2 * n + 1) * (J * H)) in D2 by ring.
    rewrite HJG in D1, D2. clear - D1 D2. lia. }
  apply (nearest_level (Zpos p) G q A T J n L); try assumption; lia.
Qed.

(** The mean of the squares, as the loop and the division compute it, is
    [energy / 2 ^ 24] without any rounding. *)
Lemma mean_square_exact (dataArray : list byte) :
  length dataArray = frequencyBinCount ->
  is_dyadic (fdiv (sum_squares dataArray) (binary64_of_Z 1024))
            (energy dataArray) (-24).
Proof.
  intros Hlen.
  destruct (sum_squares_exact dataArray) as [-> Hb];
    [rewrite Hlen; apply Nat.le_refl|].
  rewrite Hlen in Hb. change (Z.of_nat frequencyBinCount) with 1024 in Hb.
  assert (H53 : energy dataArray < 2 ^ 53)
    by (apply Z.le_lt_trans with (16384 * 1024); [lia|reflexivity]).
  rewrite fdiv_1024_exact by lia.
  destruct (energy dataArray) as [|p|p]; [reflexivity| |lia].
  destruct (float_of_pos p (-24) H53 ltac:(lia)) as (m & em & -> & _ & _ & Hv & Hr).
  cbn [is_dyadic]. split; [lia|exact Hv].
Qed.

(** C8. For every window of 1024 samples: what [tick] publishes is
    [level]; the mean of the squares of the normalised samples is computed
    without rounding, it is [energy / 2 ^ 24]; and the level is
    [min 100 L], where [L] is the integer nearest to
    [220 * sqrt (energy / 2 ^ 24)], the root-mean-square scaled by 220, a
    tie going up: [L - 1/2 <= 220 * sqrt (energy / 2 ^ 24) < L + 1/2],
    stated on the squares. So the level lies between 0 and 100 and is not
    NaN. Examples: silence (every sample 128) gives 0; the full-scale
    square waves (samples alternating between 255 and 0, sample by sample
    or half a window each) give 100; a steady offset of 16 (every sample
    144) and the square wave between 112 and 144 give 28, the tie 27.5
    going up; a quarter of the window at 192 and the rest at 128 gives 55;
    half of the window at 192 and the rest at 128 gives 78. *)
Theorem mic_level_in_range (dataArray : list byte) (next : Z) (w : World) :
  length dataArray = frequencyBinCount ->
  let L := nearest_level_of (energy dataArray) in
  micLevel (app (snd (tick dataArray next w))) = level dataArray /\
  is_dyadic (fdiv (sum_squares dataArray) (binary64_of_Z 1024))
            (energy dataArray) (-24) /\
  0 <= L /\
  (L = 0 \/
   (2 * L - 1) * (2 * L - 1) * 2 ^ 24 <= 4 * (220 * 220) * energy dataArray) /\
  4 * (220 * 220) * energy dataArray < (2 * L + 1) * (2 * L + 1) * 2 ^ 24 /\
  level dataArray = binary64_of_Z (Z.min 100 L) /\
  SFleb (binary64_of_Z 0) (level dataArray) = true /\
  SFleb (level dataArray) (binary64_of_Z 100) = true /\
  level (repeat x80 1024) = binary64_of_Z 0 /\
  level (concat (repeat [xff; x00] 512)) = binary64_of_Z 100 /\
  level (repeat x00 512 ++ repeat xff 512) = binary64_of_Z 100 /\
  level (repeat x90 1024) = binary64_of_Z 28 /\
  level (concat (repeat [x70; x90] 512)) = binary64_of_Z 28 /\
  level (repeat xc0 256 ++ repeat x80 768) = binary64_of_Z 55 /\
  level (repeat xc0 512 ++ repeat x80 512) = binary64_of_Z 78.
Proof.
  intros Hlen L.
  assert (HE : 0 <= energy dataArray <= 2 ^ 24).
  { destruct (sum_squares_exact dataArray) as [_ Hb];
      [rewrite Hlen; apply Nat.le_refl|].
    rewrite Hlen in Hb. exact Hb. }
  destruct (nearest_level_of_spec (energy dataArray) HE) as (HL & Hlo & Hhi).
  fold L in HL, Hlo, Hhi.
  split; [reflexivity|]. split; [now apply mean_square_exact|].
  split; [lia|].
  change (2 ^ 24) with (64 * 2 ^ 18).
  split; [destruct (Z.le_gt_cases 1 L) as [H1|H0];
            [right; specialize (Hlo H1); lia | left; lia]|].
  split; [lia|].
  split; [rewrite level_by_energy by exact Hlen;
          now apply level_of_energy_exact|].
  split; [now apply level_in_range|]. split; [now apply level_in_range|].
  do 6 (split; [vm_compute; reflexivity|]). vm_compute. reflexivity.
Qed.

Lemma mic_level_in_range_witness :
  nearest_level_of (energy (repeat x90 1024)) = 28 /\
  level (repeat x90 1024) = binary64_of_Z 28.
Proof.
  split; [vm_compute; reflexivity|].
  destruct (mic_level_in_range (repeat x90 1024) 1
              (initial_world sample_clock) (repeat_length x90 1024))
    as (_ & _ & _ & _ & _ & H & _).
  exact H.
Defined.

(* ================================================================== *)
(** * Further properties *)

(* ------------------------------------------------------------------ *)
(** ** The token route *)

(** The route on a request whose body is an object. *)
Lemma post_token_object (env : TokenServer.Env) (ms : list (jsstring * json)) :
  TokenServer.post_token env (Val (JObject ms)) =
  if truthy (lookup (lit "identity") ms) then
    let r := or_else (lookup (lit "roomName") ms) default_room in
    if TokenServer.room_full (TokenServer.current_participants env r)
         (TokenServer.maxParticipants env)
    then TokenServer.mkRes 403
           (TokenServer.error_body (lit "Room is full. Please try again later."))
    else match TokenServer.toJwt env with
         | Fulfilled t => TokenServer.mkRes 200 (TokenServer.token_body t r)
         | Rejected _ =>
             TokenServer.mkRes 500
               (TokenServer.error_body (lit "Failed to generate token"))
         end
  else TokenServer.mkRes 400 (TokenServer.error_body (lit "identity is required")).
Proof.
  unfold TokenServer.post_token, TokenServer.token_route,
    TokenServer.destructure, default_room.
  destruct (truthy (lookup (lit "identity") ms)); cbn [negb]; [|reflexivity].
  cbv zeta.
  match goal with
  | |- context [TokenServer.room_full ?ps ?l] =>
      destruct (TokenServer.room_full ps l); [reflexivity|]
  end.
  destruct (TokenServer.toJwt env); reflexivity.
Qed.

(** X1. The token route answers with a token exactly when the request body
    is an object with a truthy [identity], the room it names (or
    [nevira-room]) is not full, and the token is signed; the status is then
    200, and 200 is never answered without a token. *)
Theorem token_iff_identity_and_capacity
    (env : TokenServer.Env) (req : jsval) (t : jsstring) (r : jsval) :
  (TokenServer.post_token env req =
     TokenServer.mkRes 200 (TokenServer.token_body t r)
   <->
   exists ms,
     req = Val (JObject ms) /\
     truthy (lookup (lit "identity") ms) = true /\
     r = or_else (lookup (lit "roomName") ms) default_room /\
     TokenServer.room_full (TokenServer.current_participants env r)
       (TokenServer.maxParticipants env) = false /\
     TokenServer.toJwt env = Fulfilled t) /\
  (TokenServer.body (TokenServer.post_token env req) =
     TokenServer.token_body t r ->
   TokenServer.status (TokenServer.post_token env req) = 200) /\
  (TokenServer.status (TokenServer.post_token env req) = 200 ->
   exists t' r',
     TokenServer.body (TokenServer.post_token env req) =
       TokenServer.token_body t' r').
Proof.
  assert (N : forall v, (forall ms, v <> JObject ms) ->
    TokenServer.status (TokenServer.post_token env (Val v)) <> 200 /\
    forall t r, TokenServer.body (TokenServer.post_token env (Val v)) <>
                TokenServer.token_body t r).
  { intros v Hv. destruct v; try (split; [|intros ? ?]; discriminate).
    now contradiction (Hv members). }
  destruct req as [|v].
  { split; [split|split]; try discriminate.
    intros (ms & H & _). discriminate. }
  destruct v as [| | | | |ms];
    try (match goal with
         | |- context [TokenServer.post_token env (Val ?v)] =>
             destruct (N v ltac:(intros; discriminate)) as [N1 N2]
         end;
         split; [split|split];
         [ intros H; exfalso; apply (N2 t r); now rewrite H
         | intros (ms & H & _); discriminate
         | intros H; exfalso; now apply (N2 t r)
         | intros H; exfalso; now apply N1 ]).
  rewrite post_token_object. cbv zeta.
  destruct (truthy (lookup (lit "identity") ms)) eqn:Hid.
  2:{ split; [split|split]; try discriminate.
      intros (ms' & [= <-] & H & _). congruence. }
  destruct (TokenServer.room_full
              (TokenServer.current_participants env
                 (or_else (lookup (lit "roomName") ms) default_room))
              (TokenServer.maxParticipants env)) eqn:Hfull.
  { split; [split|split]; try discriminate.
    intros (ms' & [= <-] & _ & -> & H & _). congruence. }
  destruct (TokenServer.toJwt env) as [t'|m] eqn:Hjwt.
  2:{ split; [split|split]; try discriminate.
      intros (ms' & [= <-] & _ & _ & _ & H). discriminate. }
  split; [split|split].
  - intros [= <- <-]. exists ms. repeat split; assumption.
  - intros (ms' & [= <-] & _ & -> & _ & [= ->]). reflexivity.
  - reflexivity.
  - intros _. eexists. eexists. reflexivity.
Qed.

(** X2. A room that the room service cannot report on, or reports without
    a participant list, counts as empty: a request with an identity gets
    its token when the limit is at least 1.  With a limit of 0 or less
    every such request is refused, the room being empty or not. *)
Theorem unknown_room_counts_as_empty
    (env : TokenServer.Env) (ms : list (jsstring * json))
    (limit : Z) (t : jsstring) :
  let r := or_else (lookup (lit "roomName") ms) default_room in
  truthy (lookup (lit "identity") ms) = true ->
  (exists m, TokenServer.getRoom env r = Rejected m) \/
  TokenServer.getRoom env r = Fulfilled (TokenServer.mkRoomInfo None) ->
  TokenServer.maxParticipants env = Some limit ->
  TokenServer.toJwt env = Fulfilled t ->
  TokenServer.post_token env (Val (JObject ms)) =
    (if 0 <? limit
     then TokenServer.mkRes 200 (TokenServer.token_body t r)
     else TokenServer.mkRes 403
            (TokenServer.error_body (lit "Room is full. Please try again later.")))
  /\
  (forall env' ms',
     truthy (lookup (lit "identity") ms') = true ->
     TokenServer.maxParticipants env' = Some limit -> limit <= 0 ->
     TokenServer.status (TokenServer.post_token env' (Val (JObject ms'))) = 403).
Proof.
  intros r Hid Hroom Hmax Hjwt. split.
  - rewrite post_token_object, Hid, Hmax. cbv zeta. fold r.
    assert (E : TokenServer.current_participants env r = []).
    { unfold TokenServer.current_participants.
      destruct Hroom as [[m ->] | ->]; reflexivity. }
    rewrite E. cbn [TokenServer.room_full length]. rewrite Hjwt.
    change (Z.of_nat 0) with 0.
    destruct (Z.ltb_spec 0 limit), (Z.leb_spec limit 0); try lia; reflexivity.
  - intros env' ms' Hid' Hmax' Hl. rewrite post_token_object, Hid', Hmax'.
    cbv zeta. cbn [TokenServer.room_full].
    destruct (Z.leb_spec limit
      (Z.of_nat (length (TokenServer.current_participants env'
         (or_else (lookup (lit "roomName") ms') default_room)))));
      [reflexivity | lia].
Qed.

Lemma unknown_room_counts_as_empty_witness :
  TokenServer.post_token
    (TokenServer.mkEnv None (fun _ => Rejected (lit "not found"))
       (Fulfilled (lit "jwt")))
    (Val (JObject [(lit "identity", JString (lit "user_7"))])) =
  TokenServer.mkRes 200 (TokenServer.token_body (lit "jwt") default_room).
Proof.
  refine (proj1 (unknown_room_counts_as_empty
    (TokenServer.mkEnv None (fun _ => Rejected (lit "not found"))
       (Fulfilled (lit "jwt")))
    [(lit "identity", JString (lit "user_7"))] 2 (lit "jwt")
    eq_refl _ eq_refl eq_refl)).
  left. exists (lit "not found"). reflexivity.
Defined.

(* ------------------------------------------------------------------ *)
(** ** The participant limit *)

Lemma trim_start_whitespace (ws s : jsstring) :
  Forall (fun u => is_js_whitespace u = true) ws ->
  trim_start (ws ++ s) = trim_start s.
Proof.
  induction 1 as [|u ws Hu _ IH]; [reflexivity|].
  cbn [List.app trim_start]. now rewrite Hu.
Qed.

Lemma take_digits_decimal (ds rest : jsstring) :
  is_decimal ds -> no_digit_ahead rest ->
  JSON.take_digits (ds ++ rest) = (ds, rest).
Proof.
  intros Hd Hr. induction Hd as [|d ds Hd _ IH].
  - destruct rest as [|c r]; [reflexivity|]. cbn in *. now rewrite Hr.
  - cbn [List.app JSON.take_digits]. unfold JSON.is_digit at 1. zbool.
    rewrite IH. reflexivity.
Qed.

Lemma parseInt_decimal (d : Z) (ds rest : jsstring) :
  is_decimal (d :: ds) -> no_digit_ahead rest ->
  parseInt ((d :: ds) ++ rest) = Some (JSON.digits_value (d :: ds)) /\
  parseInt (45 :: (d :: ds) ++ rest) = Some (- JSON.digits_value (d :: ds)).
Proof.
  intros Hd Hr.
  assert (H0 : 48 <= d <= 57) by now inversion Hd.
  pose proof (take_digits_decimal _ _ Hd Hr) as T.
  unfold parseInt. split.
  - cbn [List.app trim_start] in *.
    replace (is_js_whitespace d) with false
      by (unfold is_js_whitespace; zbool; reflexivity).
    rewrite !eat_other by lia. rewrite T. reflexivity.
  - cbn [trim_start]. change (is_js_whitespace 45) with false. cbn iota.
    cbn [JSON.eat]. rewrite Z.eqb_refl. rewrite T. reflexivity.
Qed.

Lemma parseInt_digits (n : Z) (rest : jsstring) :
  0 <= n -> no_digit_ahead rest ->
  parseInt (digits n ++ rest) = Some n /\
  parseInt (45 :: digits n ++ rest) = Some (- n).
Proof.
  intros Hn Hr. destruct (digits_spec n Hn) as (Hd & Hv & d & ds & E & _).
  rewrite E in *. rewrite <- Hv. now apply parseInt_decimal.
Qed.

Lemma parseInt_numeral (ws : jsstring) (n : Z) (rest : jsstring) :
  Forall (fun u => is_js_whitespace u = true) ws ->
  no_digit_ahead rest ->
  parseInt (ws ++ Number_toString n ++ rest) = Some n.
Proof.
  intros Hws Hr.
  assert (E : forall s, parseInt (ws ++ s) = parseInt s).
  { intros s. unfold parseInt. now rewrite trim_start_whitespace. }
  rewrite E. unfold Number_toString. destruct (Z.ltb_spec n 0).
  - cbn [List.app]. destruct (parseInt_digits (- n) rest) as [_ H1]; try lia; auto.
    rewrite H1. f_equal. lia.
  - destruct (parseInt_digits n rest) as [H1 _]; auto.
Qed.

(** X3. The participant limit is [MAX_PARTICIPANTS] read as a decimal
    numeral: white space before it and anything after its last digit are
    ignored, a minus sign is honoured.  (Stated for a numeral of at most
    2^53 in magnitude, up to which the number [parseInt] returns is the
    integer itself.)  When the variable is unset or empty the limit is 2. *)
Theorem limit_is_read_as_decimal
    (env : TokenServer.Env) (ws : jsstring) (n : Z) (rest : jsstring) :
  Z.abs n <= 2 ^ 53 ->
  Forall (fun u => is_js_whitespace u = true) ws ->
  no_digit_ahead rest ->
  TokenServer.MAX_PARTICIPANTS env = Some (ws ++ Number_toString n ++ rest) ->
  TokenServer.maxParticipants env = Some n /\
  (forall env',
     TokenServer.MAX_PARTICIPANTS env' = None \/
     TokenServer.MAX_PARTICIPANTS env' = Some [] ->
     TokenServer.maxParticipants env' = Some 2).
Proof.
  intros _ Hws Hr He. split.
  - unfold TokenServer.maxParticipants. rewrite He.
    pose proof (parseInt_numeral ws n rest Hws Hr) as H.
    destruct (ws ++ Number_toString n ++ rest) as [|c v] eqn:E; [|exact H].
    exfalso. apply app_eq_nil in E as [_ E]. apply app_eq_nil in E as [E _].
    unfold Number_toString in E. destruct (n <? 0); [discriminate|].
    destruct (Z.le_gt_cases 0 n) as [Hn|Hn].
    + destruct (digits_spec n Hn) as (_ & _ & d & ds & E' & _). congruence.
    + unfold digits in E. cbn [digits_fuel] in E.
      destruct (n <? 10); discriminate.
  - intros env' [H | H]; unfold TokenServer.maxParticipants; rewrite H;
      reflexivity.
Qed.

Lemma limit_is_read_as_decimal_witness :
  TokenServer.maxParticipants
    (TokenServer.mkEnv (Some (lit " 10 participants"))
       (fun _ => Rejected []) (Rejected [])) = Some 10.
Proof.
  refine (proj1 (limit_is_read_as_decimal
    (TokenServer.mkEnv (Some (lit " 10 participants"))
       (fun _ => Rejected []) (Rejected []))
    (lit " ") 10 (lit " participants") _ _ _ eq_refl)).
  - vm_compute. discriminate.
  - repeat constructor.
  - reflexivity.
Defined.

(** X4. A [MAX_PARTICIPANTS] that does not start, after white space, with a
    digit or a sign is read as NaN, and then no room is ever full: no
    request is answered 403, and a request with an identity gets its token
    however many participants the room has. *)
Theorem unreadable_limit_admits_everyone
    (env : TokenServer.Env) (c : Z) (s : jsstring)
    (ms : list (jsstring * json)) (t : jsstring) :
  TokenServer.MAX_PARTICIPANTS env = Some (c :: s) ->
  is_js_whitespace c = false -> JSON.is_digit c = false ->
  c <> 45 -> c <> 43 ->
  truthy (lookup (lit "identity") ms) = true ->
  TokenServer.toJwt env = Fulfilled t ->
  TokenServer.maxParticipants env = None /\
  TokenServer.post_token env (Val (JObject ms)) =
    TokenServer.mkRes 200
      (TokenServer.token_body t
         (or_else (lookup (lit "roomName") ms) default_room)) /\
  (forall req, TokenServer.status (TokenServer.post_token env req) <> 403).
Proof.
  intros He Hw Hd H45 H43 Hid Hjwt.
  assert (Hn : TokenServer.maxParticipants env = None).
  { unfold TokenServer.maxParticipants, parseInt. rewrite He.
    cbn [trim_start]. rewrite Hw. rewrite !eat_other by assumption.
    cbn [JSON.take_digits]. rewrite Hd. reflexivity. }
  split; [exact Hn|]. split.
  - rewrite post_token_object, Hid, Hn. cbv zeta. cbn [TokenServer.room_full].
    now rewrite Hjwt.
  - intros req. destruct req as [|[| | | | |ms']]; try discriminate.
    rewrite post_token_object, Hn. cbv zeta. cbn [TokenServer.room_full].
    destruct (truthy (lookup (lit "identity") ms')); [|discriminate].
    destruct (TokenServer.toJwt env); discriminate.
Qed.

Lemma unreadable_limit_admits_everyone_witness :
  TokenServer.post_token
    (TokenServer.mkEnv (Some (lit "two"))
       (fun _ => Fulfilled (TokenServer.mkRoomInfo
                              (Some [lit "a"; lit "b"; lit "c"])))
       (Fulfilled (lit "jwt")))
    (Val (JObject [(lit "identity", JString (lit "user_7"))])) =
  TokenServer.mkRes 200 (TokenServer.token_body (lit "jwt") default_room).
Proof.
  refine (proj1 (proj2 (unreadable_limit_admits_everyone
    (TokenServer.mkEnv (Some (lit "two"))
       (fun _ => Fulfilled (TokenServer.mkRoomInfo
                              (Some [lit "a"; lit "b"; lit "c"])))
       (Fulfilled (lit "jwt")))
    116 (lit "wo") [(lit "identity", JString (lit "user_7"))] (lit "jwt")
    eq_refl eq_refl eq_refl _ _ eq_refl eq_refl))); discriminate.
Defined.

(* ------------------------------------------------------------------ *)
(** ** The CORS policy *)

Section Matching.
Import RegExp.

Lemma nullable_spec (r : t) : nullable r = true <-> matches r [].
Proof.
  induction r; cbn [nullable].
  - split; [discriminate | intros H; inversion H].
  - split; [constructor | reflexivity].
  - split; [discriminate | intros H; inversion H].
  - split; [discriminate | intros H; inversion H].
  - rewrite andb_true_iff, IHr1, IHr2. split.
    + intros [H1 H2]. exact (m_seq _ _ [] [] H1 H2).
    + intros H. inversion H as [| | |a b s1 s2 H1 H2| | | |]; subst.
      match goal with
      | E : _ ++ _ = [] |- _ => apply app_eq_nil in E as [-> ->]
      end.
      now split.
  - rewrite orb_true_iff, IHr1, IHr2. split.
    + intros [H | H]; [now apply m_alt_l | now apply m_alt_r].
    + intros H. inversion H; subst; [left | right]; assumption.
  - split; [constructor | reflexivity].
Qed.

Lemma matches_seq_cons (a b : t) (c : Z) (s : jsstring) :
  matches (Seq a b) (c :: s) <->
  (exists s1 s2, s = s1 ++ s2 /\ matches a (c :: s1) /\ matches b s2) \/
  (matches a [] /\ matches b (c :: s)).
Proof.
  split.
  - intros H. inversion H as [| | |a' b' s1 s2 H1 H2| | | |]; subst.
    destruct s1 as [|x s1]; cbn [List.app] in *.
    + right. subst. now split.
    + match goal with
      | E : _ :: _ = _ :: _ |- _ => injection E as -> <-
      end.
      left. now exists s1, s2.
  - intros [(s1 & s2 & -> & H1 & H2) | [H1 H2]].
    + exact (m_seq _ _ (c :: s1) s2 H1 H2).
    + exact (m_seq _ _ [] (c :: s) H1 H2).
Qed.

Lemma matches_star_cons (a : t) (c : Z) (s : jsstring) :
  matches (Star a) (c :: s) <->
  exists s1 s2, s = s1 ++ s2 /\ matches a (c :: s1) /\ matches (Star a) s2.
Proof.
  split.
  - intros H. remember (Star a) as r eqn:Er. remember (c :: s) as u eqn:Eu.
    revert s Eu. induction H as [| | | | | | |a' s1 s2 H1 _ H2 IH2];
      intros s' Eu; try discriminate.
    injection Er as ->. destruct s1 as [|x s1]; cbn in Eu.
    + now apply IH2.
    + injection Eu as -> <-. now exists s1, s2.
  - intros (s1 & s2 & -> & H1 & H2). exact (m_star_cons _ (c :: s1) s2 H1 H2).
Qed.

Lemma derive_spec (c : Z) (r : t) (s : jsstring) :
  matches (derive c r) s <-> matches r (c :: s).
Proof.
  revert s. induction r; intros s; cbn [derive].
  - split; intros H; inversion H.
  - split; intros H; inversion H.
  - destruct (Z.eqb_spec c c0) as [->|Hne].
    + split; intros H; inversion H; subst; constructor.
    + split; intros H; inversion H; subst. congruence.
  - destruct (JSON.is_digit c) eqn:Hd.
    + split; intros H; inversion H; subst; now constructor.
    + split; intros H; inversion H; subst. congruence.
  - rewrite matches_seq_cons. destruct (nullable r1) eqn:Hn.
    + split.
      * intros H. inversion H as [| | | |a b s' H'|a b s' H'| |]; subst.
        -- inversion H' as [| | |a b s1 s2 H1 H2| | | |]; subst.
           left. exists s1, s2. split; [reflexivity|].
           split; [now apply IHr1 | exact H2].
        -- right. split; [now apply nullable_spec | now apply IHr2].
      * intros [(s1 & s2 & -> & H1 & H2) | [H1 H2]].
        -- apply m_alt_l. apply m_seq; [now apply IHr1 | exact H2].
        -- apply m_alt_r. now apply IHr2.
    + split.
      * intros H. inversion H as [| | |a b s1 s2 H1 H2| | | |]; subst.
        left. exists s1, s2. split; [reflexivity|].
        split; [now apply IHr1 | exact H2].
      * intros [(s1 & s2 & -> & H1 & H2) | [H1 H2]].
        -- apply m_seq; [now apply IHr1 | exact H2].
        -- apply nullable_spec in H1. congruence.
  - split.
    + intros H. inversion H; subst;
        [apply m_alt_l; now apply IHr1 | apply m_alt_r; now apply IHr2].
    + intros H. inversion H; subst;
        [apply m_alt_l; now apply IHr1 | apply m_alt_r; now apply IHr2].
  - rewrite matches_star_cons. split.
    + intros H. inversion H as [| | |a b s1 s2 H1 H2| | | |]; subst.
      exists s1, s2. split; [reflexivity|].
      split; [now apply IHr | exact H2].
    + intros (s1 & s2 & -> & H1 & H2). apply m_seq; [now apply IHr | exact H2].
Qed.

Lemma test_spec (r : t) (s : jsstring) : test r s = true <-> matches r s.
Proof.
  revert r. induction s as [|c s IH]; intros r; cbn [test].
  - apply nullable_spec.
  - rewrite IH. apply derive_spec.
Qed.

Lemma matches_Lit (p s : jsstring) : matches (Lit p) s <-> s = p.
Proof.
  revert s. induction p as [|c p IH]; intros s; cbn [Lit].
  - split; [intros H; now inversion H | intros ->; constructor].
  - split.
    + intros H. inversion H as [| | |a b s1 s2 H1 H2| | | |]; subst.
      inversion H1; subst. apply IH in H2. now subst.
    + intros ->. apply (m_seq _ _ [c] p); [constructor | now apply IH].
Qed.

Lemma matches_digits (s : jsstring) :
  matches (Star Digit) s <-> Forall (fun c => JSON.is_digit c = true) s.
Proof.
  split.
  - intros H. remember (Star Digit) as r eqn:Er.
    induction H as [| | | | | | |a s1 s2 H1 _ H2 IH2]; try discriminate.
    + constructor.
    + injection Er as ->. inversion H1; subst. constructor; auto.
  - induction 1 as [|c s Hc _ IH]; [constructor|].
    apply (m_star_cons _ [c] s); [now constructor | exact IH].
Qed.

Lemma matches_Seq (a b : t) (s : jsstring) :
  matches (Seq a b) s <->
  exists s1 s2, s = s1 ++ s2 /\ matches a s1 /\ matches b s2.
Proof.
  split.
  - intros H. inversion H; subst. eauto.
  - intros (s1 & s2 & -> & H1 & H2). now apply m_seq.
Qed.

Lemma matches_Alt (a b : t) (s : jsstring) :
  matches (Alt a b) s <-> matches a s \/ matches b s.
Proof.
  split.
  - intros H. inversion H; subst; [left | right]; assumption.
  - intros [H | H]; [now apply m_alt_l | now apply m_alt_r].
Qed.

Lemma dev_origin_spec (o : jsstring) :
  RegExp.test dev_origin o = true <-> is_dev_origin o.
Proof.
  rewrite test_spec. unfold dev_origin, is_dev_origin, Plus. split.
  - intros H.
    apply matches_Seq in H as (s1 & s2 & -> & H1 & H).
    apply matches_Lit in H1. subst s1.
    apply matches_Seq in H as (host & s3 & -> & H3 & H).
    apply matches_Seq in H as (s5 & s6 & -> & H5 & H).
    inversion H5; subst. clear H5.
    apply matches_Seq in H as (s7 & s8 & -> & H7 & H8).
    inversion H7 as [| |c Hc| | | | |]; subst. clear H7.
    apply matches_digits in H8.
    exists host, (c :: s8). split.
    + apply matches_Alt in H3 as [H3 | H3]; apply matches_Lit in H3;
        [now left | now right].
    + split; [discriminate|]. split; [now constructor | reflexivity].
  - intros (host & port & Hh & Hp & Hd & ->).
    apply m_seq; [now apply matches_Lit|].
    apply m_seq.
    + destruct Hh as [-> | ->];
        [apply m_alt_l | apply m_alt_r]; now apply matches_Lit.
    + destruct Hd as [|c port Hc Hd]; [contradiction|].
      apply (m_seq _ _ [58] (c :: port)); [constructor|].
      apply (m_seq _ _ [c] port); [now constructor | now apply matches_digits].
Qed.

End Matching.

(** X5. The CORS policy allows a request exactly when it carries no origin
    (or an empty one), or its origin is the configured [CORS_ORIGIN], or
    its origin is [http://localhost:PORT] or [http://127.0.0.1:PORT] for
    some decimal [PORT]; anything else, an origin that merely starts or
    ends like these included, is refused with a message naming it. *)
Theorem cors_allows_dev_origins
    (CORS_ORIGIN : option jsstring) (o : jsstring) :
  cors_origin CORS_ORIGIN None = Allowed /\
  (cors_origin CORS_ORIGIN (Some o) = Allowed <->
   o = [] \/ CORS_ORIGIN = Some o \/ is_dev_origin o) /\
  (cors_origin CORS_ORIGIN (Some o) = Allowed \/
   cors_origin CORS_ORIGIN (Some o) =
     Refused (lit "CORS not allowed for origin: " ++ o)).
Proof.
  split; [reflexivity|].
  destruct o as [|c o]; [split; [split; [now left | reflexivity] | now left]|].
  cbn [cors_origin].
  assert (L : is_dev_origin (lit "http://localhost:5173")).
  { apply dev_origin_spec. reflexivity. }
  assert (N : is_dev_origin (lit "http://127.0.0.1:5173")).
  { apply dev_origin_spec. reflexivity. }
  destruct (existsb (jsstring_eqb (c :: o)) (allowedOrigins CORS_ORIGIN)) eqn:Ein.
  - split; [|now left]. split; [intros _|reflexivity]. right.
    apply existsb_exists in Ein as (x & Hx & Ex).
    apply jsstring_eqb_eq in Ex. subst x.
    destruct Hx as [Hx | [Hx | [Hx | []]]].
    + destruct CORS_ORIGIN as [[|c' s']|].
      * right. now rewrite <- Hx.
      * left. now rewrite Hx.
      * right. now rewrite <- Hx.
    + right. now rewrite <- Hx.
    + right. now rewrite <- Hx.
  - destruct (RegExp.test dev_origin (c :: o)) eqn:Et.
    + split; [|now left]. split; [intros _|reflexivity].
      right; right. now apply dev_origin_spec.
    + split; [|now right]. split; [discriminate|].
      intros [H | [H | H]]; [discriminate| |].
      * exfalso. rewrite H in Ein. cbn [allowedOrigins existsb] in Ein.
        assert (R : jsstring_eqb (c :: o) (c :: o) = true)
          by now apply jsstring_eqb_eq.
        rewrite R in Ein. discriminate.
      * apply dev_origin_spec in H. congruence.
Qed.

(* ------------------------------------------------------------------ *)
(** ** A run of [connectToRoom] *)

(** The cases of a run of [connectToRoom], by how each awaited call
    settles. *)
Ltac connect_cases env w :=
  unfold connectToRoom, getToken;
  generalize (token_request (lit "user_" ++ Number_toString (random env)));
  intros ?body; mrun;
  destruct (fetched env) as [?resp|?m]; cbn;
  [ destruct (Response.ok resp); cbn;
    [ destruct (JSON.parse (Response.body resp)) as [[]|]; cbn;
      try (destruct (room_connected env); cbn;
           [ destruct (microphone env); cbn;
             [ destruct (meter env); cbn;
               try (destruct (levelRafRef (app w)) as [?h|]; cbn;
                    [destruct (h =? 0); cbn|]) | ] | ])
    | ]
  | ].

(** X6. However the calls it awaits settle, [connectToRoom] completes
    without an exception and with [connecting] cleared; it ends either
    connected to the new room with no error, or with an error and the
    [room] and [connected] it started from. *)
Theorem connectToRoom_settles (env : ConnectEnv) (w : World) :
  let w' := snd (connectToRoom env w) in
  fst (connectToRoom env w) = Normal tt /\
  connecting (app w') = false /\
  ((connected (app w') = true /\ room (app w') = Some (newRoom env) /\
    error (app w') = None)
   \/
   (connected (app w') = connected (app w) /\ room (app w') = room (app w) /\
    error (app w') <> None)).
Proof.
  cbv zeta. connect_cases env w;
    (split; [reflexivity|]); (split; [reflexivity|]);
    first [ left; repeat split; reflexivity
          | right; repeat split; first [reflexivity | discriminate] ].
Qed.

Lemma cancelLevelRaf_effect (w : World) :
  exists frames,
    cancelLevelRaf w =
      (Normal tt, mkWorld (app w) (clock w) (reads w) (frames ++ calls w)) /\
    Forall frame_call frames.
Proof.
  unfold cancelLevelRaf. unfold_monad.
  destruct (levelRafRef (app w)) as [h|]; [destruct (h =? 0)|].
  - exists []. destruct w. split; [reflexivity | constructor].
  - exists [cancelAnimationFrame h]. split; [reflexivity|].
    repeat constructor. exists h. now right.
  - exists []. destruct w. split; [reflexivity | constructor].
Qed.

Lemma setupWithStream_effect (h : Z) (w : World) :
  exists frames,
    setupWithStream h w =
      (Normal tt,
       mkWorld (setLevelRafRef_in (Some h) (app w)) (clock w) (reads w)
               (frames ++ calls w)) /\
    Forall frame_call frames.
Proof.
  unfold setupWithStream.
  destruct (cancelLevelRaf_effect w) as (frames & E & F).
  exists (requestAnimationFrame h :: frames). split.
  - unfold bind at 1. rewrite E. reflexivity.
  - constructor; [exists h; now left | exact F].
Qed.

Lemma setupMicLevelAnalyser_effect (m : MeterSetup) (w : World) :
  exists frames a',
    setupMicLevelAnalyser m w =
      (Normal tt, mkWorld a' (clock w) (reads w) (frames ++ calls w)) /\
    Forall frame_call frames /\
    (a' = app w \/ exists h, a' = setLevelRafRef_in (Some h) (app w)).
Proof.
  destruct m as [| |h]; cbn [setupMicLevelAnalyser].
  - exists [], (app w). destruct w. repeat split; [constructor | now left].
  - exists [], (app w). destruct w. repeat split; [constructor | now left].
  - destruct (setupWithStream_effect h w) as (frames & E & F).
    exists frames, (setLevelRafRef_in (Some h) (app w)).
    repeat split; [exact E | exact F | right; now exists h].
Qed.

(** The run of [connectToRoom] in which every awaited call succeeds. *)
Lemma connectToRoom_connects
    (env : ConnectEnv) (resp : Response.t) (ms : list (jsstring * json))
    (w : World) :
  fetched env = Fulfilled resp ->
  Response.ok resp = true ->
  JSON.parse (Response.body resp) = Some (JObject ms) ->
  room_connected env = Fulfilled tt ->
  microphone env = Fulfilled tt ->
  let r := newRoom env in
  let w1 :=
    mkWorld (setError_in None (setConnecting_in true (app w)))
      (clock w) (reads w)
      ([ setMicrophoneEnabled r true;
         Room_connect r LIVEKIT_URL (lookup (lit "token") ms);
         Room_on r; Room_new r;
         fetch TOKEN_SERVER
           (token_request (lit "user_" ++ Number_toString (random env))) ]
       ++ calls w) in
  let w2 := snd (setupMicLevelAnalyser (meter env) w1) in
  connectToRoom env w =
    (Normal tt,
     mkWorld
       (setConnecting_in false
          (setConnected_in true (setRoom_in (Some r) (app w2))))
       (clock w) (reads w) (calls w2)).
Proof.
  intros Hf Hok Hp Hc Hm r w1 w2. unfold w2, w1, r.
  unfold connectToRoom, getToken.
  generalize (token_request (lit "user_" ++ Number_toString (random env))).
  intros body. mrun. rewrite Hf. cbn. rewrite Hok. cbn. rewrite Hp. cbn.
  rewrite Hc. cbn. rewrite Hm. cbn.
  destruct (meter env) as [| |h]; cbn; try reflexivity.
  destruct (levelRafRef (app w)) as [h0|]; cbn; [destruct (h0 =? 0); cbn|];
    reflexivity.
Qed.

(** X7. When the token request is answered with a 2xx status and a JSON
    object, and the room connection and the microphone succeed,
    [connectToRoom] makes its calls in this order: the token request, the
    creation of the room, the registration of the listeners, the connection
    with the [token] member of the answer (undefined when there is none),
    the microphone; then only animation frames for the meter.  It ends
    connected to the new room, with no error and [connecting] cleared. *)
Theorem connectToRoom_success
    (env : ConnectEnv) (resp : Response.t) (ms : list (jsstring * json))
    (w : World) :
  fetched env = Fulfilled resp ->
  Response.ok resp = true ->
  JSON.parse (Response.body resp) = Some (JObject ms) ->
  room_connected env = Fulfilled tt ->
  microphone env = Fulfilled tt ->
  let r := newRoom env in
  let w' := snd (connectToRoom env w) in
  (exists frames,
     calls w' =
       frames ++
       [ setMicrophoneEnabled r true;
         Room_connect r LIVEKIT_URL (lookup (lit "token") ms);
         Room_on r; Room_new r;
         fetch TOKEN_SERVER
           (token_request (lit "user_" ++ Number_toString (random env))) ]
       ++ calls w /\
     Forall frame_call frames) /\
  fst (connectToRoom env w) = Normal tt /\
  connected (app w') = true /\ room (app w') = Some r /\
  error (app w') = None /\ connecting (app w') = false.
Proof.
  intros Hf Hok Hp Hc Hm r w'. unfold w'.
  rewrite (connectToRoom_connects env resp ms w Hf Hok Hp Hc Hm).
  cbv zeta.
  match goal with
  | |- context [setupMicLevelAnalyser ?m ?w1] =>
      destruct (setupMicLevelAnalyser_effect m w1) as (frames & a' & E & F & Ha)
  end.
  rewrite E. cbn [fst snd calls app clock reads].
  split; [exists frames; split; [reflexivity | exact F]|].
  destruct Ha as [-> | [h ->]]; repeat split; reflexivity.
Qed.

Lemma connectToRoom_success_witness :
  calls (snd (connectToRoom sample_env (initial_world sample_clock))) =
    [ requestAnimationFrame 9;
      setMicrophoneEnabled (RoomRef 1) true;
      Room_connect (RoomRef 1) LIVEKIT_URL (Val (JString (lit "jwt")));
      Room_on (RoomRef 1); Room_new (RoomRef 1);
      fetch TOKEN_SERVER (litq "{'identity':'user_42','roomName':'nevira-room'}") ]
  /\ connected (app (snd (connectToRoom sample_env (initial_world sample_clock)))) = true.
Proof.
  destruct (connectToRoom_success sample_env
              (Response.mk 200 (lit "OK")
                 (litq "{'token':'jwt','roomName':'nevira-room'}"))
              [(lit "token", JString (lit "jwt"));
               (lit "roomName", JString (lit "nevira-room"))]
              (initial_world sample_clock))
    as (_ & _ & Hc & _); try reflexivity.
  split; [vm_compute; reflexivity | exact Hc].
Defined.

(** X8. When the connection to the room, or the microphone after it, is
    rejected, [connectToRoom] reports the message of the rejection and
    leaves [room] and [connected] as they were.  The room object it created
    has its listeners registered and, in the second case, is connected; it
    is dropped without a call to disconnect it. *)
Theorem connectToRoom_abandons_room
    (env : ConnectEnv) (resp : Response.t) (ms : list (jsstring * json))
    (m : jsstring) (w : World) :
  fetched env = Fulfilled resp ->
  Response.ok resp = true ->
  JSON.parse (Response.body resp) = Some (JObject ms) ->
  room_connected env = Rejected m \/
  (room_connected env = Fulfilled tt /\ microphone env = Rejected m) ->
  let r := newRoom env in
  let w' := snd (connectToRoom env w) in
  error (app w') = Some (Text m) /\
  room (app w') = room (app w) /\ connected (app w') = connected (app w) /\
  connecting (app w') = false /\
  calls w' =
    match room_connected env with
    | Fulfilled _ => [setMicrophoneEnabled r true]
    | Rejected _ => []
    end ++
    [ Room_connect r LIVEKIT_URL (lookup (lit "token") ms);
      Room_on r; Room_new r;
      fetch TOKEN_SERVER
        (token_request (lit "user_" ++ Number_toString (random env))) ]
    ++ calls w.
Proof.
  intros Hf Hok Hp H. cbv zeta. unfold connectToRoom, getToken.
  generalize (token_request (lit "user_" ++ Number_toString (random env))).
  intros body. mrun. rewrite Hf. cbn. rewrite Hok. cbn. rewrite Hp. cbn.
  destruct H as [-> | [-> ->]]; cbn; repeat split; reflexivity.
Qed.

Lemma connectToRoom_abandons_room_witness :
  let env := mkConnectEnv 42 (RoomRef 1)
               (Fulfilled (Response.mk 200 (lit "OK") (litq "{'token':'jwt'}")))
               (Fulfilled tt) (Rejected (lit "Permission denied")) MeterFails in
  calls (snd (connectToRoom env (initial_world sample_clock))) =
    [ setMicrophoneEnabled (RoomRef 1) true;
      Room_connect (RoomRef 1) LIVEKIT_URL (Val (JString (lit "jwt")));
      Room_on (RoomRef 1); Room_new (RoomRef 1);
      fetch TOKEN_SERVER (litq "{'identity':'user_42','roomName':'nevira-room'}") ].
Proof.
  refine (proj2 (proj2 (proj2 (proj2 (connectToRoom_abandons_room
    (mkConnectEnv 42 (RoomRef 1)
       (Fulfilled (Response.mk 200 (lit "OK") (litq "{'token':'jwt'}")))
       (Fulfilled tt) (Rejected (lit "Permission denied")) MeterFails)
    (Response.mk 200 (lit "OK") (litq "{'token':'jwt'}"))
    [(lit "token", JString (lit "jwt"))]
    (lit "Permission denied") (initial_world sample_clock)
    eq_refl eq_refl eq_refl _))))).
  right. split; reflexivity.
Defined.

Lemma token_response_received (t r : jsstring) :
  Forall is_code_unit t -> Forall is_code_unit r ->
  JSON.parse (TextDecoder.decode (TextEncoder.encode (token_response t r))) =
    Some (JObject [(lit "token", JString t); (lit "roomName", JString r)]).
Proof.
  intros Ht Hr. unfold token_response. rewrite wire_roundtrip; [reflexivity|].
  repeat constructor; cbn [fst snd JSON.scalar_ok]; try assumption;
    vm_compute; intuition discriminate.
Qed.

(** X9. The request and the answer travel as UTF-8 JSON.  When the room is
    not full and the server signs the token [t], the request [getToken]
    sends is answered 200 with [t], and [connectToRoom] hands exactly [t]
    to [Room.connect]: with the connection and the microphone succeeding,
    the component ends connected to the new room. *)
Theorem token_handshake
    (srv : TokenServer.Env) (env : ConnectEnv) (resp : Response.t)
    (t : jsstring) (w : World) :
  let identity := lit "user_" ++ Number_toString (random env) in
  let sent := TextDecoder.decode (TextEncoder.encode (token_request identity)) in
  TokenServer.room_full
    (TokenServer.current_participants srv (Val (JString ROOM_NAME)))
    (TokenServer.maxParticipants srv) = false ->
  TokenServer.toJwt srv = Fulfilled t ->
  Forall is_code_unit t ->
  fetched env = Fulfilled resp ->
  (forall body, JSON.parse sent = Some body ->
     Response.status resp =
       TokenServer.status (TokenServer.post_token srv (Val body)) /\
     forall t' r',
       TokenServer.body (TokenServer.post_token srv (Val body)) =
         TokenServer.token_body t' (Val (JString r')) ->
       Response.body resp =
         TextDecoder.decode (TextEncoder.encode (token_response t' r'))) ->
  room_connected env = Fulfilled tt ->
  microphone env = Fulfilled tt ->
  let w' := snd (connectToRoom env w) in
  Response.status resp = 200 /\
  In (Room_connect (newRoom env) LIVEKIT_URL (Val (JString t))) (calls w') /\
  connected (app w') = true /\ room (app w') = Some (newRoom env) /\
  error (app w') = None.
Proof.
  intros identity sent Hfull Hjwt Ht Hf Hresp Hc Hm w'.
  destruct (token_request_received (random env)) as [Hp Hid].
  fold identity in Hp, Hid. fold sent in Hp.
  destruct (Hresp _ Hp) as [Hst Hbody].
  assert (E : TokenServer.post_token srv
                (Val (JObject [(lit "identity", JString identity);
                               (lit "roomName", JString ROOM_NAME)])) =
              TokenServer.mkRes 200
                (TokenServer.token_body t (Val (JString ROOM_NAME)))).
  { unfold TokenServer.post_token, TokenServer.token_route,
      TokenServer.destructure.
    change (lookup (lit "identity") _) with (Val (JString identity)).
    rewrite Hid. cbn [negb].
    change (or_else _ _) with (Val (JString ROOM_NAME)).
    rewrite Hfull, Hjwt. reflexivity. }
  rewrite E in Hst, Hbody. cbn [TokenServer.status TokenServer.body] in *.
  specialize (Hbody t ROOM_NAME eq_refl).
  assert (Hok : Response.ok resp = true)
    by (unfold Response.ok; rewrite Hst; reflexivity).
  assert (Hparse : JSON.parse (Response.body resp) =
            Some (JObject [(lit "token", JString t);
                           (lit "roomName", JString ROOM_NAME)])).
  { rewrite Hbody. apply token_response_received; [exact Ht|].
    repeat constructor; vm_compute; intuition discriminate. }
  split; [exact Hst|]. unfold w'.
  rewrite (connectToRoom_connects env resp _ w Hf Hok Hparse Hc Hm).
  cbv zeta.
  match goal with
  | |- context [setupMicLevelAnalyser ?m ?w1] =>
      destruct (setupMicLevelAnalyser_effect m w1) as (frames & a' & E' & F & Ha)
  end.
  rewrite E'. cbn [fst snd calls app clock reads]. split.
  - apply in_or_app. right. right. left. reflexivity.
  - destruct Ha as [-> | [h ->]]; repeat split; reflexivity.
Qed.

Lemma token_handshake_witness :
  In (Room_connect (RoomRef 1) LIVEKIT_URL (Val (JString (lit "jwt"))))
     (calls (snd (connectToRoom sample_env (initial_world sample_clock)))).
Proof.
  refine (proj1 (proj2 (token_handshake open_room_env sample_env
    (Response.mk 200 (lit "OK")
       (litq "{'token':'jwt','roomName':'nevira-room'}"))
    (lit "jwt") (initial_world sample_clock)
    eq_refl eq_refl _ eq_refl _ eq_refl eq_refl))).
  - repeat constructor; vm_compute; intuition discriminate.
  - intros body H. vm_compute in H. injection H as <-. split; [reflexivity|].
    intros t' r' H. vm_compute in H. injection H as <- <-.
    vm_compute. reflexivity.
Defined.

(* ------------------------------------------------------------------ *)
(** ** Identities *)

Lemma starts_with_spec (p s : jsstring) :
  starts_with p s = true <-> exists b, s = p ++ b.
Proof.
  revert s. induction p as [|x p IH]; intros s; simpl.
  - split; [intros _; now exists s | reflexivity].
  - destruct s as [|y s].
    + split; [discriminate | intros [b H]; discriminate].
    + rewrite andb_true_iff, Z.eqb_eq, IH. split.
      * intros [-> [b ->]]. now exists b.
      * intros [b H]. injection H as -> ->. split; [reflexivity | now exists b].
Qed.

Lemma includes_spec (s p : jsstring) :
  includes s p = true <-> occurs_in p s.
Proof.
  unfold occurs_in. induction s as [|y s IH].
  - simpl. rewrite orb_false_r, starts_with_spec. split.
    + intros [b H]. exists [], b. exact H.
    + intros (a & b & H). destruct a as [|? a]; [|discriminate].
      exists b. exact H.
  - cbn [includes]. rewrite orb_true_iff, starts_with_spec, IH. split.
    + intros [[b H] | (a & b & H)].
      * exists [], b. exact H.
      * exists (y :: a), b. simpl. now rewrite H.
    + intros (a & b & H). destruct a as [|x a].
      * left. exists b. exact H.
      * right. injection H as _ H. now exists a, b.
Qed.

Lemma isAgentIdentity_spec (identity : jsstring) :
  isAgentIdentity identity = true <->
  occurs_in (lit "agent") identity \/ occurs_in (lit "nevira") identity.
Proof.
  unfold isAgentIdentity. now rewrite orb_true_iff, !includes_spec.
Qed.

Lemma includes_needs_unit (s p : jsstring) (c : Z) :
  In c p -> ~ In c s -> includes s p = false.
Proof.
  intros Hp Hs. destruct (includes s p) eqn:E; [|reflexivity].
  apply includes_spec in E as (a & b & ->).
  exfalso. apply Hs. apply in_or_app. right. apply in_or_app. now left.
Qed.

(** X10. The identity [connectToRoom] makes up for the local user, [user_]
    followed by the decimal numeral of a number that is not negative, is
    never taken for the agent's by [updateParticipants] or the
    [TrackSubscribed] listener of another client. *)
Theorem local_identity_is_not_agent (n : Z) :
  0 <= n -> isAgentIdentity (lit "user_" ++ Number_toString n) = false.
Proof.
  intros Hn. unfold isAgentIdentity, Number_toString.
  destruct (Z.ltb_spec n 0); [lia|].
  destruct (digits_spec n Hn) as (Hd & _).
  assert (F : Forall (fun c => c <> 103 /\ c <> 118) (lit "user_" ++ digits n)).
  { apply Forall_app. split.
    - repeat constructor; discriminate.
    - eapply Forall_impl; [|exact Hd]. cbn. intros; lia. }
  rewrite Forall_forall in F.
  rewrite (includes_needs_unit _ (lit "agent") 103),
          (includes_needs_unit _ (lit "nevira") 118); try reflexivity.
  - cbn. tauto.
  - intros H0. now destruct (F _ H0).
  - cbn. tauto.
  - intros H0. now destruct (F _ H0).
Qed.

Lemma local_identity_is_not_agent_witness :
  isAgentIdentity (lit "user_" ++ Number_toString 9999) = false.
Proof. apply (local_identity_is_not_agent 9999). lia. Defined.

(** X11. After a participant has connected or disconnected, the participant
    list is the list of the room's remote participants at that time, in
    the same order, whatever it was before; and a participant is flagged as
    the agent exactly when [agent] or [nevira] occurs in its identity. *)
Theorem participants_mirror_room
    (w : World) (identity : jsstring) (remote : list jsstring) :
  let ps := participants (app (step w (ParticipantConnected identity remote))) in
  participants (app (step w (ParticipantDisconnected identity remote))) = ps /\
  map Participant.identity ps = remote /\
  Forall (fun p =>
            Participant.isAgent p = true <->
            occurs_in (lit "agent") (Participant.identity p) \/
            occurs_in (lit "nevira") (Participant.identity p)) ps.
Proof.
  cbv zeta.
  assert (E : forall e,
    e = ParticipantConnected identity remote \/
    e = ParticipantDisconnected identity remote ->
    participants (app (step w e)) =
      map (fun i => Participant.mk i (isAgentIdentity i)) remote).
  { intros e [-> | ->]; reflexivity. }
  rewrite (E _ (or_introl eq_refl)), (E _ (or_intror eq_refl)).
  split; [reflexivity|]. split.
  - rewrite map_map. cbn [Participant.identity]. apply map_id.
  - apply Forall_map, Forall_forall. intros i _.
    cbn [Participant.identity Participant.isAgent].
    apply isAgentIdentity_spec.
Qed.

(** X12. A subscribed track marks the agent as speaking, and sets the
    three-second timer that clears the mark, exactly when it is an audio
    track of a participant whose identity contains [agent] or [nevira];
    otherwise [agentSpeaking] is left as it was and no timer is set.  An
    audio track is attached in either case, a video track never is. *)
Theorem agent_audio_marks_speaking
    (w : World) (kind : TrackKind) (identity : jsstring) :
  let w1 := snd (onTrackSubscribed kind identity w) in
  let from_agent :=
    occurs_in (lit "agent") identity \/ occurs_in (lit "nevira") identity in
  (kind = audio /\ from_agent ->
     agentSpeaking (app w1) = true /\
     calls w1 = [setTimeout_agentSpeaking 3000; track_attach] ++ calls w /\
     agentSpeaking (app (snd (onAgentSpeakingTimeout w1))) = false) /\
  (kind = audio /\ ~ from_agent ->
     agentSpeaking (app w1) = agentSpeaking (app w) /\
     calls w1 = track_attach :: calls w) /\
  (kind = video ->
     agentSpeaking (app w1) = agentSpeaking (app w) /\ calls w1 = calls w).
Proof.
  cbv zeta. rewrite <- isAgentIdentity_spec.
  split; [|split].
  - intros [-> H]. mrun. rewrite H. cbn. repeat split; reflexivity.
  - intros [-> H]. mrun.
    destruct (isAgentIdentity identity); [now contradiction H|].
    cbn. split; reflexivity.
  - intros ->. mrun. split; reflexivity.
Qed.

(* ------------------------------------------------------------------ *)
(** ** Received data *)

(** X13. Whatever the payload, the [DataReceived] listener makes no call to
    the outside and leaves the session, the participants, the error text,
    the microphone state and the forms as they are.  It either changes
    nothing, or appends one entry to the chat, whose sender is the
    assistant, or opens the email popup and logs one entry. *)
Theorem onDataReceived_touches_chat_only (payload : list byte) (w : World) :
  let w' := snd (onDataReceived payload w) in
  let a := app w in
  let a' := app w' in
  calls w' = calls w /\
  (room a' = room a /\ connected a' = connected a /\
   connecting a' = connecting a /\ participants a' = participants a /\
   error a' = error a /\ muted a' = muted a /\
   emailForm a' = emailForm a /\ inputMessage a' = inputMessage a) /\
  (a' = a \/
   (exists e, ChatEntry.sender e = assistant /\
              a' = setMessages_in (messages a ++ [e]) a) \/
   (exists e, a' = setLogs_in (pushLog e (logs a)) (setShowEmailPopup_in true a))).
Proof.
  cbv zeta.
  assert (Same : forall v : World, v = w ->
    calls v = calls w /\
    (room (app v) = room (app w) /\ connected (app v) = connected (app w) /\
     connecting (app v) = connecting (app w) /\
     participants (app v) = participants (app w) /\
     error (app v) = error (app w) /\ muted (app v) = muted (app w) /\
     emailForm (app v) = emailForm (app w) /\
     inputMessage (app v) = inputMessage (app w)) /\
    (app v = app w \/
     (exists e, ChatEntry.sender e = assistant /\
                app v = setMessages_in (messages (app w) ++ [e]) (app w)) \/
     (exists e, app v = setLogs_in (pushLog e (logs (app w)))
                          (setShowEmailPopup_in true (app w))))).
  { intros v ->. split; [reflexivity|].
    split; [repeat split; reflexivity | now left]. }
  assert (Text : forall v : World,
    v = match trim (TextDecoder.decode payload) with
        | [] => w
        | _ :: _ =>
            mkWorld
              (setMessages_in
                 (messages (app w) ++
                  [ChatEntry.mk (clock w (reads w)) assistant
                     (Val (JString (TextDecoder.decode payload)))
                     (Val (JArray [])) (clock w (S (reads w)))])
                 (app w))
              (clock w) (S (S (reads w))) (calls w)
        end ->
    calls v = calls w /\
    (room (app v) = room (app w) /\ connected (app v) = connected (app w) /\
     connecting (app v) = connecting (app w) /\
     participants (app v) = participants (app w) /\
     error (app v) = error (app w) /\ muted (app v) = muted (app w) /\
     emailForm (app v) = emailForm (app w) /\
     inputMessage (app v) = inputMessage (app w)) /\
    (app v = app w \/
     (exists e, ChatEntry.sender e = assistant /\
                app v = setMessages_in (messages (app w) ++ [e]) (app w)) \/
     (exists e, app v = setLogs_in (pushLog e (logs (app w)))
                          (setShowEmailPopup_in true (app w))))).
  { intros v ->. destruct (trim (TextDecoder.decode payload)).
    - now apply Same.
    - split; [reflexivity|]. split; [repeat split; reflexivity|].
      right; left. eexists. split; [|reflexivity]. reflexivity. }
  destruct (JSON.parse (TextDecoder.decode payload)) as [data|] eqn:Hp.
  2:{ apply Text. rewrite (onDataReceived_not_json payload w Hp).
      destruct (trim (TextDecoder.decode payload)); reflexivity. }
  destruct (is_string
              match data with
              | JObject ms => lookup (lit "type") ms
              | _ => Undefined
              end (lit "email_popup_trigger")) eqn:E1.
  { destruct data; try discriminate. apply is_string_eq in E1.
    rewrite (onDataReceived_email_popup_trigger payload members w Hp E1).
    cbn [snd app calls]. split; [reflexivity|].
    split; [repeat split; reflexivity|]. right; right. eexists. reflexivity. }
  destruct (is_string
              match data with
              | JObject ms => lookup (lit "type") ms
              | _ => Undefined
              end (lit "assistant_message")) eqn:E2.
  { destruct data; try discriminate. apply is_string_eq in E2.
    rewrite (onDataReceived_assistant_message payload members w Hp E2).
    cbn [snd app calls]. split; [reflexivity|].
    split; [repeat split; reflexivity|]. right; left. eexists.
    split; [|reflexivity]. reflexivity. }
  destruct data as [| | | | |ms].
  - apply Text. rewrite (onDataReceived_null payload w Hp).
    destruct (trim (TextDecoder.decode payload)); reflexivity.
  - apply Same. rewrite (onDataReceived_other payload _ w Hp);
      [reflexivity | discriminate | intros; discriminate].
  - apply Same. rewrite (onDataReceived_other payload _ w Hp);
      [reflexivity | discriminate | intros; discriminate].
  - apply Same. rewrite (onDataReceived_other payload _ w Hp);
      [reflexivity | discriminate | intros; discriminate].
  - apply Same. rewrite (onDataReceived_other payload _ w Hp);
      [reflexivity | discriminate | intros; discriminate].
  - apply Same. rewrite (onDataReceived_other payload _ w Hp);
      [reflexivity | discriminate |].
    intros ms' [= <-]. split; intros H; apply is_string_eq in H; congruence.
Qed.

(* ------------------------------------------------------------------ *)
(** ** The microphone and the end of a session *)

Lemma toggleMute_fulfilled (w : World) (r : Room) :
  room (app w) = Some r ->
  toggleMute (Fulfilled tt) w =
    (Normal tt,
     mkWorld (setMuted_in (negb (muted (app w))) (app w)) (clock w) (reads w)
       (setMicrophoneEnabled r (muted (app w)) :: calls w)).
Proof.
  intros Hr. mrun. rewrite Hr. cbn. now rewrite negb_involutive.
Qed.

(** X14. [toggleMute] asks the room for the microphone state that is the
    opposite of the new [muted], and flips [muted] only once that call has
    succeeded: when the call is rejected the state is untouched and the
    rejection leaves the handler.  Two successful toggles restore the
    state.  Without a room nothing happens. *)
Theorem toggleMute_flips (w : World) (r : Room) (m : jsstring) :
  room (app w) = Some r ->
  let w1 := snd (toggleMute (Fulfilled tt) w) in
  muted (app w1) = negb (muted (app w)) /\
  calls w1 = setMicrophoneEnabled r (negb (muted (app w1))) :: calls w /\
  toggleMute (Rejected m) w =
    (Throw (Error m),
     mkWorld (app w) (clock w) (reads w)
       (setMicrophoneEnabled r (muted (app w)) :: calls w)) /\
  app (snd (toggleMute (Fulfilled tt) w1)) = app w /\
  calls (snd (toggleMute (Fulfilled tt) w1)) =
    [ setMicrophoneEnabled r (negb (muted (app w)));
      setMicrophoneEnabled r (muted (app w)) ] ++ calls w /\
  (forall w0 s, room (app w0) = None -> toggleMute s w0 = (Normal tt, w0)).
Proof.
  intros Hr w1. unfold w1. rewrite (toggleMute_fulfilled w r Hr).
  cbn [snd app calls muted setMuted_in].
  split; [reflexivity|]. split; [now rewrite negb_involutive|]. split.
  - mrun. rewrite Hr. cbn. now rewrite negb_involutive.
  - rewrite (toggleMute_fulfilled _ r) by exact Hr.
    cbn [snd app calls muted setMuted_in]. rewrite negb_involutive.
    split; [|split; [reflexivity|]].
    + destruct w as [a c n cs]. destruct a. reflexivity.
    + intros w0 s H0. mrun. now rewrite H0.
Qed.

Lemma toggleMute_flips_witness :
  muted (app (snd (toggleMute (Fulfilled tt) connected_world))) = true /\
  calls (snd (toggleMute (Fulfilled tt) connected_world)) =
    [setMicrophoneEnabled (RoomRef 0) false].
Proof.
  destruct (toggleMute_flips connected_world (RoomRef 0) [] eq_refl)
    as (H1 & H2 & _).
  split; [exact H1 | exact H2].
Defined.

Lemma last_microphone_frames (frames cs : list Call) :
  Forall frame_call frames ->
  last_microphone (frames ++ cs) = last_microphone cs.
Proof.
  induction 1 as [|c frames [h [-> | ->]] _ IH]; [reflexivity| |]; exact IH.
Qed.

Lemma onMicrophoneChange_fulfilled
    (id : jsstring) (p : Prefs.t) (w : World) (r : Room) (m : MeterSetup) :
  room (app w) = Some r ->
  snd (onMicrophoneChange id (Fulfilled tt) m p) w =
    setupMicLevelAnalyser m
      (mkWorld (app w) (clock w) (reads w)
               (setMicrophoneEnabled r true :: calls w)).
Proof.
  intros Hr. unfold onMicrophoneChange. cbn [snd]. unfold bind at 1.
  unfold get. rewrite Hr. reflexivity.
Qed.

(** X15. After a successful [toggleMute] the microphone was last asked to
    be enabled exactly when [muted] is false.  Choosing a microphone device
    breaks this: on a component that holds a room it asks for the
    microphone to be enabled and leaves [muted] as it is, so that a muted
    component ends with [muted] true and the microphone enabled. *)
Theorem microphone_change_enables_microphone
    (id : jsstring) (p : Prefs.t) (w : World) (r : Room) (m : MeterSetup) :
  room (app w) = Some r ->
  let w1 := snd (toggleMute (Fulfilled tt) w) in
  let change := onMicrophoneChange id (Fulfilled tt) m p in
  let w2 := snd (snd change w) in
  last_microphone (calls w1) = Some (negb (muted (app w1))) /\
  Prefs.selectedMicId (fst change) = id /\
  fst (snd change w) = Normal tt /\
  last_microphone (calls w2) = Some true /\
  muted (app w2) = muted (app w).
Proof.
  intros Hr w1 change w2. unfold w1, w2, change.
  rewrite (toggleMute_fulfilled w r Hr). cbn [snd calls app muted setMuted_in].
  split; [cbn; now rewrite negb_involutive|].
  split; [reflexivity|].
  rewrite (onMicrophoneChange_fulfilled id p w r m Hr).
  match goal with
  | |- context [setupMicLevelAnalyser ?m ?w0] =>
      destruct (setupMicLevelAnalyser_effect m w0) as (frames & a' & E & F & Ha)
  end.
  rewrite E. cbn [fst snd calls app clock reads].
  split; [reflexivity|]. split.
  - now rewrite last_microphone_frames.
  - destruct Ha as [-> | [h ->]]; reflexivity.
Qed.

Lemma microphone_change_enables_microphone_witness :
  let w := snd (toggleMute (Fulfilled tt) connected_world) in
  let change :=
    onMicrophoneChange (lit "mic-2") (Fulfilled tt) MeterPending initial_prefs in
  muted (app w) = true /\
  last_microphone (calls (snd (snd change w))) = Some true /\
  muted (app (snd (snd change w))) = true.
Proof.
  cbv zeta.
  destruct (microphone_change_enables_microphone (lit "mic-2") initial_prefs
              (snd (toggleMute (Fulfilled tt) connected_world)) (RoomRef 0)
              MeterPending eq_refl) as (_ & _ & _ & H1 & H2).
  split; [reflexivity|]. split; [exact H1 | exact H2].
Defined.

Lemma disconnectFromRoom_fulfilled (w : World) (r : Room) :
  room (app w) = Some r ->
  disconnectFromRoom (Fulfilled tt) w =
    (Normal tt,
     mkWorld
       (setParticipants_in []
          (setConnected_in false (setRoom_in None (app w))))
       (clock w) (reads w)
       (match levelRafRef (app w) with
        | Some h => if h =? 0 then [] else [cancelAnimationFrame h]
        | None => []
        end ++ Room_disconnect r :: calls w)).
Proof.
  intros Hr. mrun. rewrite Hr. cbn.
  destruct (levelRafRef (app w)) as [h|]; [destruct (h =? 0)|]; reflexivity.
Qed.

(** X16. [disconnectFromRoom] on a component that holds a room: when
    [room.disconnect()] succeeds the component ends with no room, not
    connected and an empty participant list, having cancelled the pending
    animation frame if there is one; a second call then does nothing.  When
    [room.disconnect()] is rejected nothing is reset: the room is kept and
    the rejection leaves the handler. *)
Theorem disconnectFromRoom_resets (w : World) (r : Room) (m : jsstring) :
  room (app w) = Some r ->
  let w1 := snd (disconnectFromRoom (Fulfilled tt) w) in
  room (app w1) = None /\ connected (app w1) = false /\
  participants (app w1) = [] /\
  calls w1 =
    match levelRafRef (app w) with
    | Some h => if h =? 0 then [] else [cancelAnimationFrame h]
    | None => []
    end ++ Room_disconnect r :: calls w /\
  (forall s, disconnectFromRoom s w1 = (Normal tt, w1)) /\
  disconnectFromRoom (Rejected m) w =
    (Throw (Error m),
     mkWorld (app w) (clock w) (reads w) (Room_disconnect r :: calls w)) /\
  (forall w0 s, room (app w0) = None -> disconnectFromRoom s w0 = (Normal tt, w0)).
Proof.
  intros Hr w1. unfold w1.
  rewrite (disconnectFromRoom_fulfilled w r Hr). cbn [snd app calls].
  do 4 (split; [reflexivity|]). split; [|split].
  - intros s. mrun. reflexivity.
  - mrun. rewrite Hr. reflexivity.
  - intros w0 s H0. mrun. now rewrite H0.
Qed.

Lemma disconnectFromRoom_resets_witness :
  calls (snd (disconnectFromRoom (Fulfilled tt) connected_world)) =
    [cancelAnimationFrame 7; Room_disconnect (RoomRef 0)] /\
  disconnectFromRoom (Rejected (lit "closed")) connected_world =
    (Throw (Error (lit "closed")),
     mkWorld connected_app sample_clock 0 [Room_disconnect (RoomRef 0)]).
Proof.
  destruct (disconnectFromRoom_resets connected_world (RoomRef 0)
              (lit "closed") eq_refl) as (_ & _ & _ & H1 & _ & H2 & _).
  split; [exact H1 | exact H2].
Defined.

(* ------------------------------------------------------------------ *)
(** ** Commands to the assistant *)

Lemma triggerTool_runs
    (w : World) (r : Room) (t : Tool.t) (published : settled unit) :
  connected (app w) = true -> room (app w) = Some r ->
  Tool.key t <> lit "send_email" ->
  triggerTool t published w =
    let sent :=
      publishData r (user_command (Tool.prompt t) (clock w (reads w))) true in
    match published with
    | Fulfilled _ =>
        (Normal tt,
         mkWorld
           (setLogs_in
              (pushLog (LogEntry.mk (clock w (S (reads w)))
                          (lit "Triggered tool: " ++ Tool.label t))
                       (logs (app w)))
              (app w))
           (clock w) (S (S (reads w))) (sent :: calls w))
    | Rejected _ =>
        (Normal tt,
         mkWorld
           (setError_in
              (Some (Text (lit
                 "Failed to send command to assistant. Please speak the request.")))
              (app w))
           (clock w) (S (reads w)) (sent :: calls w))
    end.
Proof.
  intros Hc Hr Hk.
  assert (E : jsstring_eqb (Tool.key t) (lit "send_email") = false).
  { destruct (jsstring_eqb (Tool.key t) (lit "send_email")) eqn:E;
      [apply jsstring_eqb_eq in E; contradiction | reflexivity]. }
  unfold triggerTool. unfold bind at 1. unfold get. rewrite Hc, Hr, E.
  destruct published as [[]|]; reflexivity.
Qed.

(** X17. [triggerTool] for a tool other than the email tool, on a connected
    component: when [publishData] succeeds an entry naming the tool is
    logged and the error text is untouched; when it is rejected the error
    text is set and nothing is logged.  No exception leaves the handler
    either way.  On a component that is not connected, or has no room,
    every tool, the email tool included, does nothing. *)
Theorem triggerTool_outcome
    (w : World) (r : Room) (t : Tool.t) (m : jsstring) :
  connected (app w) = true -> room (app w) = Some r ->
  Tool.key t <> lit "send_email" ->
  let ok := triggerTool t (Fulfilled tt) w in
  let ko := triggerTool t (Rejected m) w in
  (fst ok = Normal tt /\
   logs (app (snd ok)) =
     pushLog (LogEntry.mk (clock w (S (reads w)))
                (lit "Triggered tool: " ++ Tool.label t))
             (logs (app w)) /\
   error (app (snd ok)) = error (app w)) /\
  (fst ko = Normal tt /\
   logs (app (snd ko)) = logs (app w) /\
   error (app (snd ko)) =
     Some (Text (lit
       "Failed to send command to assistant. Please speak the request."))) /\
  (forall w0 t0 p,
     connected (app w0) = false \/ room (app w0) = None ->
     triggerTool t0 p w0 = (Normal tt, w0)).
Proof.
  intros Hc Hr Hk. cbv zeta.
  rewrite !(triggerTool_runs w r t _ Hc Hr Hk). cbv zeta. cbn [fst snd].
  split; [|split].
  - repeat split; reflexivity.
  - repeat split; reflexivity.
  - intros w0 t0 p H. unfold triggerTool. unfold bind at 1. unfold get, ret.
    destruct H as [-> | ->]; [|destruct (connected (app w0))]; reflexivity.
Qed.

Lemma triggerTool_outcome_witness :
  let t := Tool.mk (lit "open_website") (lit "Open Website")
             (lit "Open popular websites") (lit "Open YouTube") in
  error (app (snd (triggerTool t (Rejected (lit "closed")) connected_world))) =
    Some (Text (lit
      "Failed to send command to assistant. Please speak the request.")).
Proof.
  refine (proj2 (proj2 (proj1 (proj2 (triggerTool_outcome connected_world
    (RoomRef 0)
    (Tool.mk (lit "open_website") (lit "Open Website")
       (lit "Open popular websites") (lit "Open YouTube"))
    (lit "closed") eq_refl eq_refl _))))).
  vm_compute. discriminate.
Defined.

(** X18. [sendMessage] does nothing while the input is blank or the
    component is not connected.  Otherwise it appends the input, untrimmed,
    to the chat as a user entry and empties the input before it publishes;
    the published command carries the same text.  When [publishData] is
    rejected the entry stays in the chat and the error text is set; in no
    case does an exception leave the handler. *)
Theorem sendMessage_appends (w : World) (r : Room) (published : settled unit) :
  let t := inputMessage (app w) in
  trim t <> [] -> connected (app w) = true -> room (app w) = Some r ->
  let w1 := snd (sendMessage published w) in
  fst (sendMessage published w) = Normal tt /\
  messages (app w1) =
    messages (app w) ++
    [ChatEntry.mk (clock w (reads w)) user (Val (JString t)) (Val (JArray []))
                  (clock w (S (reads w)))] /\
  inputMessage (app w1) = [] /\
  calls w1 =
    publishData r (user_command t (clock w (S (S (reads w))))) true :: calls w /\
  error (app w1) =
    match published with
    | Fulfilled _ => error (app w)
    | Rejected _ =>
        Some (Text (lit "Failed to send message. Please speak the request."))
    end /\
  (forall w0 p,
     trim (inputMessage (app w0)) = [] \/ connected (app w0) = false \/
     room (app w0) = None ->
     sendMessage p w0 = (Normal tt, w0)).
Proof.
  intros t Ht Hc Hr w1. unfold w1, t in *.
  assert (E : exists c s, trim (inputMessage (app w)) = c :: s).
  { destruct (trim (inputMessage (app w))) as [|c s]; [contradiction|].
    now exists c, s. }
  destruct E as (c & s & E).
  split; [|split; [|split; [|split; [|split]]]].
  1-5: unfold sendMessage; unfold bind at 1; unfold get; rewrite E, Hc, Hr;
    unfold_setters; unfold_monad; destruct published as [[]|]; cbn; reflexivity.
  intros w0 p H. unfold sendMessage. unfold bind at 1. unfold get, ret.
  destruct H as [H | [H | H]]; rewrite H.
  - reflexivity.
  - destruct (trim (inputMessage (app w0))); reflexivity.
  - destruct (trim (inputMessage (app w0))); [|destruct (connected (app w0))];
      reflexivity.
Qed.

Lemma sendMessage_appends_witness :
  let w := mkWorld (setInputMessage_in (lit " hi ") connected_app) sample_clock 0 [] in
  messages (app (snd (sendMessage (Rejected (lit "closed")) w))) =
    [ChatEntry.mk 1700000000000 user (Val (JString (lit " hi ")))
                  (Val (JArray [])) 1700000000001].
Proof.
  refine (proj1 (proj2 (sendMessage_appends
    (mkWorld (setInputMessage_in (lit " hi ") connected_app) sample_clock 0 [])
    (RoomRef 0) (Rejected (lit "closed")) _ eq_refl eq_refl))).
  vm_compute. discriminate.
Defined.

(** X19. [handleEmailSubmit] publishes nothing for a form with an empty field
    or on a component that is not connected: its only effect is the error
    text, and the check of the fields comes first. *)
Theorem handleEmailSubmit_refuses (w : World) (published : settled unit) :
  filled (emailForm (app w)) = false \/
  connected (app w) = false \/ room (app w) = None ->
  handleEmailSubmit published w =
    (Normal tt,
     mkWorld
       (setError_in
          (Some (Text (if filled (emailForm (app w))
                       then lit "Not connected to assistant"
                       else lit "Please fill in all email fields")))
          (app w))
       (clock w) (reads w) (calls w)).
Proof.
  intros H. unfold handleEmailSubmit, filled in *. unfold bind at 1. unfold get.
  destruct (EmailForm.to (emailForm (app w))) as [|? ?];
    [reflexivity|].
  destruct (EmailForm.subject (emailForm (app w))) as [|? ?];
    [reflexivity|].
  destruct (EmailForm.body (emailForm (app w))) as [|? ?];
    [reflexivity|].
  destruct H as [H | [H | H]]; [discriminate | rewrite H | rewrite H].
  - reflexivity.
  - destruct (connected (app w)); reflexivity.
Qed.

Lemma handleEmailSubmit_refuses_witness :
  handleEmailSubmit (Fulfilled tt) connected_world =
    (Normal tt,
     mkWorld
       (setError_in (Some (Text (lit "Please fill in all email fields")))
          connected_app)
       sample_clock 0 []).
Proof.
  exact (handleEmailSubmit_refuses connected_world (Fulfilled tt)
           (or_introl eq_refl)).
Defined.

Lemma handleEmailSubmit_runs (w : World) (r : Room) (published : settled unit) :
  filled (emailForm (app w)) = true ->
  connected (app w) = true -> room (app w) = Some r ->
  handleEmailSubmit published w =
    let form := emailForm (app w) in
    let sent :=
      publishData r (user_command (emailCommand form) (clock w (reads w))) true in
    match published with
    | Fulfilled _ =>
        (Normal tt,
         mkWorld
           (setEmailForm_in (EmailForm.mk [] [] [])
              (setShowEmailPopup_in false
                 (setLogs_in
                    (pushLog
                       (LogEntry.mk (clock w (S (reads w)))
                          (lit "Sending email to " ++ EmailForm.to form))
                       (logs (app w)))
                    (setEmailSending_in true (app w)))))
           (clock w) (S (S (reads w)))
           (setTimeout_emailSent 1000 :: sent :: calls w))
    | Rejected _ =>
        (Normal tt,
         mkWorld
           (setEmailSending_in false
              (setError_in
                 (Some (Text (lit "Failed to send email command to assistant")))
                 (setEmailSending_in true (app w))))
           (clock w) (S (reads w)) (sent :: calls w))
    end.
Proof.
  intros Hf Hc Hr. unfold handleEmailSubmit, filled, emailCommand in *.
  unfold bind at 1. unfold get. cbv zeta.
  destruct (EmailForm.to (emailForm (app w))) as [|? ?]; [discriminate|].
  destruct (EmailForm.subject (emailForm (app w))) as [|? ?]; [discriminate|].
  destruct (EmailForm.body (emailForm (app w))) as [|? ?]; [discriminate|].
  rewrite Hc, Hr. destruct published; reflexivity.
Qed.

Lemma emailCommand_code_units (form : EmailForm.t) :
  Forall is_code_unit (EmailForm.to form) ->
  Forall is_code_unit (EmailForm.subject form) ->
  Forall is_code_unit (EmailForm.body form) ->
  Forall is_code_unit (emailCommand form).
Proof.
  intros H1 H2 H3. unfold emailCommand.
  repeat (apply Forall_app; split); try assumption;
    repeat constructor; vm_compute; intuition discriminate.
Qed.

(** X20. A filled form submitted on a connected component whose
    [publishData] succeeds: [publishData] is called once, with the bytes of
    a user command and the boolean [true] as second argument; the text of
    the command is the sentence built from the three fields, and the
    receiver decodes the bytes to that sentence; the form is emptied, the
    popup closed, an entry logged and the one-second timer set.  [emailSending] stays set until the
    timer fires, which shows the confirmation. *)
Theorem handleEmailSubmit_sends (w : World) (r : Room) :
  let form := emailForm (app w) in
  filled form = true ->
  connected (app w) = true -> room (app w) = Some r ->
  Forall is_code_unit (EmailForm.to form) ->
  Forall is_code_unit (EmailForm.subject form) ->
  Forall is_code_unit (EmailForm.body form) ->
  let w1 := snd (handleEmailSubmit (Fulfilled tt) w) in
  let w2 := snd (onEmailSentTimeout w1) in
  calls w1 =
    [ setTimeout_emailSent 1000;
      publishData r (user_command (emailCommand form) (clock w (reads w))) true ]
    ++ calls w /\
  (exists ms,
     JSON.parse (TextDecoder.decode
                   (user_command (emailCommand form) (clock w (reads w)))) =
       Some (JObject ms) /\
     lookup (lit "type") ms = Val (JString (lit "user_command")) /\
     lookup (lit "text") ms = Val (JString (emailCommand form))) /\
  emailForm (app w1) = EmailForm.mk [] [] [] /\
  showEmailPopup (app w1) = false /\
  emailSending (app w1) = true /\
  error (app w1) = error (app w) /\
  logs (app w1) =
    pushLog (LogEntry.mk (clock w (S (reads w)))
               (lit "Sending email to " ++ EmailForm.to form))
            (logs (app w)) /\
  showEmailSentPopup (app w2) = true /\ emailSending (app w2) = false /\
  calls w2 = calls w1.
Proof.
  intros form Hf Hc Hr H1 H2 H3 w1 w2. unfold w2, w1.
  rewrite (handleEmailSubmit_runs w r (Fulfilled tt) Hf Hc Hr).
  cbv zeta. cbn [snd]. fold form.
  split; [reflexivity|]. split.
  - eexists. split.
    + apply user_command_decoded. now apply emailCommand_code_units.
    + split; reflexivity.
  - repeat split; reflexivity.
Qed.

Lemma handleEmailSubmit_sends_witness :
  let w := mkWorld (setEmailForm_in sample_form connected_app) sample_clock 0 [] in
  calls (snd (handleEmailSubmit (Fulfilled tt) w)) =
    [ setTimeout_emailSent 1000;
      publishData (RoomRef 0)
        (user_command (emailCommand sample_form) 1700000000000) true ].
Proof.
  refine (proj1 (handleEmailSubmit_sends
    (mkWorld (setEmailForm_in sample_form connected_app) sample_clock 0 [])
    (RoomRef 0) eq_refl eq_refl eq_refl _ _ _));
    repeat constructor; vm_compute; intuition discriminate.
Defined.

(** X21. A filled form submitted on a connected component whose
    [publishData] is rejected: the error text is set and [emailSending]
    cleared, and nothing else moves; the form keeps its fields and the popup
    stays as it was, no entry is logged and no timer is set. *)
Theorem handleEmailSubmit_failure (w : World) (r : Room) (m : jsstring) :
  let form := emailForm (app w) in
  filled form = true ->
  connected (app w) = true -> room (app w) = Some r ->
  let w1 := snd (handleEmailSubmit (Rejected m) w) in
  fst (handleEmailSubmit (Rejected m) w) = Normal tt /\
  error (app w1) =
    Some (Text (lit "Failed to send email command to assistant")) /\
  emailSending (app w1) = false /\
  emailForm (app w1) = form /\
  showEmailPopup (app w1) = showEmailPopup (app w) /\
  showEmailSentPopup (app w1) = showEmailSentPopup (app w) /\
  logs (app w1) = logs (app w) /\
  calls w1 =
    publishData r (user_command (emailCommand form) (clock w (reads w))) true
    :: calls w.
Proof.
  intros form Hf Hc Hr w1. unfold w1.
  rewrite (handleEmailSubmit_runs w r (Rejected m) Hf Hc Hr).
  cbv zeta. cbn [fst snd]. repeat split; reflexivity.
Qed.

Lemma handleEmailSubmit_failure_witness :
  let w := mkWorld (setEmailForm_in sample_form connected_app) sample_clock 0 [] in
  emailForm (app (snd (handleEmailSubmit (Rejected (lit "closed")) w))) =
    sample_form.
Proof.
  exact (proj1 (proj2 (proj2 (proj2 (handleEmailSubmit_failure
    (mkWorld (setEmailForm_in sample_form connected_app) sample_clock 0 [])
    (RoomRef 0) (lit "closed") eq_refl eq_refl eq_refl))))).
Defined.

(* ------------------------------------------------------------------ *)
(** ** What every run keeps *)

Section Respects.
Variable R : World -> World -> Prop.
Hypothesis R_refl : forall w, R w w.
Hypothesis R_trans : forall a b c, R a b -> R b c -> R a c.

Lemma respects_ret {A} (a : A) : respects R (ret a).
Proof. intros w. apply R_refl. Qed.

Lemma respects_throw {A} (e : exn) : respects R (@throw A e).
Proof. intros w. apply R_refl. Qed.

Lemma respects_get : respects R get.
Proof. intros w. apply R_refl. Qed.

Lemma respects_await {A} (r : settled A) : respects R (await r).
Proof. destruct r; intros w; apply R_refl. Qed.

Lemma respects_bind {A B} (c : M A) (k : A -> M B) :
  respects R c -> (forall a, respects R (k a)) -> respects R (bind c k).
Proof.
  intros Hc Hk w. unfold bind. specialize (Hc w).
  destruct (c w) as [[a|e] w']; simpl in *; [|exact Hc].
  eapply R_trans; [exact Hc | apply Hk].
Qed.

Lemma respects_try_catch {A} (c : M A) (h : exn -> M A) :
  respects R c -> (forall e, respects R (h e)) -> respects R (try_catch c h).
Proof.
  intros Hc Hh w. unfold try_catch. specialize (Hc w).
  destruct (c w) as [[a|e] w']; simpl in *; [exact Hc|].
  eapply R_trans; [exact Hc | apply Hh].
Qed.

Lemma respects_try_finally {A} (c : M A) (f : M unit) :
  respects R c -> respects R f -> respects R (try_finally c f).
Proof.
  intros Hc Hf w. unfold try_finally. specialize (Hc w).
  destruct (c w) as [r w']; simpl in *. specialize (Hf w').
  destruct (f w') as [[[]|e] w'']; simpl in *;
    (eapply R_trans; [exact Hc | exact Hf]).
Qed.

Lemma respects_run :
  (forall e, respects R (handle e)) ->
  forall events w, R w (run events w).
Proof.
  intros H events. induction events as [|e events IH]; intros w.
  - apply R_refl.
  - simpl. eapply R_trans; [apply (H e) | apply IH].
Qed.

End Respects.

(** The structure of a handler, down to its primitive steps. *)
Ltac respect prim :=
  repeat first
    [ prim
    | apply respects_ret; [assumption..]
    | apply respects_throw; [assumption..]
    | apply respects_get; [assumption..]
    | apply respects_await; [assumption..]
    | apply respects_bind; [assumption..| |]
    | apply respects_try_catch; [assumption..| |]
    | apply respects_try_finally; [assumption..| |]
    | progress intros
    | match goal with
      | |- respects _ (match ?x with _ => _ end) => destruct x
      end
    | progress (unfold_handlers; unfold_setters) ].

Lemma same_session_refl (w : World) : same_session w w.
Proof. split; reflexivity. Qed.

Lemma same_session_trans (a b c : World) :
  same_session a b -> same_session b c -> same_session a c.
Proof. intros [H1 H2] [H3 H4]. split; congruence. Qed.

Lemma same_session_modify (f : App -> App) :
  (forall a, connected (f a) = connected a /\ room (f a) = room a) ->
  respects same_session (modify f).
Proof. intros H w. exact (H (app w)). Qed.

Lemma same_session_call (c : Call) : respects same_session (call c).
Proof. intros w. split; reflexivity. Qed.

Lemma same_session_Date_now : respects same_session Date_now.
Proof. intros w. split; reflexivity. Qed.

Lemma same_session_addLog (msg : jsstring) : respects same_session (addLog msg).
Proof. intros w. split; reflexivity. Qed.

Lemma connectToRoom_in_session (env : ConnectEnv) (w : World) :
  in_session (app w) -> in_session (app (snd (connectToRoom env w))).
Proof.
  unfold in_session. intros H. connect_cases env w; try exact H; reflexivity.
Qed.

Lemma handle_in_session (e : Event) (w : World) :
  in_session (app w) -> in_session (app (snd (handle e w))).
Proof.
  intros H.
  assert (F : respects same_session (handle e) ->
              in_session (app (snd (handle e w)))).
  { intros F. destruct (F w) as [F1 F2]. unfold in_session.
    now rewrite F1, F2. }
  pose proof same_session_refl. pose proof same_session_trans.
  destruct e;
    try (apply F; unfold_handlers; unfold_setters;
         respect ltac:(first
           [ apply same_session_addLog
           | apply same_session_call
           | apply same_session_Date_now
           | apply same_session_modify; intros ?; split; reflexivity ]);
         fail);
    clear F; cbn [handle].
  - (* Disconnected *)
    unfold in_session. mrun.
    destruct (levelRafRef (app w)) as [h|]; [destruct (h =? 0)|]; reflexivity.
  - (* ClickConnect *)
    unfold clickConnect, bind, get.
    destruct (connectButton_enabled (app w));
      [now apply connectToRoom_in_session | exact H].
  - (* AutoConnect *)
    unfold autoConnectEffect, bind, get.
    destruct (autoConnect (app w) && negb (connected (app w)) &&
              negb (connecting (app w)));
      [now apply connectToRoom_in_session | exact H].
  - (* ClickDisconnect *)
    unfold in_session in *. mrun.
    destruct (room (app w)) as [r|] eqn:Hr; cbn; [|now rewrite Hr].
    destruct disconnected; cbn; [|now rewrite Hr].
    destruct (levelRafRef (app w)) as [h|]; [destruct (h =? 0)|]; reflexivity.
Qed.

(** X22. Whatever events the component handles after it is mounted, at the
    end of each handler [connected] is true exactly when the component
    holds a room. *)
Theorem connected_iff_room (events : list Event) (time : nat -> Z) :
  let a := app (run events (initial_world time)) in
  connected a = true <-> room a <> None.
Proof.
  cbv zeta.
  assert (H : in_session (app (run events (initial_world time)))).
  { assert (G : forall w, in_session (app w) -> in_session (app (run events w))).
    { induction events as [|e events IH]; intros w Hw; [exact Hw|].
      simpl. apply IH. now apply handle_in_session. }
    apply G. reflexivity. }
  unfold in_session in H. rewrite H.
  destruct (room (app (run events (initial_world time)))); split;
    congruence.
Qed.

Lemma chat_extends_refl (w : World) : chat_extends w w.
Proof. exists []. now rewrite app_nil_r. Qed.

Lemma chat_extends_trans (a b c : World) :
  chat_extends a b -> chat_extends b c -> chat_extends a c.
Proof.
  intros [l1 H1] [l2 H2]. exists (l1 ++ l2). now rewrite H2, H1, app_assoc.
Qed.

Lemma chat_extends_modify (f : App -> App) :
  (forall a, exists l, messages (f a) = messages a ++ l) ->
  respects chat_extends (modify f).
Proof. intros H w. exact (H (app w)). Qed.

Lemma chat_extends_call (c : Call) : respects chat_extends (call c).
Proof. intros w. exists []. cbn. now rewrite app_nil_r. Qed.

Lemma chat_extends_Date_now : respects chat_extends Date_now.
Proof. intros w. exists []. cbn. now rewrite app_nil_r. Qed.

Lemma chat_extends_addLog (msg : jsstring) : respects chat_extends (addLog msg).
Proof. intros w. exists []. cbn. now rewrite app_nil_r. Qed.

Lemma handle_chat_extends (e : Event) : respects chat_extends (handle e).
Proof.
  pose proof chat_extends_refl. pose proof chat_extends_trans.
  destruct e; unfold_handlers; unfold_setters;
    respect ltac:(first
      [ apply chat_extends_call
      | apply chat_extends_addLog
      | apply chat_extends_Date_now
      | apply chat_extends_modify; intros ?;
      first [ exists []; cbn; now rewrite app_nil_r
            | eexists; cbn; reflexivity ] ]).
Qed.

(** X23. Whatever events the component handles, from whatever state, the
    chat it held before is still there, entry for entry, at the front of
    the chat it ends with: no handler removes, reorders or rewrites a chat
    entry. *)
Theorem chat_is_append_only (events : list Event) (w : World) :
  exists l, messages (app (run events w)) = messages (app w) ++ l.
Proof.
  revert w. apply (respects_run chat_extends).
  - exact chat_extends_refl.
  - exact chat_extends_trans.
  - exact handle_chat_extends.
Qed.

Lemma only_commands_refl (w : World) : only_commands w w.
Proof. intros H. exact H. Qed.

Lemma only_commands_trans (a b c : World) :
  only_commands a b -> only_commands b c -> only_commands a c.
Proof. intros H1 H2 H. exact (H2 (H1 H)). Qed.

Lemma only_commands_modify (f : App -> App) :
  respects only_commands (modify f).
Proof. intros w H. exact H. Qed.

Lemma only_commands_Date_now : respects only_commands Date_now.
Proof. intros w H. exact H. Qed.

Lemma only_commands_call (c : Call) :
  publishes_command c -> respects only_commands (call c).
Proof. intros Hc w H. constructor; assumption. Qed.

Lemma only_commands_addLog (msg : jsstring) :
  respects only_commands (addLog msg).
Proof. intros w H. exact H. Qed.

Lemma handle_only_commands (e : Event) : respects only_commands (handle e).
Proof.
  pose proof only_commands_refl. pose proof only_commands_trans.
  destruct e; unfold_handlers; unfold_setters;
    respect ltac:(first
      [ apply only_commands_modify
      | apply only_commands_addLog
      | apply only_commands_Date_now
      | apply only_commands_call;
      first [ exact I
            | exact (conj eq_refl (ex_intro _ _ (ex_intro _ _ eq_refl))) ] ]).
Qed.

(** X24. Whatever events the component handles after it is mounted, every
    call of [publishData] it makes passes the bytes of a user command,
    [{type: 'user_command', text, ts}] stringified and encoded, and the
    boolean [true] as second argument: nothing else is ever published. *)
Theorem only_user_commands_are_published
    (events : list Event) (time : nat -> Z) :
  Forall publishes_command (calls (run events (initial_world time))).
Proof.
  apply (respects_run only_commands only_commands_refl only_commands_trans
           handle_only_commands events (initial_world time)).
  constructor.
Qed.

Lemma keeps_log_in_order_refl (w : World) : keeps_log_in_order w w.
Proof. intros H. exact H. Qed.

Lemma keeps_log_in_order_trans (a b c : World) :
  keeps_log_in_order a b -> keeps_log_in_order b c -> keeps_log_in_order a c.
Proof. intros H1 H2 H. exact (H2 (H1 H)). Qed.

Lemma Forall_firstn {A} (P : A -> Prop) (n : nat) (l : list A) :
  Forall P l -> Forall P (firstn n l).
Proof.
  revert l. induction n as [|n IH]; intros l H; [constructor|].
  destruct H; simpl; [constructor | constructor; auto].
Qed.

Lemma newest_first_firstn (n : nat) (l : list LogEntry.t) :
  newest_first l -> newest_first (firstn n l).
Proof.
  revert l. induction n as [|n IH]; intros l H; [exact I|].
  destruct l as [|e l]; [exact I|]. destruct H as [H1 H2]. simpl.
  split; [now apply Forall_firstn | now apply IH].
Qed.

Lemma log_in_order_modify (f : App -> App) :
  (forall a, logs (f a) = logs a) -> respects keeps_log_in_order (modify f).
Proof.
  intros Hf w (Hm & Hs & Hb). unfold log_in_order. cbn. rewrite Hf.
  repeat split; assumption.
Qed.

Lemma log_in_order_call (c : Call) : respects keeps_log_in_order (call c).
Proof. intros w H. exact H. Qed.

Lemma log_in_order_Date_now : respects keeps_log_in_order Date_now.
Proof.
  intros w (Hm & Hs & Hb). unfold log_in_order. cbn.
  repeat split; try assumption.
  eapply Forall_impl; [|exact Hb]. cbn. intros e He.
  specialize (Hm (reads w) (S (reads w))). lia.
Qed.

Lemma log_in_order_addLog (msg : jsstring) :
  respects keeps_log_in_order (addLog msg).
Proof.
  intros w (Hm & Hs & Hb). unfold log_in_order, addLog, bind, Date_now, modify.
  cbn [snd app clock reads logs setLogs_in]. unfold pushLog.
  split; [exact Hm|]. split.
  - apply newest_first_firstn. split; [exact Hb | exact Hs].
  - apply Forall_firstn. constructor.
    + cbn. apply Hm. lia.
    + eapply Forall_impl; [|exact Hb]. cbn. intros e He.
      specialize (Hm (reads w) (S (reads w))). lia.
Qed.

Lemma handle_keeps_log_in_order (e : Event) :
  respects keeps_log_in_order (handle e).
Proof.
  pose proof keeps_log_in_order_refl. pose proof keeps_log_in_order_trans.
  destruct e; unfold_handlers; unfold_setters;
    respect ltac:(first
      [ apply log_in_order_addLog
      | apply log_in_order_call
      | apply log_in_order_Date_now
      | apply log_in_order_modify; reflexivity ]).
Qed.

(** X25. With a clock that never goes back, whatever events the component
    handles after it is mounted, the log is ordered newest first: the time
    stamp of an entry is never earlier than that of an entry below it. *)
Theorem log_is_newest_first (events : list Event) (time : nat -> Z) :
  monotone time ->
  newest_first (logs (app (run events (initial_world time)))).
Proof.
  intros Hm.
  apply (respects_run keeps_log_in_order keeps_log_in_order_refl
           keeps_log_in_order_trans handle_keeps_log_in_order events
           (initial_world time)).
  split; [exact Hm|]. split; [exact I | constructor].
Qed.

Lemma sample_clock_monotone : monotone sample_clock.
Proof. intros i j H. unfold sample_clock. lia. Qed.

Lemma log_is_newest_first_witness :
  newest_first
    (logs (app (run [ParticipantConnected (lit "agent") [lit "agent"];
                     Disconnected]
                    (initial_world sample_clock)))).
Proof.
  exact (log_is_newest_first
           [ParticipantConnected (lit "agent") [lit "agent"]; Disconnected]
           sample_clock sample_clock_monotone).
Defined.

(* ------------------------------------------------------------------ *)
(** ** Preferences *)

Lemma parse_value_true (f : nat) (rest : jsstring) :
  JSON.parse_value (S f) (lit "true" ++ rest) = POk (JBool true) rest.
Proof. reflexivity. Qed.

Lemma parse_value_false (f : nat) (rest : jsstring) :
  JSON.parse_value (S f) (lit "false" ++ rest) = POk (JBool false) rest.
Proof. reflexivity. Qed.

Lemma parse_value_object (f : nat) (s : jsstring) :
  JSON.parse_value (S f) (123 :: s) =
  match JSON.eat 125 (JSON.skip_ws s) with
  | Some r' => POk (JObject []) r'
  | None => JSON.parse_members f s []
  end.
Proof. reflexivity. Qed.

Lemma eat_quote (k rest : jsstring) :
  JSON.eat 125 (JSON.skip_ws (JSON.quote k ++ rest)) = None.
Proof. reflexivity. Qed.

Lemma quote_members (k : jsstring) (rest : jsstring) (f : nat)
    (acc : list (jsstring * json)) :
  Forall is_code_unit k ->
  JSON.parse_members (S f) (JSON.quote k ++ 58 :: rest) acc =
  match JSON.parse_value f rest with
  | POk v r3 =>
      match JSON.skip_ws r3 with
      | c :: r4 =>
          if c =? 44 then JSON.parse_members f r4 ((k, v) :: acc)
          else if c =? 125 then POk (JObject (rev ((k, v) :: acc))) r4
          else PSyntaxError
      | [] => PSyntaxError
      end
  | PSyntaxError => PSyntaxError
  | PFuel => PFuel
  end.
Proof.
  intros Hk. rewrite parse_members_eq.
  unfold JSON.quote. cbn [List.app]. rewrite <- app_assoc. cbn [List.app].
  cbn [JSON.skip_ws]. change (JSON.is_ws 34) with false. cbv iota.
  cbn [JSON.eat]. change (34 =? 34) with true. cbv iota.
  rewrite lex_string_quote_body by exact Hk.
  cbn [JSON.skip_ws]. change (JSON.is_ws 58) with false. cbv iota.
  cbn [JSON.eat]. change (58 =? 58) with true. cbv iota.
  reflexivity.
Qed.

Lemma parse_prefs_text (p : Prefs.t) :
  Forall is_code_unit (Prefs.fontSize p) ->
  Forall is_code_unit (Prefs.theme p) ->
  Forall is_code_unit (Prefs.selectedMicId p) ->
  JSON.parse (prefs_text p) =
    Some (JObject [(lit "autoConnect", JBool (Prefs.autoConnect p));
                   (lit "fontSize", JString (Prefs.fontSize p));
                   (lit "theme", JString (Prefs.theme p));
                   (lit "selectedMicId", JString (Prefs.selectedMicId p))]).
Proof.
  intros H1 H2 H3. unfold JSON.parse, JSON.parse_text.
  set (f := Nat.mul 2 (length (prefs_text p))).
  assert (Hf : (7 <= f)%nat).
  { assert (L : (13 <= length (JSON.quote (lit "autoConnect")))%nat)
      by (vm_compute; lia).
    subst f. unfold prefs_text. cbn [length]. rewrite length_app. lia. }
  clearbody f. do 3 (destruct f as [|f]; [lia|]).
  unfold prefs_text.
  set (ms := (lit "fontSize", JSON.SString (Prefs.fontSize p)) ::
             (lit "theme", JSON.SString (Prefs.theme p)) ::
             (lit "selectedMicId", JSON.SString (Prefs.selectedMicId p)) :: nil).
  assert (Hms : Forall JSON.member_ok ms).
  { repeat constructor; cbn [fst snd JSON.scalar_ok]; try assumption;
      vm_compute; intuition discriminate. }
  rewrite parse_value_object.
  rewrite eat_quote.
  rewrite quote_members by (repeat constructor; vm_compute; intuition discriminate).
  assert (V : JSON.parse_value (S (S f))
                ((if Prefs.autoConnect p then lit "true" else lit "false") ++
                 44 :: JSON.stringify_members ms ++ [125]) =
              POk (JBool (Prefs.autoConnect p))
                  (44 :: JSON.stringify_members ms ++ [125])).
  { destruct (Prefs.autoConnect p);
      [apply parse_value_true | apply parse_value_false]. }
  rewrite V.
  cbn [JSON.skip_ws]. change (JSON.is_ws 44) with false. cbv iota.
  change (44 =? 44) with true. cbv iota.
  rewrite parse_members_stringify; [reflexivity | discriminate | | exact Hms].
  cbn [length ms]. lia.
Qed.

Lemma string_member_string (s current : jsstring) :
  string_member (Val (JString s)) current = Some (restored s current).
Proof. destruct s; reflexivity. Qed.

(** X26. A text stored by the second effect is read back by the first one
    on the next mount: [autoConnect] as it was, and the font size, the theme
    and the microphone as they were unless empty; a cell stored empty keeps
    the value it has at that time (on a fresh mount, the default).  With
    nothing stored, or a stored text that is not JSON, every cell keeps its
    value. *)
Theorem prefs_survive_reload (p current : Prefs.t) :
  Forall is_code_unit (Prefs.fontSize p) ->
  Forall is_code_unit (Prefs.theme p) ->
  Forall is_code_unit (Prefs.selectedMicId p) ->
  loadPrefs (Some (prefs_text p)) current =
    Some (Prefs.mk (Prefs.autoConnect p)
            (restored (Prefs.fontSize p) (Prefs.fontSize current))
            (restored (Prefs.theme p) (Prefs.theme current))
            (restored (Prefs.selectedMicId p) (Prefs.selectedMicId current))) /\
  loadPrefs None current = Some current /\
  loadPrefs (Some []) current = Some current /\
  (forall text, JSON.parse text = None ->
     loadPrefs (Some text) current = Some current).
Proof.
  intros H1 H2 H3. split; [|split; [|split]].
  - pose proof (parse_prefs_text p H1 H2 H3) as Hp.
    unfold loadPrefs. destruct (prefs_text p) as [|c s] eqn:Et;
      [unfold prefs_text in Et; discriminate|].
    cbv zeta. rewrite Hp.
    set (ms := [(lit "autoConnect", JBool (Prefs.autoConnect p));
                (lit "fontSize", JString (Prefs.fontSize p));
                (lit "theme", JString (Prefs.theme p));
                (lit "selectedMicId", JString (Prefs.selectedMicId p))]).
    assert (L1 : lookup (lit "autoConnect") ms = Val (JBool (Prefs.autoConnect p)))
      by reflexivity.
    assert (L2 : lookup (lit "fontSize") ms = Val (JString (Prefs.fontSize p)))
      by reflexivity.
    assert (L3 : lookup (lit "theme") ms = Val (JString (Prefs.theme p)))
      by reflexivity.
    assert (L4 : lookup (lit "selectedMicId") ms =
                 Val (JString (Prefs.selectedMicId p))) by reflexivity.
    cbv zeta. rewrite L1, L2, L3, L4, !string_member_string. reflexivity.
  - destruct current. reflexivity.
  - destruct current. reflexivity.
  - intros text Hp. unfold loadPrefs. destruct text as [|c s].
    + destruct current. reflexivity.
    + now rewrite Hp.
Qed.

Lemma prefs_survive_reload_witness :
  loadPrefs (Some (prefs_text (Prefs.mk true [] (lit "light") (lit "mic-1"))))
            initial_prefs =
  Some (Prefs.mk true (lit "16") (lit "light") (lit "mic-1")).
Proof.
  refine (proj1 (prefs_survive_reload
    (Prefs.mk true [] (lit "light") (lit "mic-1")) initial_prefs _ _ _));
    repeat constructor; vm_compute; intuition discriminate.
Defined.

(* ------------------------------------------------------------------ *)
(** ** The contact manager *)

Section Contacts.
Import ContactManager.

Lemma rewrite_first_ids (i n e : jsstring) (l : list Contact.t) :
  map Contact.id (rewrite_first i n e l) = map Contact.id l.
Proof.
  induction l as [|c l IH]; [reflexivity|]. cbn [rewrite_first].
  destruct (jsstring_eqb (Contact.id c) i); cbn [map Contact.id];
    [reflexivity | now rewrite IH].
Qed.

Lemma rewrite_first_absent (i n e : jsstring) (l : list Contact.t) :
  ~ In i (map Contact.id l) -> rewrite_first i n e l = l.
Proof.
  induction l as [|c l IH]; intros H; [reflexivity|]. cbn [rewrite_first].
  destruct (jsstring_eqb (Contact.id c) i) eqn:E.
  - apply jsstring_eqb_eq in E. exfalso. apply H. now left.
  - rewrite IH; [reflexivity|]. intros H'. apply H. now right.
Qed.

Lemma rewrite_first_split (i n e : jsstring) (before after : list Contact.t)
    (c : Contact.t) :
  Contact.id c = i -> ~ In i (map Contact.id before) ->
  rewrite_first i n e (before ++ c :: after) =
  before ++ Contact.mk i n e :: after.
Proof.
  intros Hc. induction before as [|b before IH]; intros H.
  - cbn [List.app rewrite_first].
    assert (E : jsstring_eqb (Contact.id c) i = true) by now apply jsstring_eqb_eq.
    rewrite E, Hc. reflexivity.
  - cbn [List.app rewrite_first].
    destruct (jsstring_eqb (Contact.id b) i) eqn:E.
    + apply jsstring_eqb_eq in E. exfalso. apply H. now left.
    + rewrite IH; [reflexivity|]. intros H'. apply H. now right.
Qed.

(** X27. Saving an edited contact never changes the number of contacts,
    their ids or their order: the first contact that has the edited id gets
    the trimmed name and email, every other contact is as before, and when
    no contact has that id the list is unchanged.  The list is stored and
    the form is reset. *)
Theorem save_edit_keeps_ids (s : State) (i : jsstring) (now : Z) :
  editing s = Some i -> i <> [] ->
  trim (name s) <> [] -> trim (email s) <> [] ->
  let s' := fst (save now s) in
  map Contact.id (contacts s') = map Contact.id (contacts s) /\
  (forall before c after,
     contacts s = before ++ c :: after ->
     Contact.id c = i -> ~ In i (map Contact.id before) ->
     contacts s' =
       before ++ Contact.mk i (trim (name s)) (trim (email s)) :: after) /\
  (~ In i (map Contact.id (contacts s)) -> contacts s' = contacts s) /\
  snd (save now s) = Some (contacts s') /\
  editing s' = None /\ name s' = [] /\ email s' = [].
Proof.
  intros He Hi Hn Hm. unfold save. rewrite He.
  destruct (trim (name s)) as [|n0 n]; [contradiction|].
  destruct (trim (email s)) as [|e0 e]; [contradiction|].
  destruct i as [|u i]; [contradiction|].
  cbv zeta. cbn [fst snd contacts editing name email].
  split; [apply rewrite_first_ids|]. split.
  - intros before c after -> Hc Hb. now apply rewrite_first_split.
  - split; [apply rewrite_first_absent|]. repeat split; reflexivity.
Qed.

Lemma save_edit_keeps_ids_witness :
  contacts (fst (save 5 sample_contacts)) =
    [Contact.mk (lit "c_1") (lit "Ann") (lit "ann@example.com");
     Contact.mk (lit "c_2") (lit "Robert") (lit "rob@example.com")].
Proof.
  refine (proj1 (proj2 (save_edit_keeps_ids sample_contacts (lit "c_2") 5
            eq_refl _ _ _))
          [Contact.mk (lit "c_1") (lit "Ann") (lit "ann@example.com")]
          (Contact.mk (lit "c_2") (lit "Bob") (lit "bob@example.com"))
          [] eq_refl eq_refl _); try (vm_compute; discriminate).
  vm_compute. intros [H | []]. discriminate.
Defined.

Lemma Number_toString_injective (a b : Z) :
  Number_toString a = Number_toString b -> a = b.
Proof.
  intros E.
  pose proof (parseInt_numeral [] a [] (Forall_nil _) I) as Ha.
  pose proof (parseInt_numeral [] b [] (Forall_nil _) I) as Hb.
  cbn [List.app] in Ha, Hb. rewrite E in Ha. congruence.
Qed.

(** X28. Saving a new contact appends it, with the trimmed name and email
    and the id [c_] followed by the time, and leaves the contacts present
    as they are.  When the contacts present have distinct ids, all made by
    [save] at earlier times, the ids are distinct afterwards too.  Two
    contacts saved at the same clock reading do share their id, and
    [remove] with that id then deletes both. *)
Theorem save_add_appends (s : State) (now : Z) :
  editing s = None \/ editing s = Some [] ->
  trim (name s) <> [] -> trim (email s) <> [] ->
  let s' := fst (save now s) in
  contacts s' =
    contacts s ++ [Contact.mk (contact_id now) (trim (name s)) (trim (email s))] /\
  snd (save now s) = Some (contacts s') /\
  (NoDup (map Contact.id (contacts s)) ->
   (forall c, In c (contacts s) ->
      exists t, t < now /\ Contact.id c = contact_id t) ->
   NoDup (map Contact.id (contacts s'))) /\
  (forall n e,
     trim n <> [] -> trim e <> [] ->
     let s2 := fst (save now (mkState (contacts s') None n e)) in
     map Contact.id (contacts s2) =
       map Contact.id (contacts s) ++ [contact_id now; contact_id now] /\
     (~ In (contact_id now) (map Contact.id (contacts s)) ->
      contacts (fst (remove (contact_id now) s2)) = contacts s)).
Proof.
  intros He Hn Hm.
  assert (E : forall n e l ed,
    trim n <> [] -> trim e <> [] -> ed = None \/ ed = Some [] ->
    save now (mkState l ed n e) =
      (mkState (l ++ [Contact.mk (contact_id now) (trim n) (trim e)]) None [] [],
       Some (l ++ [Contact.mk (contact_id now) (trim n) (trim e)]))).
  { intros n e l ed H1 H2 H3. unfold save. cbn [name email editing contacts].
    destruct (trim n); [contradiction|]. destruct (trim e); [contradiction|].
    destruct H3 as [-> | ->]; reflexivity. }
  destruct s as [l ed n e]. cbn [contacts editing name email] in *.
  cbv zeta. rewrite (E n e l ed Hn Hm He). cbn [fst snd contacts].
  split; [reflexivity|]. split; [reflexivity|]. split.
  - intros Hd Hold. rewrite map_app. cbn [map Contact.id].
    apply NoDup_app; [exact Hd | repeat constructor; intros [] | ].
    intros i Hi [<- | []].
    apply in_map_iff in Hi as (c & Hc & Hin).
    destruct (Hold c Hin) as (t & Ht & Hid).
    rewrite Hid in Hc. unfold contact_id in Hc.
    apply app_inv_head in Hc. apply Number_toString_injective in Hc. lia.
  - intros n' e' H1 H2. cbv zeta.
    rewrite (E n' e' _ None H1 H2 (or_introl eq_refl)). cbn [fst contacts].
    split.
    + rewrite !map_app, <- app_assoc. reflexivity.
    + intros Hnot. unfold remove. cbn [fst contacts].
      rewrite !filter_app. cbn [filter Contact.id].
      assert (R : jsstring_eqb (contact_id now) (contact_id now) = true)
        by now apply jsstring_eqb_eq.
      rewrite R. cbn [negb List.app]. rewrite !app_nil_r.
      apply forallb_filter_id. apply forallb_forall. intros c Hc.
      destruct (jsstring_eqb (Contact.id c) (contact_id now)) eqn:Ec;
        [|reflexivity].
      apply jsstring_eqb_eq in Ec. exfalso. apply Hnot.
      apply in_map_iff. now exists c.
Qed.

Lemma save_add_appends_witness :
  contacts (fst (save 1700000000000
                   (mkState [] None (lit " Ann ") (lit "ann@example.com")))) =
    [Contact.mk (lit "c_1700000000000") (lit "Ann") (lit "ann@example.com")].
Proof.
  refine (proj1 (save_add_appends
    (mkState [] None (lit " Ann ") (lit "ann@example.com")) 1700000000000
    (or_introl eq_refl) _ _)); vm_compute; discriminate.
Defined.

End Contacts.
